(** * Identipattern core: a shallow embedding of [packages/core/src/core.ts]

    The generator turns a 64-digit hexadecimal hash into an SVG document.
    This file embeds the functions of [core.ts] one by one, then the
    facades [toSvg] of [facades/svg.ts] and [update] of [facades/dom.ts],
    and proves properties of them.

    Conventions of the embedding.
    - A JavaScript string is a Rocq [string], read as a sequence of code
      units in 0..255 (ASCII and Latin-1).
    - A JavaScript Number that only ever holds an integer is a [Z]; where
      the source can also produce [NaN] on that path (a read outside an
      array) the value is an [option Z] with [None] for [NaN].
    - Every other Number is a binary64 value of the kernel ([float]), whose
      [+ - * /], [sqrt], [abs] and comparisons are IEEE 754 operations, as
      those of JavaScript are.
    - A field of the options is left out, or holds a value of its type or
      [undefined]: [optional].
    - [Math.sin], [Math.cos] and [Math.pow] are left to the JavaScript
      engine by ECMAScript ("implementation-approximated"); so is the
      shortest-digits printing of a Number that is not a small integer. They
      are the fields of an [Engine], and the embedding is a function of it.
    - The document and its elements are what [update] asks of them: the
      answer of [querySelector] and of [getAttribute]; the one write of
      [update], the assignment to [outerHTML], is the value it returns. *)

From Stdlib Require Import ZArith List String Ascii Bool Lia Floats Finite.
From Stdlib Require Import DecimalString DecimalN DecimalPos.
Import ListNotations.

#[local] Set Warnings "-inexact-float".

Local Open Scope Z_scope.

(* ================================================================== *)
(** ** JavaScript strings *)

Module JSString.

Definition code (c : ascii) : Z := Z.of_N (N_of_ascii c).

Definition of_code (n : Z) : ascii := ascii_of_N (Z.to_N n).

Definition in_range (lo hi : Z) (c : ascii) : bool :=
  (lo <=? code c) && (code c <=? hi).

(** [String.prototype.toLowerCase] on code units below 256: the letters
    A-Z and the Latin-1 capitals U+00C0..U+00DE (but the sign U+00D7)
    move up by 32. *)
Definition lower_char (c : ascii) : ascii :=
  if in_range 65 90 c then of_code (code c + 32)
  else if in_range 192 222 c && negb (code c =? 215) then of_code (code c + 32)
  else c.

Fixpoint toLowerCase (s : string) : string :=
  match s with
  | EmptyString => EmptyString
  | String c r => String (lower_char c) (toLowerCase r)
  end.

(** Upper-casing of the ASCII letters, every other code unit kept: what
    [toUpperCase] does to a string of ASCII characters. *)
Definition upper_char (c : ascii) : ascii :=
  if in_range 97 122 c then of_code (code c - 32) else c.

Fixpoint toUpperCase (s : string) : string :=
  match s with
  | EmptyString => EmptyString
  | String c r => String (upper_char c) (toUpperCase r)
  end.

(** [pieces.join(sep)] *)
Definition join (sep : string) (pieces : list string) : string :=
  String.concat sep pieces.

(** [s] ends with [suffix]. *)
Definition ends_with (suffix s : string) : bool :=
  let n := String.length suffix in
  let k := String.length s in
  Nat.leb n k && String.eqb (substring (k - n) n s) suffix.

Definition starts_with (p s : string) : bool := String.prefix p s.

End JSString.

(* ================================================================== *)
(** ** The regular expression [/^[0-9a-f]{64}$/i] *)

Module Regex.
Import JSString.

(** The class [[0-9a-f]]. *)
Definition hex_class (c : ascii) : bool :=
  in_range 48 57 c || in_range 97 102 c.

(** Under the [i] flag (and without [u]) a character matches a class when
    their canonical forms agree; the canonical form of an ASCII letter is
    its capital, a digit is its own, and a code unit above 127 never
    canonicalizes into ASCII.  For [[0-9a-f]] this adds exactly A-F. *)
Definition hex_class_i (c : ascii) : bool :=
  hex_class c || in_range 65 70 c.

(** [cls{n}] at the head of [s]: the rest of the string after exactly
    [n] characters of the class, or no match. *)
Fixpoint repeat_exact (cls : ascii -> bool) (n : nat) (s : string) : option string :=
  match n with
  | O => Some s
  | S k =>
      match s with
      | String c r => if cls c then repeat_exact cls k r else None
      | EmptyString => None
      end
  end.

(** [/^[0-9a-f]{64}$/i.test(s)]: anchored at both ends. *)
Definition test_hex64 (s : string) : bool :=
  match repeat_exact hex_class_i 64 s with
  | Some EmptyString => true
  | _ => false
  end.

End Regex.

(* ================================================================== *)
(** ** Integer-valued Numbers *)

Module JSInt.

Definition two32 : Z := 2 ^ 32.

(** [ToInt32]: reduce modulo 2^32 into [-2^31, 2^31). *)
Definition ToInt32 (z : Z) : Z :=
  let m := z mod two32 in
  if 2 ^ 31 <=? m then m - two32 else m.

(** [ToUint32]: reduce modulo 2^32 into [0, 2^32). *)
Definition ToUint32 (z : Z) : Z := z mod two32.

(** An integer-valued Number or [NaN]. *)
Definition num := option Z.



(** [x << k]: [NaN] converts to 0, the result is an int32. *)
Definition shl (x : num) (k : Z) : Z :=
  match x with
  | Some z => ToInt32 (Z.shiftl (ToInt32 z) k)
  | None => 0
  end.

(** [x >>> 0]: [NaN] converts to 0, the result is a uint32. *)
Definition ushr0 (x : num) : Z :=
  match x with
  | Some z => ToUint32 z
  | None => 0
  end.

Definition add (x y : num) : num :=
  match x, y with
  | Some a, Some b => Some (a + b)
  | _, _ => None
  end.

(** [arr[i]] for an array of integers: [undefined] outside the array,
    which arithmetic turns into [NaN]. *)
Definition get (arr : list Z) (i : Z) : num :=
  if i <? 0 then None else nth_error arr (Z.to_nat i).

(** [parseInt(s, 16)]: leading white space, a sign, an optional [0x],
    then the longest run of hexadecimal digits; [NaN] when there is
    none. *)
Definition is_space (c : ascii) : bool :=
  JSString.in_range 9 13 c || (JSString.code c =? 32) || (JSString.code c =? 160).

Fixpoint trim_start (s : string) : string :=
  match s with
  | String c r => if is_space c then trim_start r else s
  | EmptyString => EmptyString
  end.

Definition hex_digit (c : ascii) : option Z :=
  if JSString.in_range 48 57 c then Some (JSString.code c - 48)
  else if JSString.in_range 97 102 c then Some (JSString.code c - 87)
  else if JSString.in_range 65 70 c then Some (JSString.code c - 55)
  else None.

Fixpoint hex_run (acc : num) (s : string) : num :=
  match s with
  | String c r =>
      match hex_digit c with
      | Some d => hex_run (Some (match acc with Some a => 16 * a + d | None => d end)) r
      | None => acc
      end
  | EmptyString => acc
  end.

Definition parseInt16 (s : string) : num :=
  let s1 := trim_start s in
  let '(sign, s2) :=
    match s1 with
    | String "-"%char r => (-1, r)
    | String "+"%char r => (1, r)
    | _ => (1, s1)
    end in
  let s3 :=
    match s2 with
    | String "0"%char (String "x"%char r) => r
    | String "0"%char (String "X"%char r) => r
    | _ => s2
    end in
  match hex_run None s3 with
  | Some v => Some (sign * v)
  | None => None
  end.

(** [x || 0] for an integer-valued Number: [NaN] and zero give 0. *)
Definition or_zero (x : num) : Z :=
  match x with
  | Some v => v
  | None => 0
  end.

End JSInt.

(* ================================================================== *)
(** ** [parseBytes], [hashSegment], [permIdx] *)

(** [parseBytes]: the loop [for (i = 0; i + 1 < s.length; i += 2)] takes the
    characters of the lower-cased string two at a time; a last odd
    character is dropped. *)
Fixpoint parseBytes_pairs (s : string) : list Z :=
  match s with
  | String a (String b r) =>
      JSInt.or_zero (JSInt.parseInt16 (String a (String b EmptyString)))
        :: parseBytes_pairs r
  | _ => []
  end.

Definition parseBytes (hex : string) : list Z :=
  parseBytes_pairs (JSString.toLowerCase hex).

(** One turn of the loop of [hashSegment]:
    [h = ((h << 5) + h) + bytes[i]]. *)
Definition hashSegment_step (bytes : list Z) (h : JSInt.num) (i : Z) : JSInt.num :=
  JSInt.add (JSInt.add (Some (JSInt.shl h 5)) h) (JSInt.get bytes i).

(** The loop [for (i = start; i < start + length && i < bytes.length; i++)],
    run for at most [fuel] turns. *)
Fixpoint hashSegment_loop (fuel : nat) (bytes : list Z) (stop : Z) (i : Z)
    (h : JSInt.num) : JSInt.num :=
  match fuel with
  | O => h
  | S fuel' =>
      if (i <? stop) && (i <? Z.of_nat (List.length bytes))
      then hashSegment_loop fuel' bytes stop (i + 1) (hashSegment_step bytes h i)
      else h
  end.

(** The loop condition fails once [i] reaches [bytes.length], so
    [bytes.length - start] turns are enough (see [hashSegment_loop_fuel]). *)
Definition hashSegment_fuel (bytes : list Z) (start : Z) : nat :=
  Z.to_nat (Z.of_nat (List.length bytes) - start).

(** [hashSegment]: [Math.abs(h >>> 0)]; the absolute value of a uint32 is
    itself. *)
Definition hashSegment (bytes : list Z) (start length : Z) : Z :=
  Z.abs (JSInt.ushr0
    (hashSegment_loop (hashSegment_fuel bytes start) bytes (start + length) start
       (Some 5381))).

(** [permIdx]: [(i * 73) & 127]; [&] works on the int32 of its operand. *)
Definition permIdx (i : Z) : Z := Z.land (JSInt.ToInt32 (i * 73)) 127.

(* ================================================================== *)
(** ** binary64 Numbers *)

Module JSNum.
Local Open Scope float_scope.

(** The Number of a non-negative integer below 2^53 (exact). *)
Definition of_Z (z : Z) : float := PrimFloat.of_uint63 (Uint63.of_Z z).

(** [Math.PI] *)
Definition PI : float := 0x1.921fb54442d18p+1.

Definition is_neg_zero (x : float) : bool :=
  match Prim2SF x with
  | S754_zero true => true
  | _ => false
  end.

(** [Math.max] and [Math.min] of two Numbers: [NaN] if either is, and
    [+0] counts as larger than [-0]. *)
Definition max (x y : float) : float :=
  if is_nan x || is_nan y then nan
  else if x <? y then y
  else if y <? x then x
  else if is_neg_zero x then y else x.

Definition min (x y : float) : float :=
  if is_nan x || is_nan y then nan
  else if x <? y then x
  else if y <? x then y
  else if is_neg_zero x then x else y.

(** [Math.sign]: 1, -1, or the argument itself when it is a zero or
    [NaN]. *)
Definition sign (x : float) : float :=
  if is_nan x then nan
  else if 0 <? x then 1
  else if x <? 0 then -1
  else x.

(** The integer [n] that [toFixed(2)] picks for a finite [m * 2^e >= 0]:
    [n / 100] is as close to the value as possible, the larger [n] on a
    tie. *)
Definition hundredths (m e : Z) : Z :=
  match e with
  | Zneg p => (2 * (m * 100) + 2 ^ Zpos p) / (2 * 2 ^ Zpos p)
  | _ => m * 100 * 2 ^ e
  end%Z.

Definition digits (n : Z) : string :=
  NilZero.string_of_uint (N.to_uint (Z.to_N n)).

(** The digits of [n], filled with zeros on the left to three at least,
    and a point before the last two. *)
Definition fixed2 (n : Z) : string :=
  let d := digits n in
  let d :=
    match String.length d with
    | 1%nat => ("00" ++ d)%string
    | 2%nat => ("0" ++ d)%string
    | _ => d
    end in
  let k := (String.length d - 2)%nat in
  (substring 0 k d ++ "." ++ substring k 2 d)%string.

(** The exact integer value of [m * 2^e] when it is one below 2^53. *)
Definition safe_integer (m e : Z) : option Z :=
  match e with
  | Zneg p =>
      if (m mod 2 ^ Zpos p =? 0)%Z then Some (m / 2 ^ Zpos p)%Z else None
  | _ => if (m * 2 ^ e <? 2 ^ 53)%Z then Some (m * 2 ^ e)%Z else None
  end.

Section Printing.
(** The engine's shortest-digits printing of a finite positive Number
    ([Number::toString] in radix 10). *)
Variable shortest : float -> string.

(** [String(x)], as a template literal evaluates [${x}]: the special
    values and the integers below 2^53 are spelled out, the rest is
    the engine's. *)
Definition toString (x : float) : string :=
  match Prim2SF x with
  | S754_nan => "NaN"
  | S754_infinity s => if s then "-Infinity" else "Infinity"
  | S754_zero _ => "0"
  | S754_finite s m e =>
      String.append (if s then "-" else "")
        match safe_integer (Zpos m) e with
        | Some n => digits n
        | None => shortest (abs x)
        end
  end.

(** [x.toFixed(2)] *)
Definition toFixed2 (x : float) : string :=
  match Prim2SF x with
  | S754_nan => "NaN"
  | S754_infinity s => if s then "-Infinity" else "Infinity"
  | S754_zero _ => "0.00"
  | S754_finite s m e =>
      String.append (if s then "-" else "")
        (if 1e21 <=? abs x then toString (abs x)
         else fixed2 (hundredths (Zpos m) e))
  end.
End Printing.

End JSNum.

(** What the generator takes from the JavaScript engine. *)
Record Engine : Type := {
  Math_sin : float -> float;
  Math_cos : float -> float;
  Math_pow : float -> float -> float;
  Number_shortest : float -> string
}.


(* ================================================================== *)
(** ** [core.ts]: options, derived parameters, layout *)

(** A value of an optional field: [undefined], or a value of the field's
    type. *)
Inductive optional (A : Type) : Type :=
| Undefined
| Value (a : A).

Arguments Undefined {A}.
Arguments Value {A} a.

(** [interface Options { size?: number; showGrid?: boolean }]: a field is
    left out ([None]) or present, and a present field holds a value of its
    type or [undefined], which an optional field admits as well. *)
Record Options : Type := {
  opt_size : option (optional float);
  opt_showGrid : option (optional bool)
}.

(** The object [{ ...DEFAULTS, ...options }]. Its declared type is
    [Required<Options>]; at run time a field holds what the spread put
    there, which can be [undefined]. *)
Record Settings : Type := {
  size : optional float;
  showGrid : optional bool
}.

Definition DEFAULTS : Settings := {| size := Value 120%float; showGrid := Value false |}.

(** [{ ...defaults, ...options }]: every field that [options] has replaces
    the default, also one whose value is [undefined]; a field left out
    keeps the default. *)
Definition spread (defaults : Settings) (options : Options) : Settings :=
  {| size := match opt_size options with Some v => v | None => size defaults end;
     showGrid := match opt_showGrid options with Some v => v | None => showGrid defaults end |}.

(** [ToNumber], which [size / 2], [size * 0.38] and the like apply to
    [size]: [undefined] becomes [NaN]. *)
Definition ToNumber (v : optional float) : float :=
  match v with
  | Value x => x
  | Undefined => nan
  end.

(** [ToBoolean], which [if (showGrid)] applies: [undefined] is falsy. *)
Definition ToBoolean (v : optional bool) : bool :=
  match v with
  | Value b => b
  | Undefined => false
  end.

(** The indices [0, 1, ..., n-1] of a counting loop. *)
Definition upto (n : nat) : list Z := map Z.of_nat (seq 0 n).

(** The values read off the hash ("Parameters" in the source). *)
Record Params : Type := {
  freq1 : Z;
  pseudo : Z;
  amplitude : float;
  innerAccent : Z;
  centerHollow : bool
}.

Definition derive (bytes : list Z) : Params :=
  let freq1 := hashSegment bytes 0 8 mod 5 + 3 in
  let pseudo := hashSegment bytes 8 8 mod 1024 in
  let amplitude :=
    (JSNum.of_Z (hashSegment bytes 16 8 mod 1000) / 1000 * 0.35 + 0.35)%float in
  let freq1 := if (amplitude <? 0.5)%float && (4 <? freq1) then 4 else freq1 in
  let innerAccent := hashSegment bytes 30 2 mod 10 in
  let centerHollow := Z.land (hashSegment bytes 29 1) 1 =? 1 in
  {| freq1 := freq1; pseudo := pseudo; amplitude := amplitude;
     innerAccent := innerAccent; centerHollow := centerHollow |}.

Definition nWaves_of (pseudo : Z) : Z := Z.shiftr pseudo 6 mod 3 + 3.

Definition freq2_of (pseudo : Z) : Z := Z.land (Z.shiftr pseudo 2) 15 mod 5 + 4.

Definition thickness : float := 0.7%float.

Definition detail : nat := 720.

Definition blocksPerSide : Z := 32.

(** The lengths computed from [size] (and, for the keep-out radius, from
    [innerAccent]). *)
Record Layout : Type := {
  cx : float;
  cy : float;
  maxR : float;
  curveOuterMargin : float;
  curveMaxPx : float;
  keepout : float;
  borderSize : float;
  borderOffset : float;
  borderThickness : float;
  blockWidth : float;
  blockLength : float;
  blockStart : float;
  centerR : float
}.

Definition keepout_base (size : float) (innerAccent : Z) : float :=
  if innerAccent =? 0 then (size * 0.12)%float
  else if innerAccent =? 1 then (size * 0.15)%float
  else if innerAccent =? 2 then (size * 0.06)%float
  else if innerAccent =? 3 then (size * 0.08)%float
  else if (5 <=? innerAccent) && (innerAccent <=? 9) then (size * 0.13)%float
  else 0%float.

Definition layout (size : float) (innerAccent : Z) : Layout :=
  let maxR := (size * 0.38)%float in
  let curveOuterMargin := JSNum.max (3 * thickness) (size * 0.05) in
  let curveMaxPx := (maxR - curveOuterMargin)%float in
  let keepout := keepout_base size innerAccent in
  let keepout :=
    if (0 <? keepout)%float then JSNum.min keepout (curveMaxPx * 0.4) else 0%float in
  let borderSize := (size * 0.84)%float in
  let borderOffset := ((size - borderSize) / 2)%float in
  {| cx := (size / 2)%float;
     cy := (size / 2)%float;
     maxR := maxR;
     curveOuterMargin := curveOuterMargin;
     curveMaxPx := curveMaxPx;
     keepout := keepout;
     borderSize := borderSize;
     borderOffset := borderOffset;
     borderThickness := (thickness * 0.9)%float;
     blockWidth := (size * 0.036)%float;
     blockLength := (size * 0.07)%float;
     blockStart := (borderOffset + borderSize)%float;
     centerR := (keepout * 0.75)%float |}.

(** The marker test of the block loop:
    [byteIdx < bytes.length && ((bytes[byteIdx] >> bitIdx) & 1)]. *)
Definition marker_bit (bytes : list Z) (i : Z) : bool :=
  let byteIdx := Z.shiftr i 3 in
  let bitIdx := Z.land i 7 in
  (byteIdx <? Z.of_nat (List.length bytes))
  && negb (Z.land (Z.shiftr (JSInt.ToInt32 (nth (Z.to_nat byteIdx) bytes 0)) bitIdx) 1 =? 0).

(** The rectangle [(x, y, width, height)] of marker slot [i].  [pi] is an
    integer in 0..127, so [Math.floor(pi / 32)] and [pi % 32] are the integer
    quotient and remainder. *)
Definition marker_rect (L : Layout) (i : Z) : float * float * float * float :=
  let pi := permIdx i in
  let side := pi / blocksPerSide in
  let posOnSide := (JSNum.of_Z (pi mod blocksPerSide) / JSNum.of_Z blocksPerSide)%float in
  let along := (borderOffset L + posOnSide * borderSize L - blockWidth L / 2)%float in
  if side =? 0 then
    (along, (borderOffset L - blockLength L)%float, blockWidth L, blockLength L)
  else if side =? 1 then
    (blockStart L, along, blockLength L, blockWidth L)
  else if side =? 2 then
    (along, blockStart L, blockWidth L, blockLength L)
  else
    ((borderOffset L - blockLength L)%float, along, blockLength L, blockWidth L).

(** ** Markup *)

Definition dq : string := String (ascii_of_nat 34) EmptyString.

(** One attribute of a tag, with the blank before it: [ name="value"]. *)
Definition attr (name value : string) : string :=
  (" " ++ name ++ "=" ++ dq ++ value ++ dq)%string.

(** The [extra] attributes of the closed centre paths. *)
Definition glyph_extra (hollow : bool) (width : string) : string :=
  (attr "fill" (if hollow then "none" else "black")
   ++ attr "stroke" "black" ++ attr "stroke-width" width)%string.

(** What the code throws: the [Error] of the hash check, and the
    [TypeError] of a method call on [undefined] (its message is the
    engine's). *)
Inductive exn : Type :=
| Error (message : string)
| TypeError.

(* ================================================================== *)
(** ** [core.ts]: the wave tuner, the radial profile and the composer *)

(** The tuned wave shape [{ f1, gamma, ampScale }]. *)
Record Tuned : Type := {
  f1 : float;
  gamma : float;
  ampScale : float
}.

Section Generator.

Variable E : Engine.

Local Open Scope float_scope.

(** [r2(n)]: [n.toFixed(2)] *)
Definition r2 (n : float) : string := JSNum.toFixed2 (Number_shortest E) n.

(** [${n}] in a template literal *)
Definition str (n : float) : string := JSNum.toString (Number_shortest E) n.

(** [${size}]: [undefined] prints as its name. *)
Definition str_size (size : optional float) : string :=
  match size with
  | Value n => str n
  | Undefined => "undefined"%string
  end.

(** [Math.sign(s) * Math.pow(Math.abs(s), gamma)] *)
Definition shaped (s g : float) : float :=
  JSNum.sign s * Math_pow E (abs s) g.

(** The body of the sampling loop of [tuneWaves] for sample [i]:
    [Math.abs(r1 - r2)]. *)
Definition gap_at (amplitude curveMaxPx : float) (st : Tuned) (i : Z) : float :=
  let t := JSNum.of_Z i / 64 * JSNum.PI * 2 in
  let s1 := Math_sin E (f1 st * t) in
  let s1c := shaped s1 (gamma st) in
  let r1 := amplitude * (1 + 0.5 * s1c) * ampScale st * curveMaxPx in
  let tOpp := t + JSNum.PI / JSNum.max (f1 st) 1e-6 in
  let s2 := Math_sin E (f1 st * tOpp) in
  let s2c := shaped s2 (gamma st) in
  let r2 := amplitude * (1 + 0.5 * s2c) * ampScale st * curveMaxPx in
  abs (r1 - r2).

(** [minGap] after the 64 samples, from [Infinity]. *)
Definition minGap_of (amplitude curveMaxPx : float) (st : Tuned) : float :=
  fold_left (fun minGap i => JSNum.min minGap (gap_at amplitude curveMaxPx st i))
    (upto 64) infinity.

(** The corrective step of iteration [iter], taken when the gap is short. *)
Definition correct (iter : Z) (minGapPx minGap : float) (st : Tuned) : Tuned :=
  if (iter =? 0)%Z then
    {| f1 := f1 st; gamma := gamma st;
       ampScale :=
         JSNum.min 1.25 (ampScale st * sqrt (minGapPx / JSNum.max minGap 1e-6)) |}
  else if (iter =? 1)%Z then
    {| f1 := f1 st; gamma := JSNum.min 1.7 (gamma st + 0.2); ampScale := ampScale st |}
  else if 3 <? f1 st then
    {| f1 := JSNum.max 3 (f1 st - 1); gamma := gamma st; ampScale := ampScale st |}
  else st.

(** The loop [for (iter = 0; iter < 3; iter++)] over the iterations still
    to run; [break] when the gap is wide enough. *)
Fixpoint tune_loop (iters : list Z) (minGapPx amplitude curveMaxPx : float)
    (st : Tuned) : Tuned :=
  match iters with
  | [] => st
  | iter :: rest =>
      let minGap := minGap_of amplitude curveMaxPx st in
      if minGapPx <=? minGap then st
      else tune_loop rest minGapPx amplitude curveMaxPx (correct iter minGapPx minGap st)
  end.

Definition tuneWaves (freq1 amplitude curveMaxPx thickness : float) : Tuned :=
  let minGapPx := JSNum.max (7.0 * thickness) 6.0 in
  tune_loop [0; 1; 2]%Z minGapPx amplitude curveMaxPx
    {| f1 := freq1; gamma := 1.35; ampScale := 1.0 |}.

Definition radialAt (t f1 amp curveMaxPx keepout thickness gamma ampScale : float)
    : float :=
  let s := Math_sin E (f1 * t) in
  let sc := shaped s gamma in
  let rNorm := amp * (1 + 0.5 * sc) * ampScale in
  let baseHalfSwingPx := 0.5 * amp * curveMaxPx * ampScale in
  let minHalfSwingPx := JSNum.max (3.0 * thickness) 2.0 in
  let rNorm :=
    if baseHalfSwingPx <? minHalfSwingPx then
      let scale := minHalfSwingPx / JSNum.max baseHalfSwingPx 1e-6 in
      let mean := amp * ampScale in
      mean + (rNorm - mean) * scale
    else rNorm in
  let rPx := rNorm * curveMaxPx in
  JSNum.max keepout (JSNum.min curveMaxPx rPx).

(** *** The parts pushed by each stage of [generateIdentipattern] *)

Local Open Scope string_scope.

Definition point (x y : float) : string := r2 x ++ "," ++ r2 y.

Definition head_parts (size : optional float) : list string :=
  [ "<svg" ++ attr "width" (str_size size) ++ attr "height" (str_size size)
      ++ attr "xmlns" "http://www.w3.org/2000/svg" ++ ">";
    "<rect" ++ attr "width" (str_size size) ++ attr "height" (str_size size)
      ++ attr "fill" "white" ++ "/>" ].

(** The two lines of turn [i] of the grid loop, for a size that is a
    Number. *)
Definition grid_lines (size : float) (i : Z) : list string :=
  let pos := (JSNum.of_Z (i + 1) * (size / 10))%float in
  [ "<line" ++ attr "x1" (r2 pos) ++ attr "y1" "0" ++ attr "x2" (r2 pos)
      ++ attr "y2" (r2 size) ++ attr "stroke" "blue" ++ attr "stroke-width" "0.5" ++ "/>";
    "<line" ++ attr "x1" "0" ++ attr "y1" (r2 pos) ++ attr "x2" (r2 size)
      ++ attr "y2" (r2 pos) ++ attr "stroke" "blue" ++ attr "stroke-width" "0.5" ++ "/>" ].

Definition grid_parts (size : float) (showGrid : bool) : list string :=
  if showGrid then
    ["<g" ++ attr "opacity" "0.2" ++ ">"]
      ++ flat_map (grid_lines size) (upto 10) ++ ["</g>"]
  else [].

Definition border_part (L : Layout) : string :=
  "<rect" ++ attr "x" (r2 (borderOffset L)) ++ attr "y" (r2 (borderOffset L))
    ++ attr "width" (r2 (borderSize L)) ++ attr "height" (r2 (borderSize L))
    ++ attr "fill" "none" ++ attr "stroke" "black"
    ++ attr "stroke-width" (r2 (borderThickness L)) ++ "/>".

Definition wave_point (P : Params) (L : Layout) (T : Tuned) (freq2 : Z)
    (waveAngle : float) (i : Z) : string :=
  let t := (JSNum.of_Z i / JSNum.of_Z (Z.of_nat detail) * JSNum.PI * 2)%float in
  let r := radialAt t (f1 T) (amplitude P) (curveMaxPx L) (keepout L) thickness
             (gamma T) (ampScale T) in
  let ang := (JSNum.of_Z freq2 * t + waveAngle)%float in
  let x := (cx L + r * Math_cos E ang)%float in
  let y := (cy L + r * Math_sin E ang)%float in
  point x y.

Definition wave_part (P : Params) (L : Layout) (T : Tuned) (nWaves freq2 : Z)
    (w : Z) : string :=
  let waveAngle := (JSNum.of_Z w * 2 * JSNum.PI / JSNum.of_Z nWaves)%float in
  let pts := map (wave_point P L T freq2 waveAngle) (upto (S detail)) in
  "<path" ++ attr "d" ("M" ++ JSString.join " L" pts) ++ attr "fill" "none"
    ++ attr "stroke" "black" ++ attr "stroke-width" (r2 thickness)
    ++ attr "stroke-linecap" "round" ++ attr "stroke-linejoin" "round" ++ "/>".

Definition wave_parts (P : Params) (L : Layout) (T : Tuned) : list string :=
  let nWaves := nWaves_of (pseudo P) in
  let freq2 := freq2_of (pseudo P) in
  map (wave_part P L T nWaves freq2) (upto (Z.to_nat nWaves)).

Definition marker_part (L : Layout) (i : Z) : string :=
  let '(x, y, width, height) := marker_rect L i in
  "<rect" ++ attr "x" (r2 x) ++ attr "y" (r2 y) ++ attr "width" (r2 width)
    ++ attr "height" (r2 height) ++ attr "fill" "black" ++ "/>".

Definition block_parts (bytes : list Z) (L : Layout) : list string :=
  flat_map (fun i => if marker_bit bytes i then [marker_part L i] else [])
    (upto 128).

(** The vertex of a centre shape at radius [rr] and angle [ang]. *)
Definition vertex (L : Layout) (rr ang : float) : string :=
  point (cx L + rr * Math_cos E ang)%float (cy L + rr * Math_sin E ang)%float.

Definition closed_path (pts : list string) (hollow : bool) : string :=
  "<path" ++ attr "d" ("M" ++ JSString.join " L" pts ++ "Z")
    ++ glyph_extra hollow (r2 thickness) ++ "/>".

Definition pushStar (L : Layout) (hollow : bool) : list string :=
  let nPoints := 5%Z in
  let pts :=
    map (fun i =>
           let ang := (JSNum.of_Z i * JSNum.PI / JSNum.of_Z nPoints - JSNum.PI / 2)%float in
           let rr := if (i mod 2 =? 0)%Z then centerR L else (centerR L * 0.4)%float in
           vertex L rr ang)
        (upto (Z.to_nat (nPoints * 2))) in
  [closed_path pts hollow].

Definition pushPolygon (L : Layout) (hollow : bool) (nSides : Z) : list string :=
  let pts :=
    map (fun i =>
           let ang := (JSNum.of_Z i * 2 * JSNum.PI / JSNum.of_Z nSides - JSNum.PI / 2)%float in
           vertex L (centerR L) ang)
        (upto (Z.to_nat nSides)) in
  [closed_path pts hollow].

Definition pushTriangle (L : Layout) (hollow : bool) : list string :=
  let pts :=
    map (fun i =>
           let ang := (JSNum.of_Z i * 2 * JSNum.PI / 3 - JSNum.PI / 2)%float in
           vertex L (centerR L) ang)
        (upto 3) in
  [closed_path pts hollow].

Definition pushDot (L : Layout) : list string :=
  [ "<circle" ++ attr "cx" (r2 (cx L)) ++ attr "cy" (r2 (cy L))
      ++ attr "r" (r2 (centerR L)) ++ attr "fill" "black" ++ "/>" ].

Definition pushConcentric (L : Layout) : list string :=
  map (fun i =>
         let r := (centerR L * (0.4 + JSNum.of_Z i * 0.3))%float in
         "<circle" ++ attr "cx" (r2 (cx L)) ++ attr "cy" (r2 (cy L))
           ++ attr "r" (r2 r) ++ attr "fill" "none" ++ attr "stroke" "black"
           ++ attr "stroke-width" (r2 (thickness * 0.8)%float) ++ "/>")
      (upto 3).

Definition center_parts (P : Params) (L : Layout) : list string :=
  if (0 <? centerR L)%float then
    if (innerAccent P =? 0)%Z then pushStar L (centerHollow P)
    else if (innerAccent P =? 1)%Z then pushTriangle L (centerHollow P)
    else if (innerAccent P =? 2)%Z then pushDot L
    else if (innerAccent P =? 3)%Z then pushConcentric L
    else if ((5 <=? innerAccent P) && (innerAccent P <=? 9))%Z
      then pushPolygon L (centerHollow P) (innerAccent P - 1)
    else []
  else [].

(** [r2(size)] in the first turn of the grid loop is the one place where
    [size] is the receiver of a method call: [undefined] has no [toFixed],
    so a size that is [undefined] makes it throw a [TypeError], which
    nothing catches. The loop runs when [showGrid] is truthy. *)
Definition grid_throws (S : Settings) : bool :=
  match size S with
  | Undefined => ToBoolean (showGrid S)
  | Value _ => false
  end.

(** [parts] when the function returns: for a hash that passed the check
    and a grid loop that did not throw. *)
Definition parts_of (hashHex : string) (S : Settings) : list string :=
  let bytes := parseBytes hashHex in
  let P := derive bytes in
  let L := layout (ToNumber (size S)) (innerAccent P) in
  let T := tuneWaves (JSNum.of_Z (freq1 P)) (amplitude P) (curveMaxPx L) thickness in
  head_parts (size S)
    ++ grid_parts (ToNumber (size S)) (ToBoolean (showGrid S))
    ++ [border_part L]
    ++ wave_parts P L T
    ++ block_parts bytes L
    ++ center_parts P L
    ++ ["</svg>"].

(** [generateIdentipattern]: the SVG text, or the exception thrown. *)
Definition generateIdentipattern (hashHex : string) (options : Options)
    : exn + string :=
  let S := spread DEFAULTS options in
  if negb (Regex.test_hex64 hashHex) then inl (Error "hash must be 64 hex characters")
  else if grid_throws S then inl TypeError
  else inr (JSString.join "" (parts_of hashHex S)).

End Generator.

(* ================================================================== *)
(** ** [facades/svg.ts] *)

(** [interface SvgOptions]: the [showGrid] field of [Options]. What the
    code reads of it is [opts?.showGrid]: a boolean, or [undefined] (here
    [None]) when the field is left out or holds [undefined]. *)
Record SvgOptions : Type := {
  svg_showGrid : option bool
}.

(** [!!opts?.showGrid] of a call that may leave [opts] out. *)
Definition svg_grid (opts : option SvgOptions) : bool :=
  match opts with
  | Some o => match svg_showGrid o with Some g => g | None => false end
  | None => false
  end.

(* ================================================================== *)
(** ** [facades/dom.ts] *)

(** [interface DomOptions { showGrid?: boolean }], read as [opts?.showGrid]
    like [SvgOptions]. *)
Record DomOptions : Type := {
  dom_showGrid : option bool
}.

(** [!!opts?.showGrid] *)
Definition dom_grid (opts : option DomOptions) : bool :=
  match opts with
  | Some o => match dom_showGrid o with Some g => g | None => false end
  | None => false
  end.

(** What [update] uses of an element: [getAttribute], which answers [null]
    (here [None]) for an attribute that is not set. *)
Record Element : Type := {
  getAttribute : string -> option string
}.

(** [target: string | Element] *)
Inductive Target : Type :=
| Selector (css : string)
| Node (el : Element).

(** The answers of [document.querySelector]: the first match, [null], or
    the exception of a selector that does not parse. *)
Inductive Lookup : Type :=
| Match (el : Element)
| NoMatch
| BadSelector (e : exn).

Record Document : Type := {
  querySelector : string -> Lookup
}.

(** What a call of [update] does: it returns without touching anything, it
    throws, or it assigns [svg] to [el.outerHTML] and returns. *)
Inductive Outcome : Type :=
| Returned
| Thrown (e : exn)
| Assigned (el : Element) (svg : string).

(** A string or [null] is truthy when it is a string that is not empty. *)
Definition truthy (s : option string) : bool :=
  match s with
  | Some (String _ _) => true
  | _ => false
  end.

(** A Number is falsy when it is [NaN], [+0] or [-0]. *)
Definition falsy (x : float) : bool := is_nan x || (x =? 0)%float.

Section Facades.

Variable E : Engine.

(** [Number(s)] of a string: ECMAScript's StringToNumber. *)
Variable Number_of_string : string -> float.

Definition toSvg (hash : string) (size : float) (opts : option SvgOptions)
    : exn + string :=
  generateIdentipattern E hash
    {| opt_size := Some (Value size); opt_showGrid := Some (Value (svg_grid opts)) |}.

(** The hash [update] works on: the argument if it is given, else the
    attribute [data-identipattern-hash] of the element, else the empty
    string (the two [??] of the source). *)
Definition hash_of (el : Element) (hash : option string) : string :=
  match hash with
  | Some h => h
  | None =>
      match getAttribute el "data-identipattern-hash" with
      | Some a => a
      | None => EmptyString
      end
  end.

(** [szAttr]: the [width] attribute if it is truthy, else the [height]
    attribute (the [||] of the source). *)
Definition size_attribute (el : Element) : option string :=
  if truthy (getAttribute el "width") then getAttribute el "width"
  else getAttribute el "height".

(** [Number(szAttr || 120)] *)
Definition size_number (szAttr : option string) : float :=
  if truthy szAttr
  then match szAttr with Some s => Number_of_string s | None => 120%float end
  else 120%float.

(** [sz || 120] *)
Definition size_or_default (sz : float) : float :=
  if falsy sz then 120%float else sz.

Definition update (document : Document) (target : Target) (hash : option string)
    (opts : option DomOptions) : Outcome :=
  let found :=
    match target with
    | Selector css => querySelector document css
    | Node el => Match el
    end in
  match found with
  | BadSelector e => Thrown e
  | NoMatch => Returned
  | Match el =>
      let h := hash_of el hash in
      if negb (Regex.test_hex64 h) then Thrown (Error "hash must be 64 hex characters")
      else
        let sz := size_number (size_attribute el) in
        match toSvg h (size_or_default sz)
                (Some {| svg_showGrid := Some (dom_grid opts) |}) with
        | inl e => Thrown e
        | inr svg => Assigned el svg
        end
  end.

End Facades.

(* ================================================================== *)
(** * Properties *)

(** ** Reference notions used in the statements *)

(** The 32-byte sequences a valid hash decodes to. *)
Definition is_byte (b : Z) : Prop := 0 <= b < 256.

(** The DJB2-style reference of the specification: from 5381, for each
    index [i] with [start <= i < start + length] that lies within the array,
    [acc = acc * 33 + byte] in 32-bit two's-complement arithmetic; the final
    accumulator read as an unsigned 32-bit integer. *)
Definition in_window (len start length i : Z) : bool :=
  (start <=? i) && (i <? start + length) && (0 <=? i) && (i <? len).

Definition djb2_step (bytes : list Z) (acc i : Z) : Z :=
  JSInt.ToInt32 (acc * 33 + nth (Z.to_nat i) bytes 0).

Definition djb2_reference (bytes : list Z) (start length : Z) : Z :=
  let len := Z.of_nat (List.length bytes) in
  let window := filter (in_window len start length) (upto (List.length bytes)) in
  JSInt.ToUint32 (fold_left (djb2_step bytes) window 5381).

(** The number of one bits of a non-negative integer. *)
Fixpoint pos_popcount (p : positive) : nat :=
  match p with
  | xH => 1
  | xO q => pos_popcount q
  | xI q => S (pos_popcount q)
  end.

Definition popcount (z : Z) : nat :=
  match z with
  | Zpos p => pos_popcount p
  | _ => 0
  end.

(** The population count of bits 0..127: of the first 16 bytes. *)
Definition popcount128 (bytes : list Z) : nat :=
  list_sum (map popcount (firstn 16 bytes)).

(** A marker rectangle of the output: a [rect] tag that starts with its
    [x] attribute and ends with a black fill. *)
Definition is_marker (part : string) : bool :=
  JSString.starts_with "<rect x=" part
  && JSString.ends_with (attr "fill" "black" ++ "/>") part.

(** The tail of a closed centre path: the closing [Z] of the path data,
    then the fill, the black stroke and the stroke width 0.70. *)
Definition closed_tail (hollow : bool) : string :=
  ("Z" ++ dq ++ glyph_extra hollow "0.70" ++ "/>")%string.

(** A centre glyph primitive of the output: a circle, or a closed path. *)
Definition is_glyph (part : string) : bool :=
  JSString.starts_with "<circle" part
  || (JSString.starts_with "<path" part
      && (JSString.ends_with (closed_tail true) part
          || JSString.ends_with (closed_tail false) part)).

(** A filled circle: a [circle] tag that ends with a black fill. *)
Definition is_filled_circle (part : string) : bool :=
  JSString.starts_with "<circle" part
  && JSString.ends_with (attr "fill" "black" ++ "/>") part.


(** ** Sample inputs *)

Definition all_0 : string :=
  "0000000000000000000000000000000000000000000000000000000000000000".

Definition all_f : string :=
  "ffffffffffffffffffffffffffffffffffffffffffffffffffffffffffffffff".

Definition mixed_hash : string :=
  "00112233445566778899aAbBcCdDeEfF0123456789abcdefFEDCBA9876543210".

(** The hash whose last byte is 3: its centre glyph is the dot. *)
Definition dot_hash : string :=
  "0000000000000000000000000000000000000000000000000000000000000003".

Definition zero_bytes : list Z := repeat 0 32.

Definition no_options : Options := {| opt_size := None; opt_showGrid := None |}.

Definition default_options : Options :=
  {| opt_size := Some (Value 120%float); opt_showGrid := Some (Value false) |}.

Definition sized (s : float) : Options :=
  {| opt_size := Some (Value s); opt_showGrid := None |}.

(** The options [{ size: undefined, showGrid: true }]. *)
Definition undefined_size_with_grid : Options :=
  {| opt_size := Some Undefined; opt_showGrid := Some (Value true) |}.

(** The hexadecimal characters, in either case. *)
Definition hex_digits : list ascii :=
  list_ascii_of_string "0123456789abcdefABCDEF".

Definition is_hex_digit (c : ascii) : Prop := In c hex_digits.

(** The characters a valid hash consists of once lower-cased. *)
Definition lower_hex_digits : list ascii :=
  list_ascii_of_string "0123456789abcdef".

Definition pair_is_byte (a b : ascii) : bool :=
  let v := JSInt.or_zero (JSInt.parseInt16 (String a (String b EmptyString))) in
  (0 <=? v) && (v <? 256).

(** ** Scaling with [size] *)

(** The signed integer of hundredths that [toFixed(2)] prints for a finite
    Number below 10^21. *)
Definition printed_hundredths (x : float) : option Z :=
  match Prim2SF x with
  | S754_zero _ => Some 0
  | S754_finite s m e =>
      if (1e21 <=? abs x)%float then None
      else Some ((if s then -1 else 1) * JSNum.hundredths (Zpos m) e)
  | _ => None
  end.






(** The coordinate of a marker along its side, for position [p] of 32. *)
Definition marker_along (L : Layout) (p : Z) : float :=
  (borderOffset L + JSNum.of_Z p / JSNum.of_Z blocksPerSide * borderSize L
   - blockWidth L / 2)%float.

(** The coordinate of a marker on the top or left side across the side. *)
Definition marker_outside (L : Layout) : float :=
  (borderOffset L - blockLength L)%float.


(** The integers [lo, lo + 1, ..., lo + n - 1]. *)
Definition from (lo : Z) (n : nat) : list Z := map (fun k => lo + k) (upto n).

(** A degenerate engine, enough to run the tuner on a sample input: its
    sine is 0 everywhere, so no gap ever opens and all three corrective
    steps are taken. *)
Definition still_engine : Engine :=
  {| Math_sin := fun _ => 0%float;
     Math_cos := fun _ => 1%float;
     Math_pow := fun x _ => x;
     Number_shortest := fun _ => EmptyString |}.

(** The parameters [P] with the hollow flag set to [hollow]. *)
Definition with_hollow (P : Params) (hollow : bool) : Params :=
  {| freq1 := freq1 P; pseudo := pseudo P; amplitude := amplitude P;
     innerAccent := innerAccent P; centerHollow := hollow |}.

(** The bits 0..7 of a byte that are set. *)
Definition bits8 (b : Z) : nat := List.length (filter (Z.testbit b) (upto 8)).

(** The slots of byte [q]: [8q], ..., [8q + 7]. *)
Definition slots_of (q : Z) : list Z := map (fun r => 8 * q + r) (upto 8).

(** [m * 2^e] is at least 1. *)
Definition at_least_one (m e : Z) : Prop := 0 < m /\ 2 ^ (- e) <= m.

(** The Number 1 in the specification's terms. *)
Definition one_sf : spec_float := S754_finite false 4503599627370496 (-52).
(** ** Reference notions for the decoding of the hash *)

(** The lower-case hexadecimal digit of a value in 0..15. *)
Definition hex_char (d : Z) : ascii :=
  if d <? 10 then JSString.of_code (48 + d) else JSString.of_code (87 + d).

(** A byte as two lower-case hexadecimal digits, the high one first. *)
Definition to_hex_byte (b : Z) : string :=
  String (hex_char (b / 16)) (String (hex_char (b mod 16)) EmptyString).

Fixpoint to_hex (bytes : list Z) : string :=
  match bytes with
  | [] => EmptyString
  | b :: r => String.append (to_hex_byte b) (to_hex r)
  end.

(** The 256 code units of the string model. *)
Definition all_chars : list ascii := map JSString.of_code (upto 256).

(** What [parseBytes] makes of the two characters [a], [b]. *)
Definition pair_value (a b : ascii) : Z :=
  JSInt.or_zero (JSInt.parseInt16
    (String (JSString.lower_char a) (String (JSString.lower_char b) EmptyString))).

Definition pair_in_range (a b : ascii) : bool :=
  (-15 <=? pair_value a b) && (pair_value a b <=? 255).

Definition byte_round_trip (b : Z) : bool :=
  match to_hex_byte b with
  | String x (String y EmptyString) =>
      (pair_value x y =? b)
      && (pair_value (JSString.upper_char x) (JSString.upper_char y) =? b)
      && Ascii.eqb (JSString.lower_char x) x && Ascii.eqb (JSString.lower_char y) y
      && Regex.hex_class_i x && Regex.hex_class_i y
      && Regex.hex_class_i (JSString.upper_char x) && Regex.hex_class_i (JSString.upper_char y)
  | _ => false
  end.

Definition pair_round_trip (a b : ascii) : bool :=
  String.eqb (to_hex_byte (pair_value a b))
    (String (JSString.lower_char a) (String (JSString.lower_char b) EmptyString)).
(** ** Reference notions for the border positions *)

(** The rectangle at border position [p] in 0..127: what [marker_rect]
    computes from [pi = permIdx(i)]. *)
Definition rect_at (L : Layout) (p : Z) : float * float * float * float :=
  let side := p / blocksPerSide in
  let posOnSide := (JSNum.of_Z (p mod blocksPerSide) / JSNum.of_Z blocksPerSide)%float in
  let along := (borderOffset L + posOnSide * borderSize L - blockWidth L / 2)%float in
  if side =? 0 then
    (along, (borderOffset L - blockLength L)%float, blockWidth L, blockLength L)
  else if side =? 1 then
    (blockStart L, along, blockLength L, blockWidth L)
  else if side =? 2 then
    (along, blockStart L, blockWidth L, blockLength L)
  else
    ((borderOffset L - blockLength L)%float, along, blockLength L, blockWidth L).

(** The tag of the marker at border position [p]. *)
Definition part_at (E : Engine) (L : Layout) (p : Z) : string :=
  let '(x, y, width, height) := rect_at L p in
  ("<rect" ++ attr "x" (r2 E x) ++ attr "y" (r2 E y) ++ attr "width" (r2 E width)
    ++ attr "height" (r2 E height) ++ attr "fill" "black" ++ "/>")%string.

(** The border positions that carry a marker, in the order of the slots. *)
Definition occupied (bytes : list Z) : list Z :=
  map permIdx (filter (marker_bit bytes) (upto 128)).

(** The slot whose marker sits at border position [p]. *)
Definition slot_of (p : Z) : Z := (p * 121) mod 128.

(** The amplitude computed from [k = hashSegment(bytes, 16, 8) % 1000]. *)
Definition amplitude_of (k : Z) : float :=
  (JSNum.of_Z k / 1000 * 0.35 + 0.35)%float.

Definition amplitude_in_range (k : Z) : bool :=
  ((0.35 <=? amplitude_of k) && (amplitude_of k <? 0.7))%float.
(** ** Reference notions for the geometry *)

(** The lengths of [layout] at the integer size [n] are nested: the glyph
    radius within the keep-out radius, that within the bound of the waves
    (and within 0.4 of it), that within [maxR], and [maxR] within half the
    side of the border. *)
Definition layout_nested (n : Z) : bool :=
  forallb
    (fun ia =>
       let L := layout (JSNum.of_Z n) ia in
       ((0 <=? keepout L) && (keepout L <=? curveMaxPx L * 0.4)
        && (keepout L <=? curveMaxPx L) && (0 <? curveMaxPx L)
        && (curveMaxPx L <? maxR L) && (maxR L <? borderSize L / 2)
        && ((ia =? 4)%Z || ((0 <? centerR L) && (centerR L <? keepout L))))%float)
    (upto 10).
(** The rectangle [r], as [toFixed(2)] prints its four numbers, lies
    within the canvas of side [n]: in hundredths, [0 <= x], [0 <= y],
    [x + width <= 100 n] and [y + height <= 100 n], with a positive width
    and height. *)
Definition printed_within (n : Z) (r : float * float * float * float) : bool :=
  let '(x, y, w, h) := r in
  match printed_hundredths x, printed_hundredths y,
        printed_hundredths w, printed_hundredths h with
  | Some x, Some y, Some w, Some h =>
      (0 <=? x) && (0 <=? y) && (0 <? w) && (0 <? h)
      && (x + w <=? 100 * n) && (y + h <=? 100 * n)
  | _, _, _, _ => false
  end.

(** The rectangle [r] of a marker on side [side] (0 top, 1 right, 2 bottom,
    3 left), as printed, touches the border square from outside: it ends
    where the border begins, or begins where the border ends. *)
Definition printed_flush (L : Layout) (side : Z)
    (r : float * float * float * float) : bool :=
  let '(x, y, w, h) := r in
  match printed_hundredths x, printed_hundredths y,
        printed_hundredths w, printed_hundredths h,
        printed_hundredths (borderOffset L), printed_hundredths (borderSize L) with
  | Some x, Some y, Some w, Some h, Some bo, Some bs =>
      if side =? 0 then y + h =? bo
      else if side =? 1 then x =? bo + bs
      else if side =? 2 then y =? bo + bs
      else x + w =? bo
  | _, _, _, _, _, _ => false
  end.

(** The same for the numbers the marker rectangles at size [n] are made
    of: the coordinate along the side with the marker width, the two
    coordinates across the side with the marker length. *)
Definition pieces_within (n : Z) : bool :=
  let L := layout (JSNum.of_Z n) 0 in
  match printed_hundredths (marker_outside L), printed_hundredths (blockStart L),
        printed_hundredths (blockWidth L), printed_hundredths (blockLength L),
        printed_hundredths (borderOffset L), printed_hundredths (borderSize L) with
  | Some o, Some s, Some w, Some l, Some bo, Some bs =>
      (0 <? w) && (0 <? l)
      && (0 <=? o) && (o + l <=? 100 * n)
      && (0 <=? s) && (s + l <=? 100 * n)
      && (o + l =? bo) && (s =? bo + bs)
      && forallb
           (fun p =>
              match printed_hundredths (marker_along L p) with
              | Some a => (0 <=? a) && (a + w <=? 100 * n)
              | None => false
              end)
           (upto 32)
  | _, _, _, _, _, _ => false
  end.
(** ** Reference notions for the parts of the output *)

(** A wave line of the output: a [path] tag that ends with the round line
    cap and line join. *)
Definition is_wave_path (part : string) : bool :=
  JSString.starts_with "<path" part
  && JSString.ends_with
       (attr "stroke-linecap" "round" ++ attr "stroke-linejoin" "round" ++ "/>")%string
       part.

(** A line of the diagnostic grid. *)
Definition is_grid_line (part : string) : bool := JSString.starts_with "<line" part.

(** The options with both fields given. *)
Definition with_options (s : float) (g : bool) : Options :=
  {| opt_size := Some (Value s); opt_showGrid := Some (Value g) |}.

(** The first two tags of the output at size text [w]: the [svg] tag and
    the white background. *)
Definition svg_open (w : string) : string :=
  ("<svg" ++ attr "width" w ++ attr "height" w
     ++ attr "xmlns" "http://www.w3.org/2000/svg" ++ ">"
     ++ "<rect" ++ attr "width" w ++ attr "height" w ++ attr "fill" "white" ++ "/>")%string.

(** The opening tag of the group of the diagnostic grid. *)
Definition grid_open : string := ("<g" ++ attr "opacity" "0.2" ++ ">")%string.

(** The group of the diagnostic grid as one text. *)
Definition grid_text (E : Engine) (s : float) : string :=
  JSString.join "" (grid_parts E s true).

(** ** Reference notions for the centre shapes *)




(** ** Sample elements and documents *)

(** An element with no attribute. *)
Definition bare_element : Element := {| getAttribute := fun _ => None |}.

(** An element that carries the hash of 64 zeros, an empty width and the
    height 64. *)
Definition tagged_element : Element :=
  {| getAttribute := fun name =>
       if String.eqb name "data-identipattern-hash" then Some all_0
       else if String.eqb name "width" then Some EmptyString
       else if String.eqb name "height" then Some "64"%string
       else None |}.

(** A document without elements. *)
Definition empty_document : Document := {| querySelector := fun _ => NoMatch |}.

(** A reading of decimal numerals, enough for the samples. *)
Definition sample_number (s : string) : float :=
  if String.eqb s "64" then 64%float else nan.
(** ** Sample hashes that differ in the bytes 24..28 *)

Definition hash_a : string :=
  "0123456789abcdef0123456789abcdef0123456789abcdef0000000000abcdef".

Definition hash_b : string :=
  "0123456789abcdef0123456789abcdef0123456789abcdefFFFFFFFFFFabcdef".

(** The positions of a hash outside the characters 48..57, which spell the
    bytes 24..28. *)
Definition read_position (k : nat) : bool :=
  (Nat.ltb k 48) || (Nat.leb 58 k).

(** Two arrays have the same entries at the indices [lo], ..., [hi - 1]. *)
Definition agree_on (bytes1 bytes2 : list Z) (lo hi : nat) : Prop :=
  forall k, (lo <= k < hi)%nat -> nth k bytes1 0 = nth k bytes2 0.

(** The array of 32 zeros with the entries from index 24 on set to 255. *)
Definition zeros_then_ones : list Z := repeat 0 24 ++ repeat 255 8.
(** ** Reference notions for the printing of Numbers *)

(** ** Reference notions for the frame *)

(** The border of the canvas of integer side [n], in hundredths: a margin
    of 8 percent and a side of 84 percent. *)
Definition border_text (n : Z) : string :=
  ("<rect" ++ attr "x" (JSNum.fixed2 (8 * n)) ++ attr "y" (JSNum.fixed2 (8 * n))
     ++ attr "width" (JSNum.fixed2 (84 * n)) ++ attr "height" (JSNum.fixed2 (84 * n))
     ++ attr "fill" "none" ++ attr "stroke" "black" ++ attr "stroke-width" "0.63"
     ++ "/>")%string.

(** The two grid lines at [k] tenths of the side [n]: the vertical one,
    then the horizontal one. *)
Definition grid_lines_text (n k : Z) : list string :=
  let pos := JSNum.fixed2 (10 * k * n) in
  let far := JSNum.fixed2 (100 * n) in
  [ ("<line" ++ attr "x1" pos ++ attr "y1" "0" ++ attr "x2" pos ++ attr "y2" far
       ++ attr "stroke" "blue" ++ attr "stroke-width" "0.5" ++ "/>")%string;
    ("<line" ++ attr "x1" "0" ++ attr "y1" pos ++ attr "x2" far ++ attr "y2" pos
       ++ attr "stroke" "blue" ++ attr "stroke-width" "0.5" ++ "/>")%string ].

(** The frame at the integer size [n], in hundredths as printed: the
    border offset and side, the far end of the grid lines and the ten
    positions of the grid. *)
Definition frame_in_hundredths (n : Z) : bool :=
  let L := layout (JSNum.of_Z n) 0 in
  let prints h x :=
    match printed_hundredths x with Some v => v =? h | None => false end in
  prints (8 * n) (borderOffset L) && prints (84 * n) (borderSize L)
  && prints (100 * n) (JSNum.of_Z n)
  && forallb
       (fun i => prints (10 * (i + 1) * n) (JSNum.of_Z (i + 1) * (JSNum.of_Z n / 10))%float)
       (upto 10).
(** ** Reference notions for the places of the markers *)

(** A rectangle as the output prints it: its four numbers in hundredths. *)
Definition printed_rect (r : float * float * float * float)
    : option Z * option Z * option Z * option Z :=
  let '(x, y, w, h) := r in
  (printed_hundredths x, printed_hundredths y, printed_hundredths w, printed_hundredths h).

(** The coordinates along a side of the 32 positions of the side, as
    printed, at the integer size [n]. *)
Definition printed_alongs (n : Z) : list (option Z) :=
  map (fun q => printed_hundredths (marker_along (layout (JSNum.of_Z n) 0) q)) (upto 32).

(** [o < a < s] for printed numbers. *)
Definition strictly_between (o a s : option Z) : bool :=
  match o, a, s with
  | Some o, Some a, Some s => (o <? a) && (a <? s)
  | _, _, _ => false
  end.

(** The printed numbers of a list are in strictly increasing order. *)
Fixpoint increasing (l : list (option Z)) : bool :=
  match l with
  | [] => true
  | Some a :: r =>
      match r with
      | [] => true
      | Some b :: _ => (a <? b) && increasing r
      | None :: _ => false
      end
  | None :: _ => false
  end.

(** At size [n] the 32 printed coordinates along a side increase strictly
    with the position and lie strictly between the two coordinates across
    the side. *)
Definition places_apart (n : Z) : bool :=
  let L := layout (JSNum.of_Z n) 0 in
  let o := printed_hundredths (marker_outside L) in
  let s := printed_hundredths (blockStart L) in
  let al := printed_alongs n in
  forallb (fun a => strictly_between o a s) al && increasing al.
(** ** Integers *)

Lemma ToInt32_congr z : (JSInt.ToInt32 z) mod JSInt.two32 = z mod JSInt.two32.
Proof.
  unfold JSInt.ToInt32, JSInt.two32.
  destruct (2 ^ 31 <=? z mod 2 ^ 32).
  - rewrite Zminus_mod, Z_mod_same_full, Z.sub_0_r, !Z.mod_mod by lia. reflexivity.
  - rewrite Z.mod_mod by lia. reflexivity.
Qed.

Lemma ToInt32_range z : - 2 ^ 31 <= JSInt.ToInt32 z < 2 ^ 31.
Proof.
  unfold JSInt.ToInt32, JSInt.two32.
  pose proof (Z.mod_pos_bound z (2 ^ 32) ltac:(lia)).
  destruct (2 ^ 31 <=? z mod 2 ^ 32) eqn:H1; lia.
Qed.

Lemma ToInt32_small z : - 2 ^ 31 <= z < 2 ^ 31 -> JSInt.ToInt32 z = z.
Proof.
  intros Hz. unfold JSInt.ToInt32, JSInt.two32.
  destruct (Z_lt_le_dec z 0).
  - replace (z mod 2 ^ 32) with (z + 2 ^ 32).
    + destruct (2 ^ 31 <=? z + 2 ^ 32) eqn:H1; lia.
    + apply Z.mod_unique with (q := -1); lia.
  - rewrite Z.mod_small by lia.
    destruct (2 ^ 31 <=? z) eqn:H1; lia.
Qed.

Lemma mod128_of_mod32 z : (z mod JSInt.two32) mod 128 = z mod 128.
Proof.
  unfold JSInt.two32. rewrite (Z.mod_eq z (2 ^ 32)) by lia.
  replace (z - 2 ^ 32 * (z / 2 ^ 32)) with (z + (- 2 ^ 25 * (z / 2 ^ 32)) * 128) by lia.
  apply Z.mod_add. lia.
Qed.

Lemma permIdx_mod i : permIdx i = (i * 73) mod 128.
Proof.
  unfold permIdx.
  change 127 with (Z.ones 7). rewrite Z.land_ones by lia.
  change (2 ^ 7) with 128.
  rewrite <- (mod128_of_mod32 (JSInt.ToInt32 _)), ToInt32_congr.
  apply mod128_of_mod32.
Qed.

Lemma In_upto n i : In i (upto n) <-> 0 <= i < Z.of_nat n.
Proof.
  unfold upto. rewrite in_map_iff. split.
  - intros [k [<- Hk]]. apply in_seq in Hk. lia.
  - intros Hi. exists (Z.to_nat i). split; [lia|]. apply in_seq. lia.
Qed.

(** A property of the integers below [n], checked by running over them. *)
Lemma upto_forallb n (f : Z -> bool) :
  forallb f (upto n) = true -> forall i, 0 <= i < Z.of_nat n -> f i = true.
Proof.
  intros H i Hi. rewrite forallb_forall in H. apply H, In_upto, Hi.
Qed.

(** [permIdx] is undone by multiplying with 121, the inverse of 73
    modulo 128. *)
Lemma permIdx_inverse i : 0 <= i < 128 -> (permIdx i * 121) mod 128 = i.
Proof.
  intros Hi. rewrite permIdx_mod.
  rewrite Z.mul_mod_idemp_l by lia.
  replace (i * 73 * 121) with (i + 69 * i * 128) by lia.
  rewrite Z.mod_add by lia. apply Z.mod_small. lia.
Qed.

Lemma permIdx_inverse' j : 0 <= j < 128 -> permIdx ((j * 121) mod 128) = j.
Proof.
  intros Hj. rewrite permIdx_mod.
  rewrite Z.mul_mod_idemp_l by lia.
  replace (j * 121 * 73) with (j + 69 * j * 128) by lia.
  rewrite Z.mod_add by lia. apply Z.mod_small. lia.
Qed.

(** C9. The slot-to-position map [permIdx] is [(i * 73) mod 128], and it is
    a bijection of 0..127: its 128 values on 0..127 are pairwise distinct
    and are exactly the numbers 0..127. *)
Theorem permIdx_bijection :
  (forall i, permIdx i = (i * 73) mod 128)
  /\ NoDup (map permIdx (upto 128))
  /\ List.length (map permIdx (upto 128)) = 128%nat
  /\ (forall j, In j (map permIdx (upto 128)) <-> 0 <= j < 128).
Proof.
  split; [exact permIdx_mod|]. split; [|split].
  - apply Finite.Injective_map_NoDup_in.
    + intros x y Hx Hy Hxy. apply In_upto in Hx, Hy.
      rewrite <- (permIdx_inverse x), <- (permIdx_inverse y) by lia.
      now rewrite Hxy.
    + unfold upto. apply Finite.Injective_map_NoDup.
      * intros a b Hab. lia.
      * apply seq_NoDup.
  - reflexivity.
  - intros j. rewrite in_map_iff. split.
    + intros [i [<- Hi]]. rewrite permIdx_mod. apply Z.mod_pos_bound. lia.
    + intros Hj. exists ((j * 121) mod 128). split.
      * now apply permIdx_inverse'.
      * apply In_upto. apply Z.mod_pos_bound. lia.
Qed.

(** ** [hashSegment] *)

Lemma mod32_eq_step h a b :
  h mod JSInt.two32 = a mod JSInt.two32 ->
  (JSInt.shl (Some h) 5 + h + b) mod JSInt.two32
  = (JSInt.ToInt32 (a * 33 + b)) mod JSInt.two32.
Proof.
  intros Hha. unfold JSInt.shl.
  rewrite ToInt32_congr.
  rewrite <- Z.add_assoc, Z.add_mod, ToInt32_congr by (unfold JSInt.two32; lia).
  rewrite Z.shiftl_mul_pow2 by lia.
  rewrite Z.mul_mod, ToInt32_congr by (unfold JSInt.two32; lia).
  rewrite <- Z.mul_mod, <- Z.add_mod by (unfold JSInt.two32; lia).
  replace (h * 2 ^ 5 + (h + b)) with (h * 33 + b) by lia.
  rewrite Z.add_mod, Z.mul_mod, Hha by (unfold JSInt.two32; lia).
  rewrite <- Z.mul_mod, <- Z.add_mod by (unfold JSInt.two32; lia).
  reflexivity.
Qed.

Lemma get_in_bounds bytes k :
  (k < List.length bytes)%nat ->
  JSInt.get bytes (Z.of_nat k) = Some (nth k bytes 0).
Proof.
  intros Hk. unfold JSInt.get.
  destruct (Z.of_nat k <? 0) eqn:Hneg; [lia|].
  rewrite Nat2Z.id. apply nth_error_nth'. exact Hk.
Qed.

Lemma get_in_bounds_Z bytes i :
  0 <= i < Z.of_nat (List.length bytes) ->
  JSInt.get bytes i = Some (nth (Z.to_nat i) bytes 0).
Proof.
  intros Hi. rewrite <- (Z2Nat.id i) at 1 by lia. apply get_in_bounds. lia.
Qed.

Lemma filter_window_above len start length l :
  (forall i, In i l -> start + length <= i) ->
  filter (in_window len start length) l = [].
Proof.
  induction l as [|x l IH]; intros H; [reflexivity|]. simpl.
  unfold in_window at 1.
  assert (start + length <= x) by (apply H; now left).
  replace (x <? start + length) with false by (symmetry; apply Z.ltb_ge; lia).
  rewrite andb_false_r. simpl. apply IH. intros i Hi. apply H. now right.
Qed.

Lemma filter_window_below len start length l :
  (forall i, In i l -> i < start) ->
  filter (in_window len start length) l = [].
Proof.
  induction l as [|x l IH]; intros H; [reflexivity|]. simpl.
  unfold in_window at 1.
  assert (x < start) by (apply H; now left).
  replace (start <=? x) with false by (symmetry; apply Z.leb_gt; lia).
  simpl. apply IH. intros i Hi. apply H. now right.
Qed.

(** The loop of the source and the fold of the reference walk the same
    indices and keep accumulators that agree modulo 2^32. *)
Lemma hashSegment_loop_djb2 bytes start length :
  forall n k fuel h a,
    (k + n = List.length bytes)%nat ->
    (n <= fuel)%nat ->
    start <= Z.of_nat k ->
    h mod JSInt.two32 = a mod JSInt.two32 ->
    exists h',
      hashSegment_loop fuel bytes (start + length) (Z.of_nat k) (Some h) = Some h'
      /\ h' mod JSInt.two32
         = (fold_left (djb2_step bytes)
              (filter (in_window (Z.of_nat (List.length bytes)) start length)
                 (map Z.of_nat (seq k n))) a) mod JSInt.two32.
Proof.
  induction n as [|n IH]; intros k fuel h a Hlen Hfuel Hstart Hha.
  - simpl. exists h. split; [|exact Hha].
    destruct fuel as [|fuel]; [reflexivity|]. simpl.
    replace (Z.of_nat k <? Z.of_nat (List.length bytes)) with false
      by (symmetry; apply Z.ltb_ge; lia).
    now rewrite andb_false_r.
  - destruct fuel as [|fuel]; [lia|].
    cbn [seq map filter hashSegment_loop].
    unfold in_window at 1.
    replace (start <=? Z.of_nat k) with true by (symmetry; apply Z.leb_le; lia).
    replace (0 <=? Z.of_nat k) with true by (symmetry; apply Z.leb_le; lia).
    replace (Z.of_nat k <? Z.of_nat (List.length bytes)) with true
      by (symmetry; apply Z.ltb_lt; lia).
    rewrite !andb_true_r, andb_true_l.
    destruct (Z.of_nat k <? start + length) eqn:Hstop.
    + cbn [fold_left].
      unfold hashSegment_step. rewrite get_in_bounds by lia. cbn [JSInt.add].
      replace (Z.of_nat k + 1) with (Z.of_nat (S k)) by lia.
      apply IH; try lia.
      unfold djb2_step. rewrite Nat2Z.id. now apply mod32_eq_step.
    + exists h. split; [reflexivity|].
      rewrite filter_window_above; [exact Hha|].
      intros i Hi. apply in_map_iff in Hi. destruct Hi as [j [<- Hj]].
      apply in_seq in Hj. apply Z.ltb_ge in Hstop. lia.
Qed.

(** [bytes.length - start] turns are enough: with any more fuel the loop
    returns the same accumulator. *)
Lemma hashSegment_loop_fuel bytes stop :
  forall extra fuel i h,
    Z.of_nat (List.length bytes) - i <= Z.of_nat fuel ->
    hashSegment_loop (fuel + extra) bytes stop i h = hashSegment_loop fuel bytes stop i h.
Proof.
  intros extra fuel. induction fuel as [|fuel IH]; intros i h Hf.
  - simpl. destruct extra; [reflexivity|]. simpl.
    replace (i <? Z.of_nat (List.length bytes)) with false
      by (symmetry; apply Z.ltb_ge; lia).
    now rewrite andb_false_r.
  - simpl. destruct ((i <? stop) && (i <? Z.of_nat (List.length bytes))); [|reflexivity].
    apply IH. lia.
Qed.

Lemma hashSegment_djb2 bytes start length :
  0 <= start ->
  hashSegment bytes start length = djb2_reference bytes start length.
Proof.
  intros Hs. unfold hashSegment, djb2_reference, hashSegment_fuel, upto.
  destruct (Z_le_gt_dec start (Z.of_nat (List.length bytes))) as [Hle|Hgt].
  - destruct (hashSegment_loop_djb2 bytes start length
                ((List.length bytes) - Z.to_nat start) (Z.to_nat start)
                (Z.to_nat (Z.of_nat (List.length bytes) - start)) 5381 5381)
      as [h' [Hrun Hmod]]; try lia; try reflexivity.
    rewrite Z2Nat.id in Hrun by lia. rewrite Hrun.
    assert (Hseq : seq 0 (List.length bytes)
                   = seq 0 (Z.to_nat start) ++ seq (Z.to_nat start) ((List.length bytes) - Z.to_nat start)).
    { replace (List.length bytes) with (Z.to_nat start + ((List.length bytes) - Z.to_nat start))%nat at 1 by lia.
      apply seq_app. }
    rewrite Hseq, map_app, filter_app.
    rewrite (filter_window_below _ _ _ (map Z.of_nat (seq 0 (Z.to_nat start)))).
    + cbn [app JSInt.ushr0]. unfold JSInt.ToUint32. rewrite <- Hmod.
      apply Z.abs_eq. apply Z.mod_pos_bound. unfold JSInt.two32. lia.
    + intros i Hi. apply in_map_iff in Hi. destruct Hi as [j [<- Hj]].
      apply in_seq in Hj. lia.
  - replace (Z.to_nat (Z.of_nat (List.length bytes) - start)) with 0%nat by lia.
    cbn [hashSegment_loop JSInt.ushr0].
    rewrite filter_window_below.
    + reflexivity.
    + intros i Hi. apply in_map_iff in Hi. destruct Hi as [j [<- Hj]].
      apply in_seq in Hj. lia.
Qed.

(** Within a 32-byte array every accumulator of the loop stays below 2^53
    in size, so the Number arithmetic of the source is exact on it. *)
Lemma hashSegment_loop_exact bytes stop :
  Forall is_byte bytes ->
  forall fuel i h bound,
    0 <= i -> Z.abs h <= bound ->
    exists h',
      hashSegment_loop fuel bytes stop i (Some h) = Some h'
      /\ Z.abs h' <= bound + Z.of_nat fuel * (2 ^ 31 + 255).
Proof.
  intros Hbytes fuel. induction fuel as [|fuel IH]; intros i h bound Hi Hh.
  - exists h. split; [reflexivity|]. lia.
  - cbn [hashSegment_loop].
    destruct ((i <? stop) && (i <? Z.of_nat (List.length bytes))) eqn:Hc.
    + apply andb_true_iff in Hc. destruct Hc as [_ Hc]. apply Z.ltb_lt in Hc.
      unfold hashSegment_step.
      rewrite get_in_bounds_Z by lia. cbn [JSInt.add].
      assert (Hb : is_byte (nth (Z.to_nat i) bytes 0)).
      { rewrite Forall_forall in Hbytes. apply Hbytes, nth_In. lia. }
      unfold is_byte in Hb.
      pose proof (ToInt32_range (Z.shiftl (JSInt.ToInt32 h) 5)) as Hr.
      destruct (IH (i + 1) (JSInt.shl (Some h) 5 + h + nth (Z.to_nat i) bytes 0)
                  (bound + (2 ^ 31 + 255))) as [h' [Hrun Hb']].
      * lia.
      * unfold JSInt.shl. lia.
      * exists h'. split; [exact Hrun|]. lia.
    + exists h. split; [reflexivity|]. lia.
Qed.

Lemma hashSegment_exact bytes start length :
  Forall is_byte bytes -> List.length bytes = 32%nat -> 0 <= start ->
  exists h,
    hashSegment_loop (hashSegment_fuel bytes start) bytes (start + length) start
      (Some 5381) = Some h
    /\ Z.abs h < 2 ^ 53.
Proof.
  intros Hb Hl Hs.
  destruct (hashSegment_loop_exact bytes (start + length) Hb
              (hashSegment_fuel bytes start) start 5381 5381) as [h [Hrun Hh]]; try lia.
  exists h. split; [exact Hrun|].
  unfold hashSegment_fuel in Hh. rewrite Hl in Hh.
  assert (Z.of_nat (Z.to_nat (Z.of_nat 32 - start)) <= 32) by lia.
  nia.
Qed.

(** C3. For a start that is not negative, and any length, [hashSegment] is
    the DJB2-style reference: from 5381, [acc = acc * 33 + byte] in 32-bit
    wrapping arithmetic over the indices of the window that lie in the
    array, read as an unsigned 32-bit integer at the end. *)
Theorem hashSegment_is_djb2 bytes start length :
  List.length bytes = 32%nat ->
  Forall is_byte bytes ->
  0 <= start ->
  hashSegment bytes start length = djb2_reference bytes start length
  /\ 0 <= hashSegment bytes start length < 2 ^ 32
  /\ exists h,
       hashSegment_loop (hashSegment_fuel bytes start) bytes (start + length) start
         (Some 5381) = Some h
       /\ Z.abs h < 2 ^ 53.
Proof.
  intros Hl Hb Hs. split; [now apply hashSegment_djb2|]. split.
  - rewrite hashSegment_djb2 by exact Hs.
    unfold djb2_reference, JSInt.ToUint32. apply Z.mod_pos_bound.
    unfold JSInt.two32. lia.
  - now apply hashSegment_exact.
Qed.

Lemma hashSegment_is_djb2_witness :
  List.length zero_bytes = 32%nat
  /\ Forall is_byte zero_bytes
  /\ 0 <= 8
  /\ hashSegment zero_bytes 8 8 = djb2_reference zero_bytes 8 8.
Proof.
  assert (Hb : Forall is_byte zero_bytes).
  { apply Forall_forall. intros x Hx. apply repeat_spec in Hx. subst x.
    unfold is_byte. lia. }
  split; [reflexivity|]. split; [exact Hb|]. split; [lia|].
  apply (hashSegment_is_djb2 zero_bytes 8 8 eq_refl Hb). lia.
Defined.

(** C3, as stated, fails for a negative start: the read before the array
    is [undefined], the accumulator becomes [NaN] and the result 0, while
    the reference skips that index and answers 5381. *)
Lemma hashSegment_negative_start :
  hashSegment zero_bytes (-1) 1 = 0
  /\ djb2_reference zero_bytes (-1) 1 = 5381.
Proof.
  split; reflexivity.
Qed.

(** ** Strings, the hash check and [parseBytes] *)

Lemma lower_upper_char c :
  JSString.lower_char (JSString.upper_char c) = JSString.lower_char c.
Proof.
  destruct c as [[] [] [] [] [] [] [] []]; reflexivity.
Qed.

Lemma hex_class_i_upper c :
  Regex.hex_class_i (JSString.upper_char c) = Regex.hex_class_i c.
Proof.
  destruct c as [[] [] [] [] [] [] [] []]; reflexivity.
Qed.

Lemma toLowerCase_toUpperCase s :
  JSString.toLowerCase (JSString.toUpperCase s) = JSString.toLowerCase s.
Proof.
  induction s as [|c s IH]; [reflexivity|].
  simpl. now rewrite lower_upper_char, IH.
Qed.

Lemma repeat_exact_upper n :
  forall s,
    Regex.repeat_exact Regex.hex_class_i n (JSString.toUpperCase s)
    = option_map JSString.toUpperCase (Regex.repeat_exact Regex.hex_class_i n s).
Proof.
  induction n as [|n IH]; intros s; [reflexivity|].
  destruct s as [|c s]; [reflexivity|].
  cbn [JSString.toUpperCase Regex.repeat_exact]. rewrite hex_class_i_upper.
  destruct (Regex.hex_class_i c); [apply IH|reflexivity].
Qed.

Lemma test_hex64_upper s :
  Regex.test_hex64 (JSString.toUpperCase s) = Regex.test_hex64 s.
Proof.
  unfold Regex.test_hex64. rewrite repeat_exact_upper.
  destruct (Regex.repeat_exact Regex.hex_class_i 64 s) as [[|c r]|]; reflexivity.
Qed.

Lemma hex_class_i_spec c : Regex.hex_class_i c = true <-> is_hex_digit c.
Proof.
  unfold is_hex_digit.
  assert (H : Regex.hex_class_i c = existsb (Ascii.eqb c) hex_digits).
  { destruct c as [[] [] [] [] [] [] [] []]; reflexivity. }
  rewrite H, existsb_exists. split.
  - intros [x [Hx Heq]]. apply Ascii.eqb_eq in Heq. now subst x.
  - intros Hin. exists c. split; [exact Hin|]. apply Ascii.eqb_refl.
Qed.

Lemma repeat_exact_spec cls n :
  forall s,
    Regex.repeat_exact cls n s = Some EmptyString
    <-> String.length s = n /\ Forall (fun c => cls c = true) (list_ascii_of_string s).
Proof.
  induction n as [|n IH]; intros s.
  - simpl. split.
    + intros H. injection H as ->. split; [reflexivity|constructor].
    + intros [H _]. destruct s; [reflexivity|discriminate].
  - destruct s as [|c s]; simpl.
    + split; [discriminate|]. intros [H _]. discriminate.
    + destruct (cls c) eqn:Hc.
      * rewrite IH. split.
        -- intros [Hl Hf]. split; [now f_equal|]. now constructor.
        -- intros [Hl Hf]. split; [now injection Hl|]. now inversion Hf.
      * split; [discriminate|]. intros [_ Hf]. inversion Hf; congruence.
Qed.

(** The check of the source accepts exactly the strings of 64 hexadecimal
    characters, in either case. *)
Lemma test_hex64_spec s :
  Regex.test_hex64 s = true
  <-> String.length s = 64%nat /\ Forall is_hex_digit (list_ascii_of_string s).
Proof.
  unfold Regex.test_hex64.
  assert (Hf : Forall (fun c => Regex.hex_class_i c = true) (list_ascii_of_string s)
               <-> Forall is_hex_digit (list_ascii_of_string s)).
  { rewrite !Forall_forall. split; intros H c Hc; apply hex_class_i_spec, H, Hc. }
  rewrite <- Hf.
  pose proof (repeat_exact_spec Regex.hex_class_i 64 s) as H.
  destruct (Regex.repeat_exact Regex.hex_class_i 64 s) as [[|c r]|].
  - split; [intros _; now apply H|reflexivity].
  - split; [discriminate|]. intros H'. apply H in H'. discriminate.
  - split; [discriminate|]. intros H'. apply H in H'. discriminate.
Qed.

Lemma lower_char_hex a :
  Regex.hex_class_i a = true -> In (JSString.lower_char a) lower_hex_digits.
Proof.
  destruct a as [[] [] [] [] [] [] [] []]; intros Ha; try discriminate Ha;
    vm_compute; repeat ((left; reflexivity) || right).
Qed.

Lemma parse_pair_byte a b :
  Regex.hex_class_i a = true -> Regex.hex_class_i b = true ->
  is_byte (JSInt.or_zero (JSInt.parseInt16
    (String (JSString.lower_char a) (String (JSString.lower_char b) EmptyString)))).
Proof.
  intros Ha Hb. apply lower_char_hex in Ha, Hb.
  assert (H : forallb (fun x => forallb (pair_is_byte x) lower_hex_digits)
                lower_hex_digits = true) by (vm_compute; reflexivity).
  rewrite forallb_forall in H. specialize (H _ Ha).
  rewrite forallb_forall in H. specialize (H _ Hb).
  unfold pair_is_byte in H. apply andb_true_iff in H. unfold is_byte. lia.
Qed.

Lemma parseBytes_pairs_valid n :
  forall s,
    Regex.repeat_exact Regex.hex_class_i (n + n) s = Some EmptyString ->
    List.length (parseBytes_pairs (JSString.toLowerCase s)) = n
    /\ Forall is_byte (parseBytes_pairs (JSString.toLowerCase s)).
Proof.
  induction n as [|n IH]; intros s H.
  - simpl in H. injection H as ->. split; [reflexivity|constructor].
  - rewrite Nat.add_succ_r in H. cbn [Nat.add] in H.
    destruct s as [|a s]; cbn [Regex.repeat_exact] in H; [discriminate H|].
    destruct (Regex.hex_class_i a) eqn:Ha; [|discriminate H].
    destruct s as [|b r]; cbn [Regex.repeat_exact] in H; [discriminate H|].
    destruct (Regex.hex_class_i b) eqn:Hb; [|discriminate H].
    destruct (IH r H) as [Hl Hf].
    cbn [JSString.toLowerCase parseBytes_pairs]. split.
    + cbn [List.length]. now rewrite Hl.
    + constructor; [now apply parse_pair_byte|exact Hf].
Qed.

(** A hash that passes the check decodes to 32 bytes. *)
Lemma parseBytes_valid h :
  Regex.test_hex64 h = true ->
  List.length (parseBytes h) = 32%nat /\ Forall is_byte (parseBytes h).
Proof.
  intros H. unfold Regex.test_hex64 in H.
  destruct (Regex.repeat_exact Regex.hex_class_i 64 h) as [[|c r]|] eqn:Hr;
    try discriminate H.
  apply (parseBytes_pairs_valid 32). exact Hr.
Qed.

Lemma nth_is_byte bytes k :
  Forall is_byte bytes -> (k < List.length bytes)%nat -> is_byte (nth k bytes 0).
Proof.
  intros Hb Hk. rewrite Forall_forall in Hb. apply Hb, nth_In, Hk.
Qed.

(** ** The errors of [generateIdentipattern] *)

Lemma generate_valid E h o :
  Regex.test_hex64 h = true ->
  generateIdentipattern E h o
  = if grid_throws (spread DEFAULTS o) then inl TypeError
    else inr (JSString.join "" (parts_of E h (spread DEFAULTS o))).
Proof.
  intros H. unfold generateIdentipattern. now rewrite H.
Qed.

Lemma generate_returns E h o :
  Regex.test_hex64 h = true ->
  grid_throws (spread DEFAULTS o) = false ->
  generateIdentipattern E h o
  = inr (JSString.join "" (parts_of E h (spread DEFAULTS o))).
Proof.
  intros H Hg. rewrite generate_valid by exact H. now rewrite Hg.
Qed.

Lemma generate_invalid E h o :
  Regex.test_hex64 h = false ->
  generateIdentipattern E h o = inl (Error "hash must be 64 hex characters").
Proof.
  intros H. unfold generateIdentipattern. now rewrite H.
Qed.

Lemma test_hex64_length h : String.length h <> 64%nat -> Regex.test_hex64 h = false.
Proof.
  intros Hl. destruct (Regex.test_hex64 h) eqn:H; [|reflexivity].
  apply test_hex64_spec in H. tauto.
Qed.

Lemma test_hex64_invalid h :
  ~ (String.length h = 64%nat /\ Forall is_hex_digit (list_ascii_of_string h)) ->
  Regex.test_hex64 h = false.
Proof.
  intros Hn. destruct (Regex.test_hex64 h) eqn:Ht; [|reflexivity].
  apply test_hex64_spec in Ht. contradiction.
Qed.

Lemma grid_throws_spec S :
  grid_throws S = true <-> size S = Undefined /\ ToBoolean (showGrid S) = true.
Proof.
  unfold grid_throws. destruct (size S) as [|s].
  - split; [intros H; now split|intros [_ H]; exact H].
  - split; [discriminate|intros [H _]; discriminate H].
Qed.

(** C2. The hash check of [generateIdentipattern] throws its [Error]
    exactly when the hash is not 64 hexadecimal characters (in either case),
    whatever the options: strings of 63 or 65 characters and 64-character
    strings with a [g] throw it. It is not the only error of the code: for a
    hash that passed the check, options whose [size] is present and
    [undefined], together with a truthy [showGrid], make [r2(size)] throw a
    [TypeError]; the call with 64 zeros and [{ size: undefined, showGrid:
    true }] does so. Every other call returns its string: among them 64
    times [f] and 64 times [0], with any options whose size is a Number or
    left out. *)
Theorem generate_errors (E : Engine) (h : string) (o : Options) :
  (generateIdentipattern E h o = inl (Error "hash must be 64 hex characters")
   <-> ~ (String.length h = 64%nat /\ Forall is_hex_digit (list_ascii_of_string h)))
  /\ (generateIdentipattern E h o = inl TypeError
      <-> (String.length h = 64%nat /\ Forall is_hex_digit (list_ascii_of_string h))
          /\ size (spread DEFAULTS o) = Undefined
          /\ ToBoolean (showGrid (spread DEFAULTS o)) = true)
  /\ ((exists svg, generateIdentipattern E h o = inr svg)
      <-> (String.length h = 64%nat /\ Forall is_hex_digit (list_ascii_of_string h))
          /\ grid_throws (spread DEFAULTS o) = false)
  /\ (String.length h = 63%nat ->
        generateIdentipattern E h o = inl (Error "hash must be 64 hex characters"))
  /\ (String.length h = 65%nat ->
        generateIdentipattern E h o = inl (Error "hash must be 64 hex characters"))
  /\ (String.length h = 64%nat -> In "g"%char (list_ascii_of_string h) ->
        generateIdentipattern E h o = inl (Error "hash must be 64 hex characters"))
  /\ generateIdentipattern E all_0 undefined_size_with_grid = inl TypeError
  /\ (opt_size o <> Some Undefined ->
        (exists svg, generateIdentipattern E all_f o = inr svg)
        /\ (exists svg, generateIdentipattern E all_0 o = inr svg)).
Proof.
  assert (Hopt : opt_size o <> Some Undefined -> grid_throws (spread DEFAULTS o) = false).
  { intros Ho. unfold grid_throws, spread. cbn [size].
    destruct (opt_size o) as [[|s]|]; [contradiction|reflexivity|reflexivity]. }
  split; [|split; [|split; [|split; [|split; [|split; [|split]]]]]].
  - split.
    + intros H Hv. apply test_hex64_spec in Hv. rewrite generate_valid in H by exact Hv.
      destruct (grid_throws (spread DEFAULTS o)); discriminate H.
    + intros Hn. apply generate_invalid, test_hex64_invalid, Hn.
  - split.
    + intros H. destruct (Regex.test_hex64 h) eqn:Ht.
      * rewrite generate_valid in H by exact Ht.
        destruct (grid_throws (spread DEFAULTS o)) eqn:Hg; [|discriminate H].
        split; [now apply test_hex64_spec|now apply grid_throws_spec].
      * rewrite generate_invalid in H by exact Ht. discriminate H.
    + intros [Hv Hg]. apply test_hex64_spec in Hv. apply grid_throws_spec in Hg.
      rewrite generate_valid by exact Hv. now rewrite Hg.
  - split.
    + intros [svg H]. destruct (Regex.test_hex64 h) eqn:Ht.
      * rewrite generate_valid in H by exact Ht.
        destruct (grid_throws (spread DEFAULTS o)); [discriminate H|].
        split; [now apply test_hex64_spec|reflexivity].
      * rewrite generate_invalid in H by exact Ht. discriminate H.
    + intros [Hv Hg]. apply test_hex64_spec in Hv. eexists.
      now apply generate_returns.
  - intros Hl. apply generate_invalid, test_hex64_length. lia.
  - intros Hl. apply generate_invalid, test_hex64_length. lia.
  - intros Hl Hg. apply generate_invalid.
    destruct (Regex.test_hex64 h) eqn:Ht; [|reflexivity].
    apply test_hex64_spec in Ht. destruct Ht as [_ Hf].
    rewrite Forall_forall in Hf. apply Hf in Hg.
    apply hex_class_i_spec in Hg. discriminate Hg.
  - reflexivity.
  - intros Ho. split; eexists; apply generate_returns; try reflexivity; now apply Hopt.
Qed.

(** ** Case of the hash *)

(** C10. Generation does not depend on the case of the hash: a valid hash
    and the same hash with its letters in upper case give the same
    output. *)
Theorem generate_case_insensitive (E : Engine) (h : string) (o : Options) :
  Regex.test_hex64 h = true ->
  generateIdentipattern E (JSString.toUpperCase h) o = generateIdentipattern E h o.
Proof.
  intros _. unfold generateIdentipattern, parts_of, parseBytes.
  now rewrite test_hex64_upper, toLowerCase_toUpperCase.
Qed.

Lemma generate_case_insensitive_witness :
  Regex.test_hex64 mixed_hash = true
  /\ (forall E o,
        generateIdentipattern E (JSString.toUpperCase mixed_hash) o
        = generateIdentipattern E mixed_hash o).
Proof.
  split; [reflexivity|].
  intros E o. apply (generate_case_insensitive E mixed_hash o). reflexivity.
Defined.

(** ** The hollow flag *)

(** [hashSegment(29, 1)] of 32 bytes is [5381 * 33] plus the byte at
    offset 29. *)
Lemma hashSegment_29 bytes :
  List.length bytes = 32%nat -> Forall is_byte bytes ->
  hashSegment bytes 29 1 = 177573 + nth 29 bytes 0.
Proof.
  intros Hl Hb. rewrite hashSegment_djb2 by lia.
  unfold djb2_reference. rewrite Hl.
  change (filter (in_window (Z.of_nat 32) 29 1) (upto 32)) with [29].
  cbn [fold_left]. unfold djb2_step. change (Z.to_nat 29) with 29%nat.
  pose proof (nth_is_byte bytes 29 Hb ltac:(lia)) as H29. unfold is_byte in H29.
  rewrite ToInt32_small by lia.
  unfold JSInt.ToUint32, JSInt.two32. rewrite Z.mod_small by lia. lia.
Qed.

Lemma centerHollow_derive bytes :
  centerHollow (derive bytes) = (Z.land (hashSegment bytes 29 1) 1 =? 1).
Proof. reflexivity. Qed.

(** C6, as the code has it. For every valid hash, [centerHollow] is the low
    bit of [hashSegment(29, 1)], and that is the low bit of the byte at
    offset 29 inverted, since [5381 * 33] is odd: the flag is true exactly
    when the low bit of that byte is 0. *)
Theorem centerHollow_low_bit (h : string) :
  Regex.test_hex64 h = true ->
  centerHollow (derive (parseBytes h))
  = Z.testbit (hashSegment (parseBytes h) 29 1) 0
  /\ (centerHollow (derive (parseBytes h)) = true
      <-> Z.testbit (nth 29 (parseBytes h) 0) 0 = false).
Proof.
  intros Hv. destruct (parseBytes_valid h Hv) as [Hl Hb].
  rewrite centerHollow_derive, hashSegment_29 by assumption.
  pose proof (nth_is_byte (parseBytes h) 29 Hb ltac:(lia)) as H29.
  unfold is_byte in H29. set (b := nth 29 (parseBytes h) 0) in *.
  change 1 with (Z.ones 1) at 1 3. rewrite Z.land_ones by lia.
  rewrite !Z.bit0_odd, !Zodd_mod. change (2 ^ 1) with 2.
  split; [reflexivity|].
  rewrite Z.eqb_eq, Z.eqb_neq. Z.div_mod_to_equations. lia.
Qed.

Lemma centerHollow_low_bit_witness :
  Regex.test_hex64 all_0 = true
  /\ (centerHollow (derive (parseBytes all_0)) = true
      <-> Z.testbit (nth 29 (parseBytes all_0) 0) 0 = false).
Proof.
  split; [reflexivity|].
  exact (proj2 (centerHollow_low_bit all_0 eq_refl)).
Defined.

(** C6, as stated, fails on the hash of 64 zeros: the low bit of its byte
    29 is 0, not 1, and [centerHollow] is true. *)
Lemma centerHollow_not_byte_bit :
  Regex.test_hex64 all_0 = true
  /\ centerHollow (derive (parseBytes all_0)) = true
  /\ Z.testbit (nth 29 (parseBytes all_0) 0) 0 = false.
Proof.
  repeat split; vm_compute; reflexivity.
Qed.

(** ** Strings: prefixes and suffixes of the parts *)

Local Open Scope string_scope.

Lemma string_length_app a b :
  String.length (a ++ b) = (String.length a + String.length b)%nat.
Proof.
  induction a as [|c a IH]; simpl; [reflexivity|now rewrite IH].
Qed.

Lemma app_assoc_s a b c : (a ++ b) ++ c = a ++ (b ++ c).
Proof.
  induction a as [|x a IH]; simpl; [reflexivity|now rewrite IH].
Qed.

Lemma substring_app_skip a t k n :
  substring (String.length a + k) n (a ++ t) = substring k n t.
Proof.
  induction a as [|x a IH]; simpl; [reflexivity|exact IH].
Qed.

Lemma substring_all s : substring 0 (String.length s) s = s.
Proof.
  induction s as [|x s IH]; simpl; [reflexivity|now rewrite IH].
Qed.

(** A suffix no longer than [t] is looked for in [t] alone. *)
Lemma ends_with_app suf a t :
  (String.length suf <= String.length t)%nat ->
  JSString.ends_with suf (a ++ t) = JSString.ends_with suf t.
Proof.
  intros Hl. unfold JSString.ends_with. rewrite string_length_app.
  replace (String.length a + String.length t - String.length suf)%nat
    with (String.length a + (String.length t - String.length suf))%nat by lia.
  rewrite substring_app_skip.
  replace (Nat.leb (String.length suf) (String.length a + String.length t)) with true
    by (symmetry; apply Nat.leb_le; lia).
  replace (Nat.leb (String.length suf) (String.length t)) with true
    by (symmetry; apply Nat.leb_le; lia).
  reflexivity.
Qed.

Lemma ends_with_self a suf : JSString.ends_with suf (a ++ suf) = true.
Proof.
  rewrite ends_with_app by lia. unfold JSString.ends_with.
  rewrite Nat.leb_refl, Nat.sub_diag, substring_all. apply String.eqb_refl.
Qed.

(** Strip the leading pieces of a part while what is left is still as
    long as the suffix looked for. *)
Ltac peel :=
  repeat (rewrite ends_with_app
            by (unfold attr; rewrite ?string_length_app; simpl String.length; lia)).

Lemma filter_none {A} (f : A -> bool) l :
  (forall x, In x l -> f x = false) -> filter f l = [].
Proof.
  induction l as [|x l IH]; intros H; [reflexivity|]. simpl.
  rewrite (H x) by now left. apply IH. intros y Hy. apply H. now right.
Qed.

Lemma filter_all {A} (f : A -> bool) l :
  (forall x, In x l -> f x = true) -> filter f l = l.
Proof.
  induction l as [|x l IH]; intros H; [reflexivity|]. simpl.
  rewrite (H x) by now left. f_equal. apply IH. intros y Hy. apply H. now right.
Qed.

(** *** The two fixed stroke widths as printed *)

Lemma r2_thickness E : r2 E thickness = "0.70".
Proof. reflexivity. Qed.

Lemma r2_borderThickness E s ia : r2 E (borderThickness (layout s ia)) = "0.63".
Proof. reflexivity. Qed.

(** *** Which parts are marker rectangles *)

Lemma marker_part_is_marker E L i : is_marker (marker_part E L i) = true.
Proof.
  unfold marker_part. destruct (marker_rect L i) as [[[x y] w] hh].
  unfold is_marker. apply andb_true_iff. split; [reflexivity|].
  peel. reflexivity.
Qed.

Lemma head_not_marker E s : filter is_marker (head_parts E s) = [].
Proof. reflexivity. Qed.

Lemma grid_not_marker E s g p : In p (grid_parts E s g) -> is_marker p = false.
Proof.
  unfold grid_parts. destruct g; [|intros []].
  rewrite !in_app_iff, in_flat_map. intros [H|[[i [_ H]]|H]].
  - destruct H as [<-|[]]. reflexivity.
  - destruct H as [<-|[<-|[]]]; reflexivity.
  - destruct H as [<-|[]]. reflexivity.
Qed.

Lemma border_not_marker E s ia : is_marker (border_part E (layout s ia)) = false.
Proof.
  unfold border_part, is_marker. rewrite r2_borderThickness.
  apply andb_false_iff. right. peel. reflexivity.
Qed.

Lemma wave_not_marker E P L T p : In p (wave_parts E P L T) -> is_marker p = false.
Proof.
  unfold wave_parts. rewrite in_map_iff. intros [w [<- _]]. reflexivity.
Qed.

Lemma center_not_marker E P L p : In p (center_parts E P L) -> is_marker p = false.
Proof.
  unfold center_parts.
  destruct (0 <? centerR L)%float; [|intros []].
  destruct (innerAccent P =? 0)%Z; [intros [<-|[]]; reflexivity|].
  destruct (innerAccent P =? 1)%Z; [intros [<-|[]]; reflexivity|].
  destruct (innerAccent P =? 2)%Z; [intros [<-|[]]; reflexivity|].
  destruct (innerAccent P =? 3)%Z.
  { unfold pushConcentric. rewrite in_map_iff. intros [i [<- _]]. reflexivity. }
  destruct ((5 <=? innerAccent P) && (innerAccent P <=? 9))%Z; [|intros []].
  intros [<-|[]]; reflexivity.
Qed.

Local Close Scope string_scope.

(** *** Counting the marker bits *)

Lemma block_parts_length E bytes L :
  List.length (block_parts E bytes L)
  = List.length (filter (marker_bit bytes) (upto 128)).
Proof.
  unfold block_parts. induction (upto 128) as [|i l IH]; [reflexivity|].
  cbn [flat_map filter]. rewrite length_app, IH.
  destruct (marker_bit bytes i); reflexivity.
Qed.

Lemma block_parts_markers E bytes L :
  filter is_marker (block_parts E bytes L) = block_parts E bytes L.
Proof.
  apply filter_all. intros p Hp. unfold block_parts in Hp.
  apply in_flat_map in Hp. destruct Hp as [i [_ Hp]].
  destruct (marker_bit bytes i); [|destruct Hp].
  destruct Hp as [<-|[]]. apply marker_part_is_marker.
Qed.

(** The test of the block loop reads bit [i & 7] of byte [i >> 3]. *)
Lemma marker_bit_testbit bytes i :
  List.length bytes = 32%nat -> Forall is_byte bytes -> 0 <= i < 128 ->
  marker_bit bytes i = Z.testbit (nth (Z.to_nat (Z.shiftr i 3)) bytes 0) (Z.land i 7).
Proof.
  intros Hl Hb Hi. unfold marker_bit.
  assert (Hq : 0 <= Z.shiftr i 3 < 16).
  { rewrite Z.shiftr_div_pow2 by lia. change (2 ^ 3) with 8.
    split; [apply Z.div_pos; lia|apply Z.div_lt_upper_bound; lia]. }
  assert (Hr : 0 <= Z.land i 7 < 8).
  { change 7 with (Z.ones 3). rewrite Z.land_ones by lia. apply Z.mod_pos_bound. lia. }
  replace (Z.shiftr i 3 <? Z.of_nat (List.length bytes)) with true
    by (symmetry; apply Z.ltb_lt; lia).
  cbn [andb].
  pose proof (nth_is_byte bytes (Z.to_nat (Z.shiftr i 3)) Hb ltac:(lia)) as Hbyte.
  unfold is_byte in Hbyte.
  rewrite ToInt32_small by lia.
  rewrite Z.testbit_odd. change 1 with (Z.ones 1). rewrite Z.land_ones by lia.
  change (2 ^ 1) with 2. rewrite Zodd_mod.
  set (x := Z.shiftr _ (Z.land i 7)).
  pose proof (Z.mod_pos_bound x 2 ltac:(lia)).
  destruct (x mod 2 =? 0) eqn:H0; [apply Z.eqb_eq in H0|apply Z.eqb_neq in H0];
    symmetry; [apply Z.eqb_neq|apply Z.eqb_eq]; lia.
Qed.

Lemma bits8_popcount b : is_byte b -> bits8 b = popcount b.
Proof.
  intros Hb.
  assert (H : forallb (fun b => Nat.eqb (bits8 b) (popcount b)) (upto 256) = true)
    by (vm_compute; reflexivity).
  apply Nat.eqb_eq. apply (upto_forallb 256 _ H). exact Hb.
Qed.

Lemma filter_flat_map_length {A B} (f : B -> bool) (g : A -> list B) l :
  List.length (filter f (flat_map g l))
  = list_sum (map (fun q => List.length (filter f (g q))) l).
Proof.
  induction l as [|q l IH]; [reflexivity|].
  cbn [flat_map map list_sum]. now rewrite filter_app, length_app, IH.
Qed.

Lemma flat_map_ext_on {A B} (f g : A -> list B) l :
  (forall x, In x l -> f x = g x) -> flat_map f l = flat_map g l.
Proof.
  induction l as [|x l IH]; intros H; [reflexivity|]. simpl.
  rewrite (H x) by now left. f_equal. apply IH. intros y Hy. apply H. now right.
Qed.

Lemma filter_map_swap {A B} (f : B -> bool) (g : A -> B) l :
  filter f (map g l) = map g (filter (fun x => f (g x)) l).
Proof.
  induction l as [|x l IH]; [reflexivity|]. simpl.
  destruct (f (g x)); simpl; now rewrite IH.
Qed.

Lemma firstn_as_map {A} (d : A) n :
  forall l, (n <= List.length l)%nat ->
  firstn n l = map (fun q => nth q l d) (seq 0 n).
Proof.
  induction n as [|n IH]; intros l Hl; [reflexivity|].
  destruct l as [|x l]; [simpl in Hl; lia|].
  cbn [firstn seq map nth]. f_equal.
  rewrite <- seq_shift, map_map. apply IH. simpl in Hl. lia.
Qed.

Lemma slots_of_byte bytes q :
  List.length bytes = 32%nat -> Forall is_byte bytes -> 0 <= q < 16 ->
  List.length (filter (marker_bit bytes) (slots_of q))
  = popcount (nth (Z.to_nat q) bytes 0).
Proof.
  intros Hl Hb Hq.
  rewrite <- bits8_popcount by (apply nth_is_byte; [exact Hb|lia]).
  unfold slots_of, bits8. rewrite filter_map_swap, length_map.
  f_equal. apply filter_ext_in. intros r Hr. apply In_upto in Hr.
  rewrite marker_bit_testbit by (try assumption; lia).
  rewrite Z.shiftr_div_pow2 by lia. change (2 ^ 3) with 8.
  change 7 with (Z.ones 3). rewrite Z.land_ones by lia. change (2 ^ 3) with 8.
  replace ((8 * q + r) / 8) with q by (Z.div_mod_to_equations; lia).
  replace ((8 * q + r) mod 8) with r by (Z.div_mod_to_equations; lia).
  reflexivity.
Qed.

Lemma marker_bits_popcount bytes :
  List.length bytes = 32%nat -> Forall is_byte bytes ->
  List.length (filter (marker_bit bytes) (upto 128)) = popcount128 bytes.
Proof.
  intros Hl Hb.
  change (upto 128) with (flat_map slots_of (upto 16)).
  rewrite filter_flat_map_length. unfold popcount128.
  rewrite (firstn_as_map 0 16) by lia.
  unfold upto. rewrite !map_map. f_equal.
  apply map_ext_in. intros q Hq. apply in_seq in Hq.
  rewrite slots_of_byte by (try assumption; lia).
  now rewrite Nat2Z.id.
Qed.

(** ** The marker rectangles *)

Lemma markers_of_parts E h S :
  filter is_marker (parts_of E h S)
  = block_parts E (parseBytes h) (layout (ToNumber (size S)) (innerAccent (derive (parseBytes h)))).
Proof.
  unfold parts_of. rewrite !filter_app.
  rewrite head_not_marker.
  rewrite (filter_none _ (grid_parts _ _ _)) by apply grid_not_marker.
  rewrite (filter_none _ (wave_parts _ _ _ _)) by apply wave_not_marker.
  rewrite (filter_none _ (center_parts _ _ _)) by apply center_not_marker.
  rewrite block_parts_markers.
  cbn [filter]. rewrite border_not_marker.
  replace (is_marker "</svg>") with false by reflexivity.
  cbn [app]. now rewrite app_nil_r.
Qed.

(** C4. For every valid hash and all options, the marker rectangles in the
    output are as many as the one bits among bits 0..127 of the first 16
    bytes: slot [i] in 0..127 gives one rectangle if bit [i & 7] of byte
    [i >> 3] is 1 and none otherwise, so there are between 0 and 128. The
    output is the text of [parts], for every call that the grid loop does
    not end with its [TypeError]. *)
Theorem marker_count_is_popcount (E : Engine) (h : string) (o : Options) :
  Regex.test_hex64 h = true ->
  let bytes := parseBytes h in
  let parts := parts_of E h (spread DEFAULTS o) in
  generateIdentipattern E h o
  = (if grid_throws (spread DEFAULTS o) then inl TypeError
     else inr (JSString.join "" parts))
  /\ List.length (filter is_marker parts) = popcount128 bytes
  /\ (exists L,
        filter is_marker parts
        = flat_map (fun i => if Z.testbit (nth (Z.to_nat (Z.shiftr i 3)) bytes 0) (Z.land i 7)
                             then [marker_part E L i] else [])
            (upto 128))
  /\ (List.length (filter is_marker parts) <= 128)%nat.
Proof.
  intros Hv bytes parts. destruct (parseBytes_valid h Hv) as [Hl Hb].
  split; [now apply generate_valid|].
  unfold parts. rewrite markers_of_parts. fold bytes.
  split; [|split].
  - rewrite block_parts_length. now apply marker_bits_popcount.
  - eexists. unfold block_parts. apply flat_map_ext_on.
    intros i Hi. apply In_upto in Hi.
    rewrite marker_bit_testbit by (try assumption; lia). reflexivity.
  - rewrite block_parts_length.
    etransitivity; [apply filter_length_le|]. reflexivity.
Qed.

Lemma marker_count_is_popcount_witness :
  Regex.test_hex64 all_f = true
  /\ (forall E o,
        List.length (filter is_marker (parts_of E all_f (spread DEFAULTS o)))
        = popcount128 (parseBytes all_f))
  /\ popcount128 (parseBytes all_f) = 128%nat.
Proof.
  split; [reflexivity|]. split; [|reflexivity].
  intros E o.
  exact (proj1 (proj2 (marker_count_is_popcount E all_f o eq_refl))).
Defined.

(** ** The centre glyph *)

Local Open Scope string_scope.

Lemma closed_path_tail E pts hollow :
  exists body, closed_path E pts hollow = body ++ closed_tail hollow.
Proof.
  exists ("<path" ++ " " ++ "d" ++ "=" ++ dq ++ "M" ++ JSString.join " L" pts).
  unfold closed_path, closed_tail, attr at 1. rewrite r2_thickness.
  rewrite !app_assoc_s. reflexivity.
Qed.

Lemma closed_path_is_glyph E pts hollow : is_glyph (closed_path E pts hollow) = true.
Proof.
  unfold is_glyph.
  replace (JSString.starts_with "<circle" (closed_path E pts hollow)) with false
    by reflexivity.
  replace (JSString.starts_with "<path" (closed_path E pts hollow)) with true
    by reflexivity.
  destruct (closed_path_tail E pts hollow) as [body ->].
  destruct hollow; rewrite ends_with_self; [reflexivity|apply orb_true_r].
Qed.

Lemma center_parts_glyphs E P L :
  filter is_glyph (center_parts E P L) = center_parts E P L.
Proof.
  apply filter_all. unfold center_parts.
  destruct (0 <? centerR L)%float; [|intros p []].
  destruct (innerAccent P =? 0)%Z.
  { intros p [<-|[]]. apply closed_path_is_glyph. }
  destruct (innerAccent P =? 1)%Z.
  { intros p [<-|[]]. apply closed_path_is_glyph. }
  destruct (innerAccent P =? 2)%Z.
  { intros p [<-|[]]. reflexivity. }
  destruct (innerAccent P =? 3)%Z.
  { intros p Hp. unfold pushConcentric in Hp. apply in_map_iff in Hp.
    destruct Hp as [i [<- _]]. reflexivity. }
  destruct ((5 <=? innerAccent P) && (innerAccent P <=? 9))%Z; [|intros p []].
  intros p [<-|[]]. apply closed_path_is_glyph.
Qed.

Lemma head_not_glyph E s : filter is_glyph (head_parts E s) = [].
Proof. reflexivity. Qed.

Lemma grid_not_glyph E s g p : In p (grid_parts E s g) -> is_glyph p = false.
Proof.
  unfold grid_parts. destruct g; [|intros []].
  rewrite !in_app_iff, in_flat_map. intros [H|[[i [_ H]]|H]].
  - destruct H as [<-|[]]. reflexivity.
  - destruct H as [<-|[<-|[]]]; reflexivity.
  - destruct H as [<-|[]]. reflexivity.
Qed.

Lemma border_not_glyph E L : is_glyph (border_part E L) = false.
Proof. reflexivity. Qed.

Lemma wave_not_glyph E P L T p : In p (wave_parts E P L T) -> is_glyph p = false.
Proof.
  unfold wave_parts. rewrite in_map_iff. intros [w [<- _]].
  unfold is_glyph, wave_part. rewrite r2_thickness.
  apply orb_false_iff. split; [reflexivity|].
  apply andb_false_iff. right. apply orb_false_iff.
  split; peel; reflexivity.
Qed.

Lemma block_not_glyph E bytes L p : In p (block_parts E bytes L) -> is_glyph p = false.
Proof.
  unfold block_parts. rewrite in_flat_map. intros [i [_ Hp]].
  destruct (marker_bit bytes i); [|destruct Hp].
  destruct Hp as [<-|[]].
  unfold marker_part. destruct (marker_rect L i) as [[[x y] w] hh]. reflexivity.
Qed.

Lemma glyphs_of_parts E h S :
  filter is_glyph (parts_of E h S)
  = center_parts E (derive (parseBytes h))
      (layout (ToNumber (size S)) (innerAccent (derive (parseBytes h)))).
Proof.
  unfold parts_of. rewrite !filter_app.
  rewrite head_not_glyph.
  rewrite (filter_none _ (grid_parts _ _ _)) by apply grid_not_glyph.
  rewrite (filter_none _ (wave_parts _ _ _ _)) by apply wave_not_glyph.
  rewrite (filter_none _ (block_parts _ _ _)) by apply block_not_glyph.
  rewrite center_parts_glyphs.
  cbn [filter]. rewrite border_not_glyph.
  replace (is_glyph "</svg>") with false by reflexivity.
  cbn [app]. now rewrite app_nil_r.
Qed.

Local Close Scope string_scope.

Lemma innerAccent_range bytes : 0 <= innerAccent (derive bytes) < 10.
Proof.
  unfold derive. cbn [innerAccent]. apply Z.mod_pos_bound. lia.
Qed.

(** Whether [center_parts] pushes anything. *)
Lemma center_parts_nonempty E P L :
  0 <= innerAccent P < 10 ->
  (center_parts E P L <> []
   <-> innerAccent P <> 4 /\ (0 <? centerR L)%float = true).
Proof.
  intros Hr. unfold center_parts, pushStar, pushTriangle, pushDot, pushPolygon.
  destruct (0 <? centerR L)%float; [|split; [congruence|intros [_ H]; discriminate H]].
  destruct (innerAccent P =? 0) eqn:H0;
    [apply Z.eqb_eq in H0; split; [intros _; split; [lia|reflexivity]|discriminate]|].
  destruct (innerAccent P =? 1) eqn:H1;
    [apply Z.eqb_eq in H1; split; [intros _; split; [lia|reflexivity]|discriminate]|].
  destruct (innerAccent P =? 2) eqn:H2;
    [apply Z.eqb_eq in H2; split; [intros _; split; [lia|reflexivity]|discriminate]|].
  destruct (innerAccent P =? 3) eqn:H3;
    [apply Z.eqb_eq in H3; split; [intros _; split; [lia|reflexivity]|discriminate]|].
  apply Z.eqb_neq in H0, H1, H2, H3.
  destruct ((5 <=? innerAccent P) && (innerAccent P <=? 9)) eqn:H5.
  - apply andb_true_iff in H5. destruct H5 as [H5 H9].
    apply Z.leb_le in H5. split; [intros _; split; [lia|reflexivity]|discriminate].
  - apply andb_false_iff in H5.
    split; [congruence|]. intros [H4 _]. exfalso.
    destruct H5 as [H5|H5]; [apply Z.leb_gt in H5|apply Z.leb_gt in H5]; lia.
Qed.

(** At the default size the glyph radius is positive for every accent but
    4. *)
Lemma centerR_default ia :
  0 <= ia < 10 -> ia <> 4 -> (0 <? centerR (layout 120 ia))%float = true.
Proof.
  intros Hr H4.
  assert (H : forallb (fun ia => (ia =? 4) || (0 <? centerR (layout 120 ia))%float)
                (upto 10) = true) by (vm_compute; reflexivity).
  pose proof (upto_forallb 10 _ H ia Hr) as Hia.
  apply orb_true_iff in Hia. destruct Hia as [Hia|Hia]; [|exact Hia].
  apply Z.eqb_eq in Hia. contradiction.
Qed.

(** C5, as the code has it. For every valid hash and all options the
    output has a centre glyph exactly when [innerAccent] is not 4 and the
    glyph radius [centerR] is positive; at the default size 120 that is
    exactly when [innerAccent] is not 4.  When [innerAccent] is 2 and a
    glyph is drawn, it is the one filled circle of [pushDot], in which the
    hollow flag has no part. *)
Theorem glyph_iff_accent_and_radius (E : Engine) (h : string) (o : Options) :
  Regex.test_hex64 h = true ->
  let P := derive (parseBytes h) in
  let L := layout (ToNumber (size (spread DEFAULTS o))) (innerAccent P) in
  let glyphs := filter is_glyph (parts_of E h (spread DEFAULTS o)) in
  (glyphs <> [] <-> innerAccent P <> 4 /\ (0 <? centerR L)%float = true)
  /\ (ToNumber (size (spread DEFAULTS o)) = 120%float -> (glyphs <> [] <-> innerAccent P <> 4))
  /\ (innerAccent P = 2 -> glyphs <> [] ->
      glyphs = pushDot E L
      /\ forallb is_filled_circle glyphs = true
      /\ forall hollow, center_parts E (with_hollow P hollow) L = glyphs).
Proof.
  intros Hv P L glyphs.
  assert (Hg : glyphs = center_parts E P L) by apply glyphs_of_parts.
  pose proof (innerAccent_range (parseBytes h)) as Hr. fold P in Hr.
  rewrite Hg. split; [|split].
  - now apply center_parts_nonempty.
  - intros Hs. rewrite center_parts_nonempty by exact Hr.
    split; [tauto|]. intros H4. split; [exact H4|].
    unfold L. rewrite Hs. now apply centerR_default.
  - intros H2 Hne. apply center_parts_nonempty in Hne; [|exact Hr].
    destruct Hne as [_ Hpos].
    unfold center_parts. cbn [innerAccent with_hollow].
    rewrite Hpos, H2. cbn [Z.eqb Pos.eqb].
    split; [reflexivity|]. split; [|reflexivity].
    unfold pushDot, is_filled_circle. cbn [forallb].
    rewrite andb_true_r. apply andb_true_iff. split; [reflexivity|].
    peel. reflexivity.
Qed.

Lemma glyph_iff_accent_and_radius_witness :
  Regex.test_hex64 dot_hash = true
  /\ innerAccent (derive (parseBytes dot_hash)) = 2
  /\ (forall E,
        filter is_glyph (parts_of E dot_hash (spread DEFAULTS no_options)) <> []
        <-> innerAccent (derive (parseBytes dot_hash)) <> 4).
Proof.
  split; [reflexivity|]. split; [reflexivity|].
  intros E.
  exact (proj1 (proj2 (glyph_iff_accent_and_radius E dot_hash no_options eq_refl))
           eq_refl).
Defined.

(** C5, as stated, fails at size 5 on the hash of 64 zeros: its
    [innerAccent] is 9, not 4, but the curve bound is negative there, so is
    the glyph radius, and no glyph is drawn. *)
Lemma no_glyph_at_small_size :
  Regex.test_hex64 all_0 = true
  /\ innerAccent (derive (parseBytes all_0)) = 9
  /\ centerR (layout 5 9) = (-0.059999999999999928)%float
  /\ (forall E, filter is_glyph (parts_of E all_0 (spread DEFAULTS (sized 5))) = []).
Proof.
  split; [reflexivity|]. split; [reflexivity|]. split; [reflexivity|].
  intros E. rewrite glyphs_of_parts. reflexivity.
Qed.

(** ** Scaling with [size] *)

Lemma In_from lo n i : lo <= i < lo + Z.of_nat n -> In i (from lo n).
Proof.
  intros Hi. unfold from. apply in_map_iff. exists (i - lo). split; [lia|].
  apply In_upto. lia.
Qed.







(** ** binary64 arithmetic: what the tuner's bounds rest on

    The kernel's operations on [float] are specified by [FloatAxioms] in
    terms of [SpecFloat]; the facts below are read off that specification
    for [prec = 53] and [emax = 1024]. *)

Lemma iter_pos_nat {A} (f : A -> A) p :
  forall x, iter_pos f p x = Nat.iter (Pos.to_nat p) f x.
Proof.
  induction p as [p IH|p IH|]; intros x; cbn [iter_pos].
  - rewrite !IH, <- Nat.iter_succ_r, <- Nat.iter_add. f_equal. lia.
  - rewrite !IH, <- Nat.iter_add. f_equal. lia.
  - reflexivity.
Qed.

Lemma shr_1_m r : 0 <= shr_m r -> shr_m (shr_1 r) = shr_m r / 2.
Proof.
  destruct r as [m rr ss]. cbn [shr_m shr_1].
  destruct m as [|[p|p|]|p]; intros Hm; cbn [shr_m]; try lia;
    Z.div_mod_to_equations; lia.
Qed.

Lemma shr_iter_m k :
  forall r, 0 <= shr_m r -> shr_m (Nat.iter k shr_1 r) = shr_m r / 2 ^ Z.of_nat k.
Proof.
  induction k as [|k IH]; intros r Hr.
  - cbn. now rewrite Z.div_1_r.
  - rewrite Nat.iter_succ, shr_1_m.
    + rewrite IH by exact Hr. rewrite Z.div_div by lia.
      rewrite Nat2Z.inj_succ, Z.pow_succ_r by lia. f_equal. lia.
    + rewrite IH by exact Hr. apply Z.div_pos; lia.
Qed.

Lemma shr_record_of_loc_m m l : shr_m (shr_record_of_loc m l) = m.
Proof. destruct l as [|[]]; reflexivity. Qed.

(** [shr]: the mantissa is divided by [2^n] and the exponent raised by
    [n], for [n] positive; nothing happens otherwise. *)
Lemma shr_spec r e n :
  0 <= shr_m r ->
  shr_m (fst (shr r e n)) = shr_m r / 2 ^ Z.max 0 n
  /\ snd (shr r e n) = e + Z.max 0 n.
Proof.
  intros Hr. unfold shr. destruct n as [|p|p]; cbn [fst snd].
  - now rewrite Z.div_1_r, Z.add_0_r.
  - rewrite iter_pos_nat, shr_iter_m by exact Hr.
    rewrite positive_nat_Z. replace (Z.max 0 (Z.pos p)) with (Z.pos p) by lia.
    split; reflexivity.
  - replace (Z.max 0 (Z.neg p)) with 0 by lia.
    now rewrite Z.div_1_r, Z.add_0_r.
Qed.

Lemma digits2_bounds p :
  2 ^ (Z.pos (digits2_pos p) - 1) <= Z.pos p < 2 ^ Z.pos (digits2_pos p).
Proof.
  induction p as [p IH|p IH|]; cbn [digits2_pos].
  - rewrite Pos2Z.inj_succ. change (Z.pos p~1) with (2 * Z.pos p + 1).
    replace (Z.succ (Z.pos (digits2_pos p)) - 1) with (Z.succ (Z.pos (digits2_pos p) - 1)) by lia.
    rewrite !Z.pow_succ_r by lia.
    set (a := 2 ^ (Z.pos (digits2_pos p) - 1)) in *.
    set (b := 2 ^ Z.pos (digits2_pos p)) in *. lia.
  - rewrite Pos2Z.inj_succ. change (Z.pos p~0) with (2 * Z.pos p).
    replace (Z.succ (Z.pos (digits2_pos p)) - 1) with (Z.succ (Z.pos (digits2_pos p) - 1)) by lia.
    rewrite !Z.pow_succ_r by lia.
    set (a := 2 ^ (Z.pos (digits2_pos p) - 1)) in *.
    set (b := 2 ^ Z.pos (digits2_pos p)) in *. lia.
  - cbn. lia.
Qed.

Lemma Zdigits2_bounds m :
  0 < m -> 2 ^ (Zdigits2 m - 1) <= m < 2 ^ Zdigits2 m.
Proof.
  destruct m as [|p|p]; intros Hm; try lia. apply digits2_bounds.
Qed.

Lemma Zdigits2_pos m : 0 < m -> 0 < Zdigits2 m.
Proof. destruct m; intros; cbn; lia. Qed.

Lemma Zdigits2_unique m k :
  0 < m -> 2 ^ (k - 1) <= m < 2 ^ k -> Zdigits2 m = k.
Proof.
  intros Hm [Hlo Hhi].
  pose proof (Zdigits2_bounds m Hm) as [Dlo Dhi].
  pose proof (Zdigits2_pos m Hm) as Dpos.
  assert (0 < k).
  { destruct (Z_lt_le_dec 0 k); [assumption|]. exfalso.
    assert (2 ^ k <= 1).
    { destruct (Z.eq_dec k 0) as [->|]; [cbn; lia|rewrite Z.pow_neg_r by lia; lia]. }
    lia. }
  assert (Zdigits2 m - 1 < k).
  { apply (Z.pow_lt_mono_r_iff 2); lia. }
  assert (k - 1 < Zdigits2 m).
  { apply (Z.pow_lt_mono_r_iff 2); lia. }
  lia.
Qed.

Lemma fexp_64 k : fexp prec emax k = Z.max (k - 53) (-1074).
Proof. reflexivity. Qed.

Lemma shr_fexp_spec m e l :
  0 <= m ->
  let n := Z.max 0 (fexp prec emax (Zdigits2 m + e) - e) in
  shr_m (fst (shr_fexp prec emax m e l)) = m / 2 ^ n
  /\ snd (shr_fexp prec emax m e l) = e + n.
Proof.
  intros Hm n. unfold shr_fexp.
  pose proof (shr_spec (shr_record_of_loc m l) e
                (fexp prec emax (Zdigits2 m + e) - e)) as H.
  rewrite shr_record_of_loc_m in H. now apply H.
Qed.

Lemma round_nearest_even_cases m l :
  round_nearest_even m l = m \/ round_nearest_even m l = m + 1.
Proof.
  destruct l as [|[]]; cbn; auto. destruct (Z.even m); auto.
Qed.

Lemma pow2_le_mono a b : a <= b -> 2 ^ a <= 2 ^ b.
Proof.
  intros Hab. destruct (Z_lt_le_dec a 0).
  - rewrite (Z.pow_neg_r 2 a) by lia. apply Z.pow_nonneg. lia.
  - apply Z.pow_le_mono_r; lia.
Qed.

Lemma pow2_split a b : 0 <= a -> 0 <= b -> 2 ^ (a + b) = 2 ^ a * 2 ^ b.
Proof. intros. apply Z.pow_add_r; lia. Qed.

(** One normalising shift keeps a value that is at least 1 so, and leaves
    a mantissa below 2^53. *)
Lemma shr_fexp_at_least_one m e l :
  at_least_one m e ->
  at_least_one (shr_m (fst (shr_fexp prec emax m e l))) (snd (shr_fexp prec emax m e l))
  /\ shr_m (fst (shr_fexp prec emax m e l)) < 2 ^ 53.
Proof.
  intros [Hm Hbig].
  destruct (shr_fexp_spec m e l ltac:(lia)) as [Hq He]. rewrite Hq, He.
  pose proof (Zdigits2_bounds m Hm) as [Dlo Dhi].
  pose proof (Zdigits2_pos m Hm) as Dpos.
  set (d := Zdigits2 m) in *.
  assert (Hde : 1 <= d + e).
  { destruct (Z_lt_le_dec (- e) 0); [lia|].
    assert (- e < d) by (apply (Z.pow_lt_mono_r_iff 2); lia). lia. }
  rewrite fexp_64. replace (Z.max (d + e - 53) (-1074) - e) with (d - 53) by lia.
  destruct (Z_le_gt_dec d 53) as [Hd|Hd].
  - replace (Z.max 0 (d - 53)) with 0 by lia.
    rewrite Z.div_1_r, Z.add_0_r. split; [split; assumption|].
    pose proof (pow2_le_mono d 53 Hd). lia.
  - replace (Z.max 0 (d - 53)) with (d - 53) by lia.
    assert (Hn : 0 < 2 ^ (d - 53)) by (apply Z.pow_pos_nonneg; lia).
    assert (Hlo : 2 ^ 52 <= m / 2 ^ (d - 53)).
    { apply Z.div_le_lower_bound; [exact Hn|].
      rewrite <- pow2_split by lia. replace (d - 53 + 52) with (d - 1) by lia.
      exact Dlo. }
    assert (Hhi : m / 2 ^ (d - 53) < 2 ^ 53).
    { apply Z.div_lt_upper_bound; [exact Hn|].
      rewrite <- pow2_split by lia. replace (d - 53 + 53) with d by lia.
      exact Dhi. }
    split; [|exact Hhi]. split; [lia|].
    pose proof (pow2_le_mono (- (e + (d - 53))) 52 ltac:(lia)). lia.
Qed.

Lemma leb_one_finite m e :
  Z.pos m < 2 ^ 53 -> at_least_one (Z.pos m) e ->
  SFleb one_sf (S754_finite false m e) = true.
Proof.
  intros Hhi [_ Hbig]. unfold SFleb, SFcompare, one_sf.
  assert (He : -52 <= e).
  { destruct (Z_lt_le_dec (- e) 0); [lia|].
    assert (- e < 53) by (apply (Z.pow_lt_mono_r_iff 2); lia). lia. }
  destruct (Z.compare_spec (-52) e) as [Heq|Hlt|Hgt]; [|reflexivity|lia].
  subst e. change (2 ^ (- -52)) with (Z.pos 4503599627370496) in Hbig.
  change (Pos.compare_cont Eq 4503599627370496 m)
    with (Pos.compare 4503599627370496 m).
  destruct (Pos.compare_spec 4503599627370496 m) as [Hc|Hc|Hc];
    [reflexivity|reflexivity|].
  exfalso. apply Pos.lt_nle in Hc. apply Hc. exact Hbig.
Qed.

(** Rounding a value that is at least 1 gives a result that is at least
    1. *)
Lemma binary_round_aux_ge_one mx ex lx :
  at_least_one mx ex ->
  SFleb one_sf (binary_round_aux prec emax false mx ex lx) = true.
Proof.
  intros H1. unfold binary_round_aux.
  pose proof (shr_fexp_at_least_one mx ex lx H1) as [[Hpos1 Hbig1] Hlt1].
  destruct (shr_fexp prec emax mx ex lx) as [mrs' e'] eqn:E1. cbn [fst snd] in *.
  set (m2 := round_nearest_even (shr_m mrs') (loc_of_shr_record mrs')).
  assert (H2 : at_least_one m2 e').
  { destruct (round_nearest_even_cases (shr_m mrs') (loc_of_shr_record mrs')) as [R|R];
      unfold m2; rewrite R; split; lia. }
  pose proof (shr_fexp_at_least_one m2 e' loc_Exact H2) as [[Hpos3 Hbig3] Hlt3].
  destruct (shr_fexp prec emax m2 e' loc_Exact) as [mrs'' e''] eqn:E2.
  cbn [fst snd] in *.
  destruct (shr_m mrs'') as [|m|m] eqn:E3; try lia.
  destruct (e'' <=? emax - prec); [|reflexivity].
  apply leb_one_finite; [exact Hlt3|split; assumption].
Qed.

(** Rounding a mantissa that is not negative never gives [NaN]. *)
Lemma binary_round_aux_not_nan s mx ex lx :
  0 <= mx -> binary_round_aux prec emax s mx ex lx <> S754_nan.
Proof.
  intros H0. unfold binary_round_aux.
  destruct (shr_fexp_spec mx ex lx H0) as [Hq1 _].
  destruct (shr_fexp prec emax mx ex lx) as [mrs' e']. cbn [fst] in Hq1.
  set (m2 := round_nearest_even (shr_m mrs') (loc_of_shr_record mrs')).
  assert (H2 : 0 <= m2).
  { assert (0 <= shr_m mrs') by (rewrite Hq1; apply Z.div_pos; [lia|apply Z.pow_pos_nonneg; lia]).
    destruct (round_nearest_even_cases (shr_m mrs') (loc_of_shr_record mrs')) as [R|R];
      unfold m2; rewrite R; lia. }
  destruct (shr_fexp_spec m2 e' loc_Exact H2) as [Hq3 _].
  destruct (shr_fexp prec emax m2 e' loc_Exact) as [mrs'' e'']. cbn [fst] in Hq3.
  assert (0 <= shr_m mrs'') by (rewrite Hq3; apply Z.div_pos; [lia|apply Z.pow_pos_nonneg; lia]).
  destruct (shr_m mrs'') as [|m|m]; try lia.
  - discriminate.
  - destruct (e'' <=? emax - prec); discriminate.
Qed.

(** What [valid_binary] says of a finite binary64 value. *)
Lemma valid_finite s m e :
  valid_binary (S754_finite s m e) = true ->
  Z.pos m < 2 ^ 53 /\ -1074 <= e /\ (-1074 < e -> 2 ^ 52 <= Z.pos m).
Proof.
  unfold valid_binary, bounded, canonical_mantissa. intros H.
  apply andb_true_iff in H. destruct H as [H _]. apply Z.eqb_eq in H.
  rewrite fexp_64 in H.
  pose proof (digits2_bounds m) as [Dlo Dhi].
  set (d := Z.pos (digits2_pos m)) in *.
  assert (Hd : d <= 53) by lia.
  split; [|split].
  - pose proof (pow2_le_mono d 53 Hd). lia.
  - lia.
  - intros He. assert (d = 53) by lia.
    replace (2 ^ 52) with (2 ^ (d - 1)) by (f_equal; lia). exact Dlo.
Qed.

Lemma leb_one_inv m e :
  SFleb one_sf (S754_finite false m e) = true ->
  -52 < e \/ (e = -52 /\ 2 ^ 52 <= Z.pos m).
Proof.
  unfold SFleb, SFcompare, one_sf.
  destruct (Z.compare_spec (-52) e) as [Heq|Hlt|Hgt]; intros H.
  - right. split; [lia|].
    change (Pos.compare_cont Eq 4503599627370496 m)
      with (Pos.compare 4503599627370496 m) in H.
    destruct (Pos.compare_spec 4503599627370496 m) as [Hc|Hc|Hc]; try discriminate H.
    + subst m. apply Z.le_refl.
    + apply Pos.lt_le_incl in Hc. exact Hc.
  - left. exact Hlt.
  - discriminate H.
Qed.

Lemma ge_one_at_least_one m e :
  valid_binary (S754_finite false m e) = true ->
  SFleb one_sf (S754_finite false m e) = true ->
  at_least_one (Z.pos m) e.
Proof.
  intros Hv Hle. destruct (valid_finite _ _ _ Hv) as [_ [_ Hnorm]].
  split; [lia|].
  destruct (leb_one_inv m e Hle) as [He|[He Hm]].
  - destruct (Z_le_gt_dec 0 e).
    + pose proof (pow2_le_mono (- e) 0 ltac:(lia)) as Hp.
      change (2 ^ 0) with 1 in Hp. lia.
    + pose proof (pow2_le_mono (- e) 52 ltac:(lia)).
      pose proof (Hnorm ltac:(lia)). lia.
  - subst e. exact Hm.
Qed.

(** *** Multiplying by 1, dividing, taking a square root *)

Lemma SFmul_one_ge_one x :
  valid_binary x = true ->
  SFleb one_sf x = true ->
  SFleb one_sf (SFmul prec emax one_sf x) = true.
Proof.
  intros Hv Hle. destruct x as [s|[]|  |[] m e]; try discriminate Hle.
  - reflexivity.
  - destruct (ge_one_at_least_one m e Hv Hle) as [_ Hbig].
    cbn [SFmul one_sf xorb]. apply binary_round_aux_ge_one.
    rewrite Pos2Z.inj_mul. change (Z.pos 4503599627370496) with (2 ^ 52).
    assert (0 < 2 ^ 52) by reflexivity.
    split; [lia|].
    destruct (Z_le_gt_dec e 0).
    + replace (- (-52 + e)) with (52 + - e) by lia.
      rewrite pow2_split by lia. apply Z.mul_le_mono_nonneg_l; lia.
    + pose proof (pow2_le_mono (- (-52 + e)) 52 ltac:(lia)).
      assert (2 ^ 52 * 1 <= 2 ^ 52 * Z.pos m) by (apply Z.mul_le_mono_nonneg_l; lia).
      lia.
Qed.

Lemma SFleb_finite_inv my ey mx ex :
  SFleb (S754_finite false my ey) (S754_finite false mx ex) = true ->
  ey < ex \/ (ey = ex /\ Z.pos my <= Z.pos mx).
Proof.
  unfold SFleb, SFcompare.
  destruct (Z.compare_spec ey ex) as [Heq|Hlt|Hgt]; intros H.
  - right. split; [exact Heq|].
    change (Pos.compare_cont Eq my mx) with (Pos.compare my mx) in H.
    destruct (Pos.compare_spec my mx) as [Hc|Hc|Hc]; try discriminate H.
    + subst. apply Z.le_refl.
    + apply Pos.lt_le_incl in Hc. exact Hc.
  - left. exact Hlt.
  - discriminate H.
Qed.

Lemma SFdiv_ge_one mx ex my ey :
  valid_binary (S754_finite false mx ex) = true ->
  valid_binary (S754_finite false my ey) = true ->
  SFleb (S754_finite false my ey) (S754_finite false mx ex) = true ->
  SFleb one_sf (SFdiv prec emax (S754_finite false mx ex) (S754_finite false my ey)) = true.
Proof.
  intros Hvx Hvy Hle.
  destruct (valid_finite _ _ _ Hvx) as [Hxhi [Hxe Hxnorm]].
  destruct (valid_finite _ _ _ Hvy) as [Hyhi [Hye Hynorm]].
  (* the divisor does not exceed the aligned dividend *)
  assert (Hal : 0 <= ex - ey /\ Z.pos my <= Z.pos mx * 2 ^ (ex - ey)).
  { destruct (SFleb_finite_inv _ _ _ _ Hle) as [He|[He Hm]].
    - split; [lia|]. pose proof (Hxnorm ltac:(lia)) as Hx52.
      pose proof (pow2_le_mono 1 (ex - ey) ltac:(lia)) as Hp.
      change (2 ^ 1) with 2 in Hp.
      assert (2 ^ 52 * 2 <= Z.pos mx * 2 ^ (ex - ey)) by (apply Z.mul_le_mono_nonneg; lia).
      change (2 ^ 53) with (2 ^ 52 * 2) in Hyhi. lia.
    - subst ey. rewrite Z.sub_diag. change (2 ^ 0) with 1. lia. }
  destruct Hal as [Hexy Hal].
  cbn [SFdiv xorb]. unfold SFdiv_core_binary.
  set (d1 := Zdigits2 (Z.pos mx)). set (d2 := Zdigits2 (Z.pos my)).
  set (e' := Z.min (fexp prec emax (d1 + ex - (d2 + ey))) (ex - ey)).
  set (s := ex - ey - e').
  assert (Hs : 0 <= s) by (unfold s, e'; lia).
  assert (Hm' : match s with
                | Z.pos _ => Z.shiftl (Z.pos mx) s
                | 0 => Z.pos mx
                | Z.neg _ => 0
                end = Z.pos mx * 2 ^ s).
  { destruct s as [|p|p] eqn:Es; [lia|apply Z.shiftl_mul_pow2; lia|lia]. }
  rewrite Hm'.
  pose proof (Z_div_mod (Z.pos mx * 2 ^ s) (Z.pos my) ltac:(lia)) as Hdm.
  destruct (Z.div_eucl (Z.pos mx * 2 ^ s) (Z.pos my)) as [q r] eqn:Eq.
  apply binary_round_aux_ge_one.
  assert (Hq : q = Z.pos mx * 2 ^ s / Z.pos my).
  { unfold Z.div. now rewrite Eq. }
  destruct (Z_le_gt_dec e' 0) as [He'|He'].
  - (* the quotient is at least 2^(-e') *)
    assert (Hlow : 2 ^ (- e') <= q).
    { rewrite Hq. apply Z.div_le_lower_bound; [lia|].
      replace s with (ex - ey + - e') by (unfold s; lia).
      rewrite pow2_split by lia. rewrite Z.mul_assoc.
      apply Z.mul_le_mono_nonneg_r; [apply Z.pow_nonneg; lia|exact Hal]. }
    assert (0 < 2 ^ (- e')) by (apply Z.pow_pos_nonneg; lia).
    split; lia.
  - (* a positive exponent: the quotient is at least 1 *)
    assert (Hd1 : d1 <= 53).
    { pose proof (Zdigits2_bounds (Z.pos mx) ltac:(lia)) as [Dlo _]. fold d1 in Dlo.
      destruct (Z_le_gt_dec d1 53); [assumption|exfalso].
      pose proof (pow2_le_mono 53 (d1 - 1) ltac:(lia)). lia. }
    pose proof (Zdigits2_bounds (Z.pos my) ltac:(lia)) as [_ D2hi]. fold d2 in D2hi.
    pose proof (Zdigits2_pos (Z.pos my) ltac:(lia)) as D2pos. fold d2 in D2pos.
    assert (Hsd : d2 <= s).
    { unfold s. unfold e' in He' |- *. rewrite fexp_64 in *. lia. }
    assert (Hge : Z.pos my * 1 <= Z.pos mx * 2 ^ s).
    { pose proof (pow2_le_mono d2 s Hsd).
      assert (1 * 2 ^ s <= Z.pos mx * 2 ^ s)
        by (apply Z.mul_le_mono_nonneg_r; [apply Z.pow_nonneg|]; lia).
      lia. }
    assert (1 <= q).
    { rewrite Hq. apply Z.div_le_lower_bound; lia. }
    unfold at_least_one. rewrite (Z.pow_neg_r 2 (- e')) by lia. split; lia.
Qed.

Lemma SFsqrt_ge_one x :
  valid_binary x = true ->
  SFleb one_sf x = true ->
  SFleb one_sf (SFsqrt prec emax x) = true.
Proof.
  intros Hv Hle. destruct x as [s|[]|  |[] mx ex]; try discriminate Hle.
  - reflexivity.
  - destruct (ge_one_at_least_one mx ex Hv Hle) as [_ Hbig].
    cbn [SFsqrt]. unfold SFsqrt_core_binary.
    set (d := Zdigits2 (Z.pos mx)).
    set (e' := Z.min (fexp prec emax (Z.div2 (d + ex + 1))) (Z.div2 ex)).
    set (s := ex - 2 * e').
    assert (Hs : 0 <= s).
    { unfold s, e'. pose proof (Z.div2_div ex).
      assert (2 * Z.div2 ex <= ex) by (rewrite Z.div2_div; Z.div_mod_to_equations; lia).
      lia. }
    assert (Hm' : match s with
                  | Z.pos _ => Z.shiftl (Z.pos mx) s
                  | 0 => Z.pos mx
                  | Z.neg _ => 0
                  end = Z.pos mx * 2 ^ s).
    { destruct s as [|p|p] eqn:Es; [lia|apply Z.shiftl_mul_pow2; lia|lia]. }
    rewrite Hm'.
    assert (Hm1 : 1 <= Z.pos mx * 2 ^ s).
    { assert (0 < 2 ^ s) by (apply Z.pow_pos_nonneg; lia). nia. }
    pose proof (Z.sqrtrem_sqrt (Z.pos mx * 2 ^ s)) as Hsq.
    destruct (Z.sqrtrem (Z.pos mx * 2 ^ s)) as [q r] eqn:Eq. cbn [fst] in Hsq.
    apply binary_round_aux_ge_one.
    assert (Hq1 : 1 <= q).
    { rewrite Hsq. change 1 with (Z.sqrt 1). apply Z.sqrt_le_mono. exact Hm1. }
    destruct (Z_le_gt_dec 0 e') as [He'|He'].
    + pose proof (pow2_le_mono (- e') 0 ltac:(lia)) as Hp.
      change (2 ^ 0) with 1 in Hp. split; lia.
    + assert (Hlow : 2 ^ (- e') <= q).
      { rewrite Hsq. apply Z.sqrt_le_square; [lia|apply Z.pow_nonneg; lia|].
        rewrite <- pow2_split by lia.
        destruct (Z_le_gt_dec 0 ex) as [Hex|Hex].
        - replace s with (ex + (- e' + - e')) by (unfold s; lia).
          rewrite (pow2_split ex) by lia.
          assert (1 <= 2 ^ ex) by (apply Z.lt_pred_le, Z.pow_pos_nonneg; lia).
          assert (0 < 2 ^ (- e' + - e')) by (apply Z.pow_pos_nonneg; lia).
          set (A := 2 ^ (- e' + - e')) in *. set (B := 2 ^ ex) in *.
          assert (1 * 1 <= Z.pos mx * B) by (apply Z.mul_le_mono_nonneg; lia).
          rewrite Z.mul_assoc.
          assert (1 * A <= Z.pos mx * B * A) by (apply Z.mul_le_mono_nonneg_r; lia).
          lia.
        - replace (- e' + - e') with (- ex + s) by (unfold s; lia).
          rewrite pow2_split by lia.
          apply Z.mul_le_mono_nonneg_r; [apply Z.pow_nonneg; lia|exact Hbig]. }
      split; lia.
Qed.

(** *** Comparisons *)

Lemma SFcompare_refl x : x <> S754_nan -> SFcompare x x = Some Eq.
Proof.
  destruct x as [s|s| |s m e]; intros H; try congruence.
  - reflexivity.
  - destruct s; reflexivity.
  - destruct s; cbn [SFcompare]; rewrite Z.compare_refl;
      change (Pos.compare_cont Eq m m) with (Pos.compare m m);
      rewrite Pos.compare_refl; reflexivity.
Qed.

Lemma SFcompare_antisym x y :
  SFcompare y x = option_map CompOpp (SFcompare x y).
Proof.
  destruct x as [sx|sx| |sx mx ex], y as [sy|sy| |sy my ey]; cbn;
    try reflexivity; try (destruct sx; reflexivity); try (destruct sy; reflexivity);
    try (destruct sx, sy; reflexivity).
  change (Pos.compare_cont Eq my mx) with (Pos.compare my mx).
  change (Pos.compare_cont Eq mx my) with (Pos.compare mx my).
  rewrite (Z.compare_antisym ex ey), (Pos.compare_antisym mx my).
  destruct sx, sy; cbn; try reflexivity;
    destruct (ex ?= ey); cbn; try reflexivity;
    destruct (mx ?= my)%positive; reflexivity.
Qed.

Lemma SFcompare_some x y :
  x <> S754_nan -> y <> S754_nan -> exists c, SFcompare x y = Some c.
Proof.
  destruct x as [sx|sx| |sx mx ex], y as [sy|sy| |sy my ey]; intros Hx Hy;
    try congruence; cbn; eexists; reflexivity.
Qed.

Lemma is_nan_spec x : is_nan x = true <-> Prim2SF x = S754_nan.
Proof.
  unfold is_nan. rewrite eqb_spec. unfold SFeqb. split.
  - intros H. destruct (Prim2SF x) eqn:E; try reflexivity;
      rewrite SFcompare_refl in H by discriminate; discriminate H.
  - intros ->. reflexivity.
Qed.

Lemma not_nan_spec x : is_nan x = false <-> Prim2SF x <> S754_nan.
Proof.
  rewrite <- is_nan_spec. destruct (is_nan x); split; congruence.
Qed.

Lemma leb_not_nan x y :
  (x <=? y)%float = true -> is_nan x = false /\ is_nan y = false.
Proof.
  rewrite leb_spec, !not_nan_spec. unfold SFleb. intros H.
  split; intros E; rewrite E in H; [|destruct (Prim2SF x)]; discriminate H.
Qed.

Lemma ltb_not_nan x y :
  (x <? y)%float = true -> is_nan x = false /\ is_nan y = false.
Proof.
  rewrite ltb_spec, !not_nan_spec. unfold SFltb. intros H.
  split; intros E; rewrite E in H; [|destruct (Prim2SF x)]; discriminate H.
Qed.

Lemma leb_of_ltb x y : (x <? y)%float = true -> (x <=? y)%float = true.
Proof.
  rewrite ltb_spec, leb_spec. unfold SFltb, SFleb.
  destruct (SFcompare (Prim2SF x) (Prim2SF y)) as [[]|]; congruence.
Qed.

Lemma leb_refl x : is_nan x = false -> (x <=? x)%float = true.
Proof.
  rewrite not_nan_spec, leb_spec. unfold SFleb. intros H.
  now rewrite SFcompare_refl.
Qed.

(** Two Numbers, neither [NaN], of which neither is less than the other,
    are equal as Numbers. *)
Lemma leb_of_not_ltb x y :
  is_nan x = false -> is_nan y = false ->
  (x <? y)%float = false -> (y <? x)%float = false ->
  (x <=? y)%float = true /\ (y <=? x)%float = true.
Proof.
  rewrite !not_nan_spec, !ltb_spec, !leb_spec. unfold SFltb, SFleb.
  intros Hx Hy. rewrite (SFcompare_antisym (Prim2SF x) (Prim2SF y)).
  destruct (SFcompare_some _ _ Hx Hy) as [c ->]. cbn.
  destruct c; cbn; intros H1 H2; try discriminate; split; reflexivity.
Qed.

Lemma ltb_of_not_leb x y :
  is_nan x = false -> is_nan y = false ->
  (x <=? y)%float = false -> (y <? x)%float = true.
Proof.
  rewrite !not_nan_spec, !ltb_spec, !leb_spec. unfold SFltb, SFleb.
  intros Hx Hy. rewrite (SFcompare_antisym (Prim2SF x) (Prim2SF y)).
  destruct (SFcompare_some _ _ Hx Hy) as [c ->]. cbn.
  destruct c; cbn; intros H1; try discriminate; reflexivity.
Qed.

Lemma ltb_infinity x y : (x <? y)%float = true -> (x <? infinity)%float = true.
Proof.
  rewrite !ltb_spec. unfold SFltb. change (Prim2SF infinity) with (S754_infinity false).
  destruct (Prim2SF x) as [sx|sx| |sx mx ex], (Prim2SF y) as [sy|sy| |sy my ey]; cbn;
    try discriminate; try reflexivity; destruct sx; try discriminate; try reflexivity;
    destruct sy; discriminate.
Qed.

(** *** [Math.max] and [Math.min] *)

Lemma max_spec x y :
  is_nan x = false -> is_nan y = false ->
  (JSNum.max x y = x \/ JSNum.max x y = y)
  /\ (x <=? JSNum.max x y)%float = true
  /\ (y <=? JSNum.max x y)%float = true.
Proof.
  intros Hx Hy. unfold JSNum.max. rewrite Hx, Hy. cbn [orb].
  destruct (x <? y)%float eqn:Hxy.
  - split; [now right|]. split; [now apply leb_of_ltb|now apply leb_refl].
  - destruct (y <? x)%float eqn:Hyx.
    + split; [now left|]. split; [now apply leb_refl|now apply leb_of_ltb].
    + destruct (leb_of_not_ltb x y Hx Hy Hxy Hyx) as [H1 H2].
      destruct (JSNum.is_neg_zero x).
      * split; [now right|]. split; [exact H1|now apply leb_refl].
      * split; [now left|]. split; [now apply leb_refl|exact H2].
Qed.

Lemma min_spec x y :
  is_nan x = false -> is_nan y = false ->
  (JSNum.min x y = x \/ JSNum.min x y = y)
  /\ (JSNum.min x y <=? x)%float = true
  /\ (JSNum.min x y <=? y)%float = true.
Proof.
  intros Hx Hy. unfold JSNum.min. rewrite Hx, Hy. cbn [orb].
  destruct (x <? y)%float eqn:Hxy.
  - split; [now left|]. split; [now apply leb_refl|now apply leb_of_ltb].
  - destruct (y <? x)%float eqn:Hyx.
    + split; [now right|]. split; [now apply leb_of_ltb|now apply leb_refl].
    + destruct (leb_of_not_ltb x y Hx Hy Hxy Hyx) as [H1 H2].
      destruct (JSNum.is_neg_zero x).
      * split; [now left|]. split; [now apply leb_refl|exact H1].
      * split; [now right|]. split; [exact H2|now apply leb_refl].
Qed.

(** *** Numbers that are at least 1 *)

(** Replace [Prim2SF] of a literal by its value. *)
Ltac sf_const x :=
  let c := eval vm_compute in (Prim2SF x) in change (Prim2SF x) with c.

Lemma Prim2SF_one : Prim2SF 1 = one_sf.
Proof. reflexivity. Qed.

Lemma mul_one_ge_one x : (1 <=? x)%float = true -> (1 <=? 1 * x)%float = true.
Proof.
  rewrite !leb_spec, mul_spec, Prim2SF_one. intros H.
  apply SFmul_one_ge_one; [apply Prim2SF_valid|exact H].
Qed.

Lemma sqrt_ge_one x : (1 <=? x)%float = true -> (1 <=? sqrt x)%float = true.
Proof.
  rewrite !leb_spec, sqrt_spec, Prim2SF_one. intros H.
  apply SFsqrt_ge_one; [apply Prim2SF_valid|exact H].
Qed.

(** A quotient of a Number by a smaller positive finite one. *)
Lemma div_ge_one p m :
  (0 <? m)%float = true -> (m <? infinity)%float = true ->
  (m <=? p)%float = true ->
  (1 <=? p / m)%float = true.
Proof.
  rewrite !ltb_spec, !leb_spec, div_spec, Prim2SF_one.
  sf_const (0)%float.
  sf_const (infinity)%float.
  pose proof (Prim2SF_valid m) as Hvm. pose proof (Prim2SF_valid p) as Hvp.
  destruct (Prim2SF m) as [sm|sm| |sm mm em]; intros H0 Hinf Hle;
    try discriminate H0; try (destruct sm; discriminate).
  destruct sm; [discriminate H0|].
  destruct (Prim2SF p) as [sp|sp| |sp mp ep]; try discriminate Hle.
  - destruct sp; [discriminate Hle|reflexivity].
  - destruct sp; [discriminate Hle|].
    now apply SFdiv_ge_one.
Qed.

(** *** Results that are not [NaN] *)

Lemma binary_normalize_not_nan m e sz :
  binary_normalize prec emax m e sz <> S754_nan.
Proof.
  unfold binary_normalize, binary_round.
  destruct m as [|p|p]; [discriminate| |].
  - destruct (shl_align p e _) as [mz ez]. apply binary_round_aux_not_nan. lia.
  - destruct (shl_align p e _) as [mz ez]. apply binary_round_aux_not_nan. lia.
Qed.

(** A product with the finite Number 7 is [NaN] only for [NaN]. *)
Lemma mul_7_not_nan t : is_nan t = false -> is_nan (7 * t)%float = false.
Proof.
  rewrite !not_nan_spec, mul_spec. intros Ht.
  sf_const (7)%float.
  destruct (Prim2SF t) as [s|s| |s m e]; try congruence; cbn [SFmul SF64mul];
    try discriminate.
  unfold SF64mul. cbn [SFmul]. apply binary_round_aux_not_nan. lia.
Qed.

(** Subtracting 1 from a Number above 3 does not give [NaN]. *)
Lemma sub_one_not_nan x : (3 <? x)%float = true -> is_nan (x - 1)%float = false.
Proof.
  rewrite not_nan_spec, ltb_spec, sub_spec, Prim2SF_one. unfold SFltb, one_sf.
  sf_const (3)%float.
  destruct (Prim2SF x) as [s|s| |s m e]; cbn [SFcompare]; intros H;
    try discriminate H.
  - destruct s; [discriminate H|]. discriminate.
  - unfold SF64sub. cbn [SFsub]. apply binary_normalize_not_nan.
Qed.

(** From 6 upwards is from a millionth upwards. *)
Lemma leb_6_millionth p : (6 <=? p)%float = true -> (1e-6 <=? p)%float = true.
Proof.
  rewrite !leb_spec. unfold SFleb.
  sf_const (6)%float.
  sf_const (1e-6)%float.
  destruct (Prim2SF p) as [s|s| |s m e]; cbn [SFcompare]; try (intros H; exact H).
  destruct s; [intros H; exact H|].
  destruct (Z.compare_spec (-50) e) as [He|He|He]; intros H; try discriminate H.
  - subst e. reflexivity.
  - replace (-72 ?= e) with Lt by (symmetry; apply Z.compare_lt_iff; lia). reflexivity.
Qed.

Lemma ltb_0_of_millionth m : (1e-6 <=? m)%float = true -> (0 <? m)%float = true.
Proof.
  rewrite leb_spec, ltb_spec. unfold SFleb, SFltb.
  sf_const (0)%float.
  sf_const (1e-6)%float.
  destruct (Prim2SF m) as [s|s| |s mm e]; cbn [SFcompare]; try discriminate.
  - destruct s; [discriminate|reflexivity].
  - destruct s; [discriminate|reflexivity].
Qed.

(** *** One corrective step on [ampScale] *)

(** When the gap [g] is a Number short of a bound [p] of 6 at least, the
    scale [min(1.25, 1.0 * sqrt(p / max(g, 1e-6)))] lies in [1, 1.25]. *)
Lemma ampScale_step_bounds p g :
  (6 <=? p)%float = true -> is_nan g = false -> (p <=? g)%float = false ->
  let a := JSNum.min 1.25 (1.0 * sqrt (p / JSNum.max g 1e-6))%float in
  (1 <=? a)%float = true /\ (a <=? 1.25)%float = true.
Proof.
  intros Hp Hg Hpg a.
  destruct (leb_not_nan _ _ Hp) as [_ Hpn].
  pose proof (ltb_of_not_leb p g Hpn Hg Hpg) as Hlt.
  destruct (max_spec g 1e-6 Hg eq_refl) as [Hm [_ Hm6]].
  set (m := JSNum.max g 1e-6) in *.
  assert (Hmp : (m <? infinity)%float = true /\ (m <=? p)%float = true).
  { destruct Hm as [-> | ->].
    - split; [now apply (ltb_infinity g p)|now apply leb_of_ltb].
    - split; [reflexivity|now apply leb_6_millionth]. }
  destruct Hmp as [Hminf Hmle].
  assert (Hq : (1 <=? 1.0 * sqrt (p / m))%float = true).
  { apply mul_one_ge_one, sqrt_ge_one, div_ge_one; try assumption.
    now apply ltb_0_of_millionth. }
  destruct (leb_not_nan _ _ Hq) as [_ Hqn].
  destruct (min_spec 1.25 (1.0 * sqrt (p / m))%float eq_refl Hqn) as [Ha [Ha1 _]].
  fold a in Ha, Ha1. split; [|exact Ha1].
  destruct Ha as [-> | ->]; [reflexivity|exact Hq].
Qed.

(** ** The wave tuner *)

Lemma tuneWaves_unfold E freq1 amplitude curveMaxPx thickness :
  let P := JSNum.max (7.0 * thickness)%float 6.0%float in
  let st0 := {| f1 := freq1; gamma := 1.35%float; ampScale := 1.0%float |} in
  let g0 := minGap_of E amplitude curveMaxPx st0 in
  let st1 := correct 0 P g0 st0 in
  let g1 := minGap_of E amplitude curveMaxPx st1 in
  let st2 := correct 1 P g1 st1 in
  let g2 := minGap_of E amplitude curveMaxPx st2 in
  let st3 := correct 2 P g2 st2 in
  tuneWaves E freq1 amplitude curveMaxPx thickness
  = if (P <=? g0)%float then st0
    else if (P <=? g1)%float then st1
    else if (P <=? g2)%float then st2
    else st3.
Proof. reflexivity. Qed.

(** C8, as the code has it. [tuneWaves] always returns, after at most three
    iterations, each of which either stops or applies its one corrective
    step: iteration 0 sets [ampScale] to
    [min(1.25, 1.0 * sqrt(minGapPx / max(minGap, 1e-6)))], iteration 1 sets
    [gamma] to [min(1.7, 1.35 + 0.2)], iteration 2 sets [f1] to
    [max(3, f1 - 1)] if [f1 > 3].  For every input with [freq1 >= 3], a
    thickness that is not [NaN] and a first measured gap that is not [NaN],
    the result has [f1 >= 3], [1.35 <= gamma <= 1.7] and
    [1.0 <= ampScale <= 1.25]. *)
Theorem tuneWaves_bounds (E : Engine) (freq1 amplitude curveMaxPx thickness : float) :
  (3 <=? freq1)%float = true ->
  is_nan thickness = false ->
  is_nan (minGap_of E amplitude curveMaxPx
            {| f1 := freq1; gamma := 1.35%float; ampScale := 1.0%float |}) = false ->
  let T := tuneWaves E freq1 amplitude curveMaxPx thickness in
  let P := JSNum.max (7.0 * thickness)%float 6.0%float in
  let st0 := {| f1 := freq1; gamma := 1.35%float; ampScale := 1.0%float |} in
  let g0 := minGap_of E amplitude curveMaxPx st0 in
  let st1 :=
    {| f1 := freq1; gamma := 1.35%float;
       ampScale := JSNum.min 1.25 (1.0 * sqrt (P / JSNum.max g0 1e-6))%float |} in
  let st2 :=
    {| f1 := freq1; gamma := JSNum.min 1.7 (1.35 + 0.2)%float;
       ampScale := ampScale st1 |} in
  let st3 :=
    {| f1 := if (3 <? freq1)%float then JSNum.max 3 (freq1 - 1)%float else freq1;
       gamma := gamma st2; ampScale := ampScale st1 |} in
  (T = if (P <=? g0)%float then st0
       else if (P <=? minGap_of E amplitude curveMaxPx st1)%float then st1
       else if (P <=? minGap_of E amplitude curveMaxPx st2)%float then st2
       else st3)
  /\ (3 <=? f1 T)%float = true
  /\ (1.35 <=? gamma T)%float = true /\ (gamma T <=? 1.7)%float = true
  /\ (1.0 <=? ampScale T)%float = true /\ (ampScale T <=? 1.25)%float = true.
Proof.
  intros Hf Ht Hg T P st0 g0 st1 st2 st3.
  assert (HT : T = if (P <=? g0)%float then st0
                   else if (P <=? minGap_of E amplitude curveMaxPx st1)%float then st1
                   else if (P <=? minGap_of E amplitude curveMaxPx st2)%float then st2
                   else st3).
  { unfold T. rewrite tuneWaves_unfold. cbv zeta. fold P. fold st0. fold g0.
    destruct (P <=? g0)%float; [reflexivity|].
    change (correct 0 P g0 st0) with st1.
    destruct (P <=? minGap_of E amplitude curveMaxPx st1)%float; [reflexivity|].
    change (correct 1 P (minGap_of E amplitude curveMaxPx st1) st1) with st2.
    destruct (P <=? minGap_of E amplitude curveMaxPx st2)%float; [reflexivity|].
    unfold st3, correct. cbn [Z.eqb Pos.eqb f1 st2].
    destruct (3 <? freq1)%float; reflexivity. }
  split; [exact HT|].
  assert (HP : (6 <=? P)%float = true).
  { destruct (max_spec (7.0 * thickness)%float 6.0%float (mul_7_not_nan _ Ht) eq_refl)
      as [_ [_ H6]]. exact H6. }
  destruct (leb_not_nan _ _ Hf) as [_ Hfn].
  assert (Hf3 : (3 <=? f1 st3)%float = true).
  { cbn [f1 st3]. destruct (3 <? freq1)%float eqn:H3; [|exact Hf].
    destruct (max_spec 3 (freq1 - 1)%float eq_refl (sub_one_not_nan _ H3))
      as [_ [Hle _]]. exact Hle. }
  rewrite HT. destruct (P <=? g0)%float eqn:H0.
  - repeat split; try reflexivity. exact Hf.
  - destruct (ampScale_step_bounds P g0 HP Hg H0) as [Ha1 Ha2].
    destruct (P <=? minGap_of E amplitude curveMaxPx st1)%float;
      [|destruct (P <=? minGap_of E amplitude curveMaxPx st2)%float];
      repeat split; try reflexivity; try exact Hf; try exact Hf3;
      try exact Ha1; exact Ha2.
Qed.

Lemma tuneWaves_bounds_witness :
  (3 <=? 4)%float = true
  /\ is_nan thickness = false
  /\ is_nan (minGap_of still_engine 0.5 39.6
               {| f1 := 4%float; gamma := 1.35%float; ampScale := 1.0%float |}) = false
  /\ tuneWaves still_engine 4 0.5 39.6 thickness
     = {| f1 := 3%float; gamma := 1.55%float; ampScale := 1.25%float |}
  /\ (3 <=? f1 (tuneWaves still_engine 4 0.5 39.6 thickness))%float = true
  /\ (1.0 <=? ampScale (tuneWaves still_engine 4 0.5 39.6 thickness))%float = true
  /\ (ampScale (tuneWaves still_engine 4 0.5 39.6 thickness) <=? 1.25)%float = true.
Proof.
  split; [reflexivity|]. split; [reflexivity|]. split; [reflexivity|].
  split; [reflexivity|].
  pose proof (tuneWaves_bounds still_engine 4 0.5 39.6 thickness eq_refl eq_refl eq_refl)
    as H.
  cbv zeta in H. destruct H as [_ [H1 [_ [_ [H2 H3]]]]].
  split; [exact H1|]. split; [exact H2|exact H3].
Defined.

(** *** [NaN] in, [NaN] out *)

Lemma mul_nan_r x : (x * nan)%float = nan.
Proof.
  rewrite <- (SF2Prim_Prim2SF (x * nan)), mul_spec.
  change (Prim2SF nan) with S754_nan.
  destruct (Prim2SF x) as [s|s| |s m e]; reflexivity.
Qed.

Lemma gap_at_nan E amplitude st i : gap_at E amplitude nan st i = nan.
Proof.
  unfold gap_at. cbv zeta. rewrite !mul_nan_r. reflexivity.
Qed.

Lemma min_nan_r m : JSNum.min m nan = nan.
Proof.
  unfold JSNum.min. change (is_nan nan) with true. now rewrite orb_true_r.
Qed.

Lemma minGap_of_nan E amplitude st : minGap_of E amplitude nan st = nan.
Proof.
  unfold minGap_of.
  assert (H : forall l m, l <> [] ->
            fold_left (fun minGap i => JSNum.min minGap (gap_at E amplitude nan st i)) l m
            = nan).
  { induction l as [|i l IH]; intros m Hl; [congruence|].
    cbn [fold_left]. rewrite gap_at_nan, min_nan_r.
    destruct l as [|j l]; [reflexivity|]. apply IH. discriminate. }
  apply H. discriminate.
Qed.

(** C8, as stated, fails when the curve bound is [NaN] (as it is for the
    sizes [Infinity] and [NaN]): on every engine the tuner then returns
    [NaN] for [ampScale], which is not within 1.0..1.25. *)
Lemma tuneWaves_nan_ampScale :
  (3 <=? 3)%float = true
  /\ (forall E, ampScale (tuneWaves E 3 0.5 nan thickness) = nan)
  /\ (1.0 <=? nan)%float = false.
Proof.
  split; [reflexivity|]. split; [|reflexivity].
  intros E. rewrite tuneWaves_unfold. cbv zeta.
  rewrite !minGap_of_nan. reflexivity.
Qed.
(** ** More on [parseBytes] *)

Lemma toLowerCase_length s : String.length (JSString.toLowerCase s) = String.length s.
Proof.
  induction s as [|c s IH]; [reflexivity|]. simpl. now rewrite IH.
Qed.

(** Induction over a string two characters at a time. *)
Lemma string_pairs_ind (P : string -> Prop) :
  P EmptyString ->
  (forall a, P (String a EmptyString)) ->
  (forall a b r, P r -> P (String a (String b r))) ->
  forall s, P s.
Proof.
  intros H0 H1 H2.
  assert (H : forall s, P s /\ forall c, P (String c s)).
  { induction s as [|c s [IHs IHc]].
    - split; [exact H0|exact H1].
    - split; [apply IHc|]. intros a. apply H2, IHs. }
  intros s. apply H.
Qed.

Lemma parseBytes_pairs_length s :
  List.length (parseBytes_pairs s) = Nat.div2 (String.length s).
Proof.
  induction s as [| a | a b r IH] using string_pairs_ind; [reflexivity..|].
  cbn [parseBytes_pairs List.length String.length Nat.div2]. now rewrite IH.
Qed.

(** X1. [parseBytes] returns one entry for every two characters of its
    argument, whatever they are, and drops a last odd character: the empty
    string and a single character give the empty array. *)
Theorem parseBytes_length (s : string) :
  List.length (parseBytes s) = Nat.div (String.length s) 2
  /\ parseBytes EmptyString = []
  /\ (forall c, parseBytes (String c EmptyString) = []).
Proof.
  assert (H : forall t, List.length (parseBytes t) = Nat.div (String.length t) 2).
  { intros t. unfold parseBytes.
    rewrite parseBytes_pairs_length, toLowerCase_length. apply Nat.div2_div. }
  split; [apply H|]. split; reflexivity.
Qed.

Lemma In_all_chars c : In c all_chars.
Proof.
  unfold all_chars. apply in_map_iff. exists (JSString.code c). split.
  - unfold JSString.of_code, JSString.code. rewrite N2Z.id. apply ascii_N_embedding.
  - apply In_upto. unfold JSString.code.
    pose proof (N_ascii_bounded c). lia.
Qed.

Lemma all_pairs_in_range :
  forallb (fun a => forallb (pair_in_range a) all_chars) all_chars = true.
Proof. vm_compute. reflexivity. Qed.

Lemma pair_value_range a b : -15 <= pair_value a b <= 255.
Proof.
  pose proof all_pairs_in_range as H.
  rewrite forallb_forall in H. specialize (H a (In_all_chars a)).
  rewrite forallb_forall in H. specialize (H b (In_all_chars b)).
  unfold pair_in_range in H. apply andb_true_iff in H. lia.
Qed.

Lemma parseBytes_pairs_lower_cons a b r :
  parseBytes_pairs (JSString.toLowerCase (String a (String b r)))
  = pair_value a b :: parseBytes_pairs (JSString.toLowerCase r).
Proof. reflexivity. Qed.

(** X2. [parseBytes] never fails and never yields [NaN]: every entry is an
    integer from -15 to 255, for every argument.  A pair that is no
    hexadecimal number gives 0, a pair with one leading digit gives that
    digit, and a minus sign before a digit gives a negative entry. *)
Theorem parseBytes_entries (s : string) :
  Forall (fun v => -15 <= v <= 255) (parseBytes s)
  /\ parseBytes "zz" = [0]
  /\ parseBytes "0x" = [0]
  /\ parseBytes "1g" = [1]
  /\ parseBytes " F" = [15]
  /\ parseBytes "-f" = [-15]
  /\ parseBytes "AbC" = [171].
Proof.
  split; [|repeat split; reflexivity].
  unfold parseBytes.
  induction s as [| a | a b r IH] using string_pairs_ind.
  - constructor.
  - constructor.
  - rewrite parseBytes_pairs_lower_cons. constructor; [apply pair_value_range|exact IH].
Qed.
(** *** Decoding and encoding *)

Lemma bytes_round_trip : forallb byte_round_trip (upto 256) = true.
Proof. vm_compute. reflexivity. Qed.

Lemma byte_round_trip_spec b :
  is_byte b ->
  exists x y,
    to_hex_byte b = String x (String y EmptyString)
    /\ pair_value x y = b
    /\ pair_value (JSString.upper_char x) (JSString.upper_char y) = b
    /\ JSString.lower_char x = x /\ JSString.lower_char y = y
    /\ Regex.hex_class_i x = true /\ Regex.hex_class_i y = true.
Proof.
  intros Hb. pose proof (upto_forallb 256 _ bytes_round_trip b Hb) as H.
  unfold byte_round_trip in H. unfold to_hex_byte in *.
  exists (hex_char (b / 16)), (hex_char (b mod 16)).
  repeat (apply andb_true_iff in H; destruct H as [H ?]).
  repeat split; try assumption;
    try (apply Z.eqb_eq; assumption); try (apply Ascii.eqb_eq; assumption).
Qed.

Lemma to_hex_cons b r :
  to_hex (b :: r)
  = String (hex_char (b / 16)) (String (hex_char (b mod 16)) (to_hex r)).
Proof. reflexivity. Qed.

Lemma parseBytes_to_hex bytes :
  Forall is_byte bytes ->
  parseBytes (to_hex bytes) = bytes
  /\ parseBytes (JSString.toUpperCase (to_hex bytes)) = bytes.
Proof.
  unfold parseBytes. induction 1 as [|b r Hb Hr [IH1 IH2]]; [split; reflexivity|].
  destruct (byte_round_trip_spec b Hb) as [x [y [Hxy [H1 [H2 _]]]]].
  unfold to_hex_byte in Hxy. injection Hxy as Hx Hy.
  rewrite to_hex_cons, Hx, Hy. cbn [JSString.toUpperCase].
  rewrite !parseBytes_pairs_lower_cons, IH1, IH2, H1, H2. split; reflexivity.
Qed.

Lemma repeat_exact_to_hex bytes :
  Forall is_byte bytes ->
  Regex.repeat_exact Regex.hex_class_i (List.length bytes + List.length bytes) (to_hex bytes)
  = Some EmptyString.
Proof.
  induction 1 as [|b r Hb Hr IH]; [reflexivity|].
  destruct (byte_round_trip_spec b Hb) as [x [y [Hxy [_ [_ [_ [_ [Hcx Hcy]]]]]]]].
  unfold to_hex_byte in Hxy. injection Hxy as Hx Hy.
  rewrite to_hex_cons, Hx, Hy. cbn [List.length].
  rewrite Nat.add_succ_r. cbn [Nat.add Regex.repeat_exact].
  now rewrite Hcx, Hcy.
Qed.

(** X3. Decoding undoes encoding: for every sequence of bytes, [parseBytes]
    of its hexadecimal text, in lower or in upper case, is the sequence
    again; and the text of 32 bytes passes the check of
    [generateIdentipattern], so every 32-byte sequence is the decoding of a
    valid hash. *)
Theorem parseBytes_decodes_hex (bytes : list Z) :
  Forall is_byte bytes ->
  parseBytes (to_hex bytes) = bytes
  /\ parseBytes (JSString.toUpperCase (to_hex bytes)) = bytes
  /\ (List.length bytes = 32%nat ->
      Regex.test_hex64 (to_hex bytes) = true
      /\ Regex.test_hex64 (JSString.toUpperCase (to_hex bytes)) = true).
Proof.
  intros Hb. destruct (parseBytes_to_hex bytes Hb) as [H1 H2].
  split; [exact H1|]. split; [exact H2|].
  intros Hl. rewrite test_hex64_upper.
  assert (Ht : Regex.test_hex64 (to_hex bytes) = true).
  { unfold Regex.test_hex64. pose proof (repeat_exact_to_hex bytes Hb) as H.
    rewrite Hl in H. cbn [Nat.add] in H. now rewrite H. }
  split; exact Ht.
Qed.

Lemma parseBytes_decodes_hex_witness :
  Forall is_byte [0; 171; 255]
  /\ to_hex [0; 171; 255] = "00abff"%string
  /\ parseBytes "00abff" = [0; 171; 255]
  /\ parseBytes "00ABFF" = [0; 171; 255].
Proof.
  assert (Hb : Forall is_byte [0; 171; 255]).
  { repeat constructor; unfold is_byte; lia. }
  split; [exact Hb|]. split; [reflexivity|].
  destruct (parseBytes_decodes_hex [0; 171; 255] Hb) as [H1 [H2 _]].
  split; [exact H1|exact H2].
Defined.

Lemma pairs_round_trip :
  forallb (fun a => forallb (pair_round_trip a) hex_digits) hex_digits = true.
Proof. vm_compute. reflexivity. Qed.

Lemma pair_round_trip_spec a b :
  Regex.hex_class_i a = true -> Regex.hex_class_i b = true ->
  to_hex_byte (pair_value a b)
  = String (JSString.lower_char a) (String (JSString.lower_char b) EmptyString).
Proof.
  intros Ha Hb. apply hex_class_i_spec in Ha, Hb.
  pose proof pairs_round_trip as H.
  rewrite forallb_forall in H. specialize (H a Ha).
  rewrite forallb_forall in H. specialize (H b Hb).
  now apply String.eqb_eq in H.
Qed.

Lemma to_hex_parseBytes_pairs n :
  forall s,
    Regex.repeat_exact Regex.hex_class_i (n + n) s = Some EmptyString ->
    to_hex (parseBytes_pairs (JSString.toLowerCase s)) = JSString.toLowerCase s.
Proof.
  induction n as [|n IH]; intros s H.
  - simpl in H. injection H as ->. reflexivity.
  - rewrite Nat.add_succ_r in H. cbn [Nat.add] in H.
    destruct s as [|a s]; cbn [Regex.repeat_exact] in H; [discriminate H|].
    destruct (Regex.hex_class_i a) eqn:Ha; [|discriminate H].
    destruct s as [|b r]; cbn [Regex.repeat_exact] in H; [discriminate H|].
    destruct (Regex.hex_class_i b) eqn:Hb; [|discriminate H].
    rewrite parseBytes_pairs_lower_cons. cbn [to_hex].
    rewrite (pair_round_trip_spec a b Ha Hb), (IH r H). reflexivity.
Qed.

Lemma to_hex_parseBytes h :
  Regex.test_hex64 h = true -> to_hex (parseBytes h) = JSString.toLowerCase h.
Proof.
  intros H. unfold Regex.test_hex64 in H.
  destruct (Regex.repeat_exact Regex.hex_class_i 64 h) as [[|c r]|] eqn:Hr;
    try discriminate H.
  apply (to_hex_parseBytes_pairs 32). exact Hr.
Qed.

(** X4. Encoding undoes decoding up to case: the bytes of a valid hash,
    written in hexadecimal, are the hash in lower case.  So two valid
    hashes decode to the same bytes exactly when they are equal up to the
    case of their letters. *)
Theorem parseBytes_injective_up_to_case (h1 h2 : string) :
  Regex.test_hex64 h1 = true ->
  Regex.test_hex64 h2 = true ->
  to_hex (parseBytes h1) = JSString.toLowerCase h1
  /\ (parseBytes h1 = parseBytes h2
      <-> JSString.toLowerCase h1 = JSString.toLowerCase h2).
Proof.
  intros H1 H2. split; [now apply to_hex_parseBytes|]. split.
  - intros H. rewrite <- (to_hex_parseBytes h1 H1), <- (to_hex_parseBytes h2 H2).
    now rewrite H.
  - intros H. unfold parseBytes. now rewrite H.
Qed.

Lemma parseBytes_injective_up_to_case_witness :
  Regex.test_hex64 mixed_hash = true
  /\ Regex.test_hex64 all_f = true
  /\ to_hex (parseBytes mixed_hash) = JSString.toLowerCase mixed_hash
  /\ parseBytes mixed_hash <> parseBytes all_f.
Proof.
  split; [reflexivity|]. split; [reflexivity|].
  destruct (parseBytes_injective_up_to_case mixed_hash all_f eq_refl eq_refl) as [H1 H2].
  split; [exact H1|].
  intros H. apply H2 in H. discriminate H.
Defined.
(** ** More on [hashSegment] *)



Lemma hashSegment_empty bytes start length :
  length <= 0 \/ Z.of_nat (List.length bytes) <= start ->
  hashSegment bytes start length = 5381.
Proof.
  intros H. unfold hashSegment.
  destruct (hashSegment_fuel bytes start) as [|fuel]; [reflexivity|].
  cbn [hashSegment_loop].
  replace ((start <? start + length) && (start <? Z.of_nat (List.length bytes)))
    with false; [reflexivity|].
  symmetry. apply andb_false_iff.
  destruct H as [H|H]; [left|right]; apply Z.ltb_ge; lia.
Qed.




Lemma get_agree bytes1 bytes2 i :
  List.length bytes1 = List.length bytes2 ->
  (0 <= i < Z.of_nat (List.length bytes1) ->
   nth (Z.to_nat i) bytes1 0 = nth (Z.to_nat i) bytes2 0) ->
  i < Z.of_nat (List.length bytes1) ->
  JSInt.get bytes1 i = JSInt.get bytes2 i.
Proof.
  intros Hl Hn Hi. destruct (Z_lt_le_dec i 0) as [Hneg|Hpos].
  - unfold JSInt.get. replace (i <? 0) with true by (symmetry; apply Z.ltb_lt; lia).
    reflexivity.
  - rewrite !get_in_bounds_Z by lia. f_equal. apply Hn. lia.
Qed.

Lemma hashSegment_loop_agree bytes1 bytes2 start stop :
  List.length bytes1 = List.length bytes2 ->
  (forall i, 0 <= i -> start <= i < stop ->
     nth (Z.to_nat i) bytes1 0 = nth (Z.to_nat i) bytes2 0) ->
  forall fuel i h,
    start <= i ->
    hashSegment_loop fuel bytes1 stop i h = hashSegment_loop fuel bytes2 stop i h.
Proof.
  intros Hl Hw. induction fuel as [|fuel IH]; intros i h Hi; [reflexivity|].
  cbn [hashSegment_loop]. rewrite <- Hl.
  destruct ((i <? stop) && (i <? Z.of_nat (List.length bytes1))) eqn:Hc; [|reflexivity].
  apply andb_true_iff in Hc. destruct Hc as [Hc1 Hc2].
  apply Z.ltb_lt in Hc1, Hc2.
  unfold hashSegment_step.
  rewrite (get_agree bytes1 bytes2 i Hl) by (try assumption; intros; apply Hw; lia).
  apply IH. lia.
Qed.

Lemma hashSegment_agree bytes1 bytes2 start length :
  List.length bytes1 = List.length bytes2 ->
  (forall i, 0 <= i -> start <= i < start + length ->
     nth (Z.to_nat i) bytes1 0 = nth (Z.to_nat i) bytes2 0) ->
  hashSegment bytes1 start length = hashSegment bytes2 start length.
Proof.
  intros Hl Hw. unfold hashSegment, hashSegment_fuel. rewrite <- Hl.
  now rewrite (hashSegment_loop_agree bytes1 bytes2 start (start + length) Hl Hw).
Qed.

(** X6. [hashSegment] reads nothing outside its window: two arrays of the
    same length that agree at every index of the window
    [start <= i < start + length] have the same hash of that window. *)
Theorem hashSegment_reads_window_only (bytes1 bytes2 : list Z) (start length : Z) :
  List.length bytes1 = List.length bytes2 ->
  (forall i, 0 <= i -> start <= i < start + length ->
     nth (Z.to_nat i) bytes1 0 = nth (Z.to_nat i) bytes2 0) ->
  hashSegment bytes1 start length = hashSegment bytes2 start length.
Proof.
  exact (hashSegment_agree bytes1 bytes2 start length).
Qed.

Lemma hashSegment_reads_window_only_witness :
  List.length zero_bytes = List.length (repeat 0 8 ++ repeat 255 24)
  /\ hashSegment zero_bytes 0 8 = hashSegment (repeat 0 8 ++ repeat 255 24) 0 8.
Proof.
  split; [reflexivity|].
  apply (hashSegment_reads_window_only zero_bytes (repeat 0 8 ++ repeat 255 24) 0 8).
  - reflexivity.
  - intros i H0 Hi.
    assert (Hc : i = 0 \/ i = 1 \/ i = 2 \/ i = 3 \/ i = 4 \/ i = 5 \/ i = 6 \/ i = 7)
      by lia.
    repeat (destruct Hc as [-> | Hc]; [reflexivity|]). subst i. reflexivity.
Defined.

(** The indices of the window of length [n + 1] are those of the window of
    length [n] and then [start + n]. *)
Lemma filter_window_extend len start n :
  0 <= start -> 0 <= n -> start + n < Z.of_nat len ->
  filter (in_window (Z.of_nat len) start (n + 1)) (upto len)
  = filter (in_window (Z.of_nat len) start n) (upto len) ++ [start + n].
Proof.
  intros Hs Hn Hlen. unfold upto.
  set (k := Z.to_nat (start + n)).
  assert (Hseq : seq 0 len = seq 0 k ++ seq k 1 ++ seq (S k) (len - S k)).
  { replace len with (k + (1 + (len - S k)))%nat at 1 by lia.
    rewrite seq_app, seq_app. cbn [Nat.add].
    replace (k + 1)%nat with (S k) by lia. reflexivity. }
  rewrite Hseq, !map_app, !filter_app.
  replace (filter (in_window (Z.of_nat len) start (n + 1)) (map Z.of_nat (seq 0 k)))
    with (filter (in_window (Z.of_nat len) start n) (map Z.of_nat (seq 0 k))).
  2:{ apply filter_ext_in. intros i Hi. apply in_map_iff in Hi.
      destruct Hi as [j [<- Hj]]. apply in_seq in Hj. unfold in_window.
      replace (Z.of_nat j <? start + n) with true by (symmetry; apply Z.ltb_lt; lia).
      replace (Z.of_nat j <? start + (n + 1)) with true by (symmetry; apply Z.ltb_lt; lia).
      reflexivity. }
  rewrite (filter_window_above _ start (n + 1) (map Z.of_nat (seq (S k) (len - S k)))).
  2:{ intros i Hi. apply in_map_iff in Hi. destruct Hi as [j [<- Hj]].
      apply in_seq in Hj. lia. }
  rewrite (filter_window_above _ start n (map Z.of_nat (seq (S k) (len - S k)))).
  2:{ intros i Hi. apply in_map_iff in Hi. destruct Hi as [j [<- Hj]].
      apply in_seq in Hj. lia. }
  rewrite (filter_window_above _ start n (map Z.of_nat (seq k 1))).
  2:{ intros i Hi. apply in_map_iff in Hi. destruct Hi as [j [<- Hj]].
      apply in_seq in Hj. lia. }
  cbn [seq map filter]. unfold in_window at 2.
  replace (Z.of_nat k) with (start + n) by lia.
  replace (start <=? start + n) with true by (symmetry; apply Z.leb_le; lia).
  replace (start + n <? start + (n + 1)) with true by (symmetry; apply Z.ltb_lt; lia).
  replace (0 <=? start + n) with true by (symmetry; apply Z.leb_le; lia).
  replace (start + n <? Z.of_nat len) with true by (symmetry; apply Z.ltb_lt; lia).
  cbn [andb]. now rewrite !app_nil_r.
Qed.

(** X7. [hashSegment] one byte at a time: within a 32-byte array, the hash
    of a window of length 0 is 5381, and a window one byte longer has the
    hash of the shorter one times 33 plus the new byte, modulo 2^32. *)
Theorem hashSegment_extend (bytes : list Z) (start n : Z) :
  List.length bytes = 32%nat ->
  Forall is_byte bytes ->
  0 <= start -> 0 <= n -> start + n < 32 ->
  hashSegment bytes start 0 = 5381
  /\ hashSegment bytes start (n + 1)
     = (hashSegment bytes start n * 33 + nth (Z.to_nat (start + n)) bytes 0) mod 2 ^ 32
  /\ exists h,
       hashSegment_loop (hashSegment_fuel bytes start) bytes (start + (n + 1)) start
         (Some 5381) = Some h
       /\ Z.abs h < 2 ^ 53.
Proof.
  intros Hl Hb Hs Hn Hlen.
  split; [apply hashSegment_empty; left; lia|].
  split; [|now apply hashSegment_exact].
  rewrite !hashSegment_djb2 by lia. unfold djb2_reference.
  rewrite filter_window_extend by lia.
  rewrite fold_left_app. cbn [fold_left]. unfold djb2_step at 1.
  unfold JSInt.ToUint32. rewrite ToInt32_congr. unfold JSInt.two32.
  set (acc := fold_left (djb2_step bytes) _ 5381).
  set (b := nth (Z.to_nat (start + n)) bytes 0).
  rewrite (Z.add_mod (acc mod 2 ^ 32 * 33)), Z.mul_mod_idemp_l by lia.
  rewrite <- Z.add_mod by lia. reflexivity.
Qed.

Lemma hashSegment_extend_witness :
  List.length zero_bytes = 32%nat
  /\ Forall is_byte zero_bytes
  /\ 0 <= 8 /\ 0 <= 7 /\ 8 + 7 < 32
  /\ hashSegment zero_bytes 8 (7 + 1)
     = (hashSegment zero_bytes 8 7 * 33 + nth (Z.to_nat (8 + 7)) zero_bytes 0) mod 2 ^ 32.
Proof.
  assert (Hb : Forall is_byte zero_bytes).
  { apply Forall_forall. intros x Hx. apply repeat_spec in Hx. subst x.
    unfold is_byte. lia. }
  split; [reflexivity|]. split; [exact Hb|].
  split; [lia|]. split; [lia|]. split; [lia|].
  exact (proj1 (proj2 (hashSegment_extend zero_bytes 8 7 eq_refl Hb
                         ltac:(lia) ltac:(lia) ltac:(lia)))).
Defined.
(** ** Reading the markers back *)

Lemma flat_map_filter {A B} (f : A -> bool) (g : A -> B) l :
  flat_map (fun x => if f x then [g x] else []) l = map g (filter f l).
Proof.
  induction l as [|x l IH]; [reflexivity|]. cbn [flat_map filter].
  destruct (f x); cbn [app map]; now rewrite IH.
Qed.

Lemma block_parts_occupied E bytes L :
  block_parts E bytes L = map (part_at E L) (occupied bytes).
Proof.
  unfold block_parts, occupied. rewrite flat_map_filter, map_map. reflexivity.
Qed.

Lemma upto_NoDup n : NoDup (upto n).
Proof.
  unfold upto. apply Finite.Injective_map_NoDup.
  - intros a b Hab. lia.
  - apply seq_NoDup.
Qed.

Lemma occupied_NoDup bytes : NoDup (occupied bytes).
Proof.
  unfold occupied. apply Finite.Injective_map_NoDup_in.
  - intros x y Hx Hy Hxy. apply filter_In in Hx, Hy.
    destruct Hx as [Hx _], Hy as [Hy _]. apply In_upto in Hx, Hy.
    rewrite <- (permIdx_inverse x), <- (permIdx_inverse y) by lia.
    now rewrite Hxy.
  - apply NoDup_filter, upto_NoDup.
Qed.

Lemma occupied_spec bytes p :
  0 <= p < 128 ->
  (In p (occupied bytes) <-> marker_bit bytes (slot_of p) = true).
Proof.
  intros Hp. unfold occupied, slot_of. rewrite in_map_iff. split.
  - intros [i [Hi Hin]]. apply filter_In in Hin. destruct Hin as [Hin Hbit].
    apply In_upto in Hin. subst p. now rewrite permIdx_inverse by lia.
  - intros Hbit. exists ((p * 121) mod 128). split.
    + now apply permIdx_inverse'.
    + apply filter_In. split; [|exact Hbit].
      apply In_upto. apply Z.mod_pos_bound. lia.
Qed.

(** X8. The marker bits can be read back from the border.  For every valid
    hash the marker rectangles of the output are those of the occupied
    border positions; no position is occupied twice; and position [p] in
    0..127 is occupied exactly when bit [i & 7] of byte [i >> 3] is set,
    for the slot [i = 121 * p mod 128], which is the one slot that
    [permIdx] sends to [p]. *)
Theorem markers_decode (E : Engine) (h : string) (o : Options) :
  Regex.test_hex64 h = true ->
  let bytes := parseBytes h in
  let L := layout (ToNumber (size (spread DEFAULTS o))) (innerAccent (derive bytes)) in
  filter is_marker (parts_of E h (spread DEFAULTS o))
  = map (part_at E L) (occupied bytes)
  /\ NoDup (occupied bytes)
  /\ (forall p, 0 <= p < 128 ->
        permIdx (slot_of p) = p
        /\ 0 <= slot_of p < 128
        /\ (In p (occupied bytes)
            <-> Z.testbit (nth (Z.to_nat (Z.shiftr (slot_of p) 3)) bytes 0)
                  (Z.land (slot_of p) 7) = true))
  /\ (forall i, 0 <= i < 128 -> slot_of (permIdx i) = i).
Proof.
  intros Hv bytes L. destruct (parseBytes_valid h Hv) as [Hl Hb].
  split; [|split; [|split]].
  - rewrite markers_of_parts. apply block_parts_occupied.
  - apply occupied_NoDup.
  - intros p Hp.
    assert (Hs : 0 <= slot_of p < 128) by (apply Z.mod_pos_bound; lia).
    split; [now apply permIdx_inverse'|]. split; [exact Hs|].
    rewrite occupied_spec by exact Hp.
    now rewrite marker_bit_testbit by assumption.
  - intros i Hi. now apply permIdx_inverse.
Qed.

Lemma markers_decode_witness :
  Regex.test_hex64 dot_hash = true
  /\ occupied (parseBytes dot_hash) = []
  /\ occupied (parseBytes all_f) = map permIdx (upto 128)
  /\ (forall E o,
        filter is_marker (parts_of E dot_hash (spread DEFAULTS o))
        = map (part_at E (layout (ToNumber (size (spread DEFAULTS o))) 2))
            (occupied (parseBytes dot_hash))).
Proof.
  split; [reflexivity|]. split; [reflexivity|]. split; [reflexivity|].
  intros E o. exact (proj1 (markers_decode E dot_hash o eq_refl)).
Defined.

(** ** The parameters read off the hash *)

Lemma amplitudes_in_range : forallb amplitude_in_range (upto 1000) = true.
Proof. vm_compute. reflexivity. Qed.

Lemma amplitude_derive bytes :
  amplitude (derive bytes) = amplitude_of (hashSegment bytes 16 8 mod 1000).
Proof. reflexivity. Qed.

Lemma freq1_derive bytes :
  freq1 (derive bytes)
  = if ((amplitude (derive bytes) <? 0.5)%float
        && (4 <? hashSegment bytes 0 8 mod 5 + 3))
    then 4 else hashSegment bytes 0 8 mod 5 + 3.
Proof. reflexivity. Qed.

(** X9. The ranges of the parameters, as the comments of the source give
    them: for every array of bytes, and so for every valid hash, [freq1] is
    in 3..7 and at most 4 when the amplitude is below 0.5, [pseudo] is in
    0..1023, the amplitude is at least 0.35 and below 0.70, [innerAccent] is
    in 0..9, and the wave count and the angular frequency computed from
    [pseudo] are in 3..5 and 4..8. *)
Theorem derive_ranges (bytes : list Z) :
  let P := derive bytes in
  3 <= freq1 P <= 7
  /\ ((amplitude P <? 0.5)%float = true -> freq1 P <= 4)
  /\ 0 <= pseudo P < 1024
  /\ (0.35 <=? amplitude P)%float = true /\ (amplitude P <? 0.7)%float = true
  /\ 0 <= innerAccent P <= 9
  /\ 3 <= nWaves_of (pseudo P) <= 5
  /\ 4 <= freq2_of (pseudo P) <= 8.
Proof.
  intros P.
  pose proof (Z.mod_pos_bound (hashSegment bytes 0 8) 5 ltac:(lia)) as H5.
  assert (Hf : 3 <= freq1 P <= 7).
  { unfold P. rewrite freq1_derive.
    destruct ((amplitude (derive bytes) <? 0.5)%float
              && (4 <? hashSegment bytes 0 8 mod 5 + 3)); lia. }
  assert (Ha : amplitude_in_range (hashSegment bytes 16 8 mod 1000) = true).
  { apply (upto_forallb 1000 _ amplitudes_in_range).
    apply Z.mod_pos_bound. lia. }
  unfold amplitude_in_range in Ha. apply andb_true_iff in Ha.
  rewrite <- amplitude_derive in Ha. fold P in Ha.
  split; [exact Hf|]. split.
  { intros Hlow. unfold P in *. rewrite freq1_derive, Hlow. cbn [andb].
    destruct (4 <? hashSegment bytes 0 8 mod 5 + 3) eqn:H4; [lia|].
    apply Z.ltb_ge in H4. exact H4. }
  split; [apply Z.mod_pos_bound; lia|].
  split; [apply Ha|]. split; [apply Ha|].
  split; [pose proof (innerAccent_range bytes); fold P in H; lia|].
  unfold nWaves_of, freq2_of.
  pose proof (Z.mod_pos_bound (Z.shiftr (pseudo P) 6) 3 ltac:(lia)).
  pose proof (Z.mod_pos_bound (Z.land (Z.shiftr (pseudo P) 2) 15) 5 ltac:(lia)).
  lia.
Qed.
(** ** The outcomes of the tuner *)

Lemma freq_steps k :
  3 <= k <= 7 ->
  (if (3 <? JSNum.of_Z k)%float then JSNum.max 3 (JSNum.of_Z k - 1)%float
   else JSNum.of_Z k)
  = JSNum.of_Z (Z.max 3 (k - 1)).
Proof.
  intros Hk.
  assert (Hc : k = 3 \/ k = 4 \/ k = 5 \/ k = 6 \/ k = 7) by lia.
  repeat (destruct Hc as [-> | Hc]; [reflexivity|]). subst k. reflexivity.
Qed.

(** X10. What the tuner can return, on every engine and for every
    amplitude, curve bound and thickness ([NaN] included), when it is
    given one of the frequencies 3..7 that [generateIdentipattern] passes:
    the start values if the first measured gap is wide enough; else the
    start values with a new [ampScale]; else also [gamma] raised to 1.55;
    else also the frequency lowered by one, but never below 3.  So [gamma]
    is 1.35 or 1.55, and [f1] is the given frequency or the next lower
    integer. *)
Theorem tuneWaves_outcomes (E : Engine) (k : Z) (amplitude curveMaxPx thickness : float) :
  3 <= k <= 7 ->
  let T := tuneWaves E (JSNum.of_Z k) amplitude curveMaxPx thickness in
  let P := JSNum.max (7.0 * thickness)%float 6.0%float in
  let st0 := {| f1 := JSNum.of_Z k; gamma := 1.35%float; ampScale := 1.0%float |} in
  ((P <=? minGap_of E amplitude curveMaxPx st0)%float = true -> T = st0)
  /\ (exists a,
        T = st0
        \/ T = {| f1 := JSNum.of_Z k; gamma := 1.35%float; ampScale := a |}
        \/ T = {| f1 := JSNum.of_Z k; gamma := 1.55%float; ampScale := a |}
        \/ T = {| f1 := JSNum.of_Z (Z.max 3 (k - 1)); gamma := 1.55%float;
                  ampScale := a |})
  /\ (gamma T = 1.35%float \/ gamma T = 1.55%float)
  /\ (f1 T = JSNum.of_Z k \/ f1 T = JSNum.of_Z (k - 1) /\ 3 < k)
  /\ (gamma T = 1.35%float -> f1 T = JSNum.of_Z k).
Proof.
  intros Hk T P st0.
  set (g0 := minGap_of E amplitude curveMaxPx st0).
  set (a := JSNum.min 1.25 (1.0 * sqrt (P / JSNum.max g0 1e-6))%float).
  set (st1 := {| f1 := JSNum.of_Z k; gamma := 1.35%float; ampScale := a |}).
  set (st2 := {| f1 := JSNum.of_Z k; gamma := 1.55%float; ampScale := a |}).
  set (st3 := {| f1 := JSNum.of_Z (Z.max 3 (k - 1)); gamma := 1.55%float;
                 ampScale := a |}).
  assert (HT : T = if (P <=? g0)%float then st0
                   else if (P <=? minGap_of E amplitude curveMaxPx st1)%float then st1
                   else if (P <=? minGap_of E amplitude curveMaxPx st2)%float then st2
                   else st3).
  { unfold T. rewrite tuneWaves_unfold. cbv zeta. fold P. fold st0. fold g0.
    destruct (P <=? g0)%float; [reflexivity|].
    change (correct 0 P g0 st0) with st1.
    destruct (P <=? minGap_of E amplitude curveMaxPx st1)%float; [reflexivity|].
    change (correct 1 P (minGap_of E amplitude curveMaxPx st1) st1) with st2.
    destruct (P <=? minGap_of E amplitude curveMaxPx st2)%float; [reflexivity|].
    unfold st3. rewrite <- freq_steps by exact Hk.
    unfold correct. cbn [Z.eqb Pos.eqb f1 st2 gamma ampScale].
    destruct (3 <? JSNum.of_Z k)%float; reflexivity. }
  assert (Hcases : T = st0 \/ T = st1 \/ T = st2 \/ T = st3).
  { rewrite HT. destruct (P <=? g0)%float; [now left|].
    destruct (P <=? minGap_of E amplitude curveMaxPx st1)%float; [now right; left|].
    destruct (P <=? minGap_of E amplitude curveMaxPx st2)%float;
      [now right; right; left|now right; right; right]. }
  split; [|split; [|split; [|split]]].
  - intros H0. rewrite HT. fold g0 in H0. now rewrite H0.
  - exists a. exact Hcases.
  - destruct Hcases as [-> | [-> | [-> | ->]]]; cbn [gamma st0 st1 st2 st3];
      (now left) || (now right).
  - destruct Hcases as [-> | [-> | [-> | ->]]]; cbn [f1 st0 st1 st2 st3];
      try (now left).
    destruct (Z.eq_dec k 3) as [-> | Hk3]; [now left|].
    right. split; [|lia]. f_equal. lia.
  - destruct Hcases as [-> | [-> | [-> | ->]]]; cbn [f1 gamma st0 st1 st2 st3];
      try reflexivity; intros Hg; exfalso;
      assert (Hq : (1.55 =? 1.35)%float = true) by (rewrite Hg; reflexivity);
      discriminate Hq.
Qed.

Lemma tuneWaves_outcomes_witness :
  3 <= 4 <= 7
  /\ tuneWaves still_engine (JSNum.of_Z 4) 0.5 39.6 thickness
     = {| f1 := 3%float; gamma := 1.55%float; ampScale := 1.25%float |}
  /\ (forall E amplitude curveMaxPx th,
        gamma (tuneWaves E (JSNum.of_Z 4) amplitude curveMaxPx th) = 1.35%float
        \/ gamma (tuneWaves E (JSNum.of_Z 4) amplitude curveMaxPx th) = 1.55%float).
Proof.
  split; [lia|]. split; [reflexivity|].
  intros E amplitude curveMaxPx th.
  exact (proj1 (proj2 (proj2
    (tuneWaves_outcomes E 4 amplitude curveMaxPx th ltac:(lia))))).
Defined.
(** ** The band of the waves *)

Lemma max_not_nan x y :
  is_nan (JSNum.max x y) = false -> is_nan x = false /\ is_nan y = false.
Proof.
  unfold JSNum.max. destruct (is_nan x), (is_nan y); cbn [orb];
    intros H; try discriminate H; split; reflexivity.
Qed.

Lemma min_not_nan x y :
  is_nan (JSNum.min x y) = false -> is_nan x = false /\ is_nan y = false.
Proof.
  unfold JSNum.min. destruct (is_nan x), (is_nan y); cbn [orb];
    intros H; try discriminate H; split; reflexivity.
Qed.

Lemma clamp_bounds lo hi x :
  (lo <=? hi)%float = true ->
  is_nan (JSNum.max lo (JSNum.min hi x)) = false ->
  (lo <=? JSNum.max lo (JSNum.min hi x))%float = true
  /\ (JSNum.max lo (JSNum.min hi x) <=? hi)%float = true.
Proof.
  intros Hle Hn. destruct (max_not_nan _ _ Hn) as [Hlo Hm].
  destruct (min_not_nan _ _ Hm) as [Hhi Hx].
  destruct (min_spec hi x Hhi Hx) as [_ [Hmh _]].
  destruct (max_spec lo (JSNum.min hi x) Hlo Hm) as [Hc [Hl _]].
  split; [exact Hl|].
  destruct Hc as [-> | ->]; assumption.
Qed.

Lemma radialAt_band E t f1 amp curveMaxPx keepout thickness gamma ampScale :
  (keepout <=? curveMaxPx)%float = true ->
  let r := radialAt E t f1 amp curveMaxPx keepout thickness gamma ampScale in
  is_nan r = true
  \/ ((keepout <=? r)%float = true /\ (r <=? curveMaxPx)%float = true).
Proof.
  intros Hle r. destruct (is_nan r) eqn:Hn; [now left|right].
  unfold r in *. unfold radialAt in *. cbv zeta in *.
  now apply clamp_bounds.
Qed.

(** X11. [radialAt] clamps: whenever the keep-out radius is at most the
    curve bound, the radius it returns is a Number from [keepout] to
    [curveMaxPx], or it is [NaN]; this holds on every engine and for all
    other arguments. *)
Theorem radialAt_clamped (E : Engine)
    (t f1 amp curveMaxPx keepout thickness gamma ampScale : float) :
  (keepout <=? curveMaxPx)%float = true ->
  let r := radialAt E t f1 amp curveMaxPx keepout thickness gamma ampScale in
  is_nan r = true
  \/ ((keepout <=? r)%float = true /\ (r <=? curveMaxPx)%float = true).
Proof.
  exact (radialAt_band E t f1 amp curveMaxPx keepout thickness gamma ampScale).
Qed.

Lemma radialAt_clamped_witness :
  (9 <=? 39.6)%float = true
  /\ radialAt still_engine 1 4 0.5 39.6 9 0.7 1.35 1 = 19.8%float
  /\ ((9 <=? radialAt still_engine 1 4 0.5 39.6 9 0.7 1.35 1)%float = true
      /\ (radialAt still_engine 1 4 0.5 39.6 9 0.7 1.35 1 <=? 39.6)%float = true).
Proof.
  split; [reflexivity|]. split; [reflexivity|].
  destruct (radialAt_clamped still_engine 1 4 0.5 39.6 9 0.7 1.35 1 eq_refl)
    as [H|H]; [discriminate H|exact H].
Defined.

Lemma sizes_6_to_4096_nested : forallb layout_nested (from 6 4091) = true.
Proof. vm_compute. reflexivity. Qed.

(** X12. The rings of the picture are nested.  At every integer size from
    6 to 4096 and for every accent 0..9: the keep-out radius is not
    negative and at most 0.4 of the curve bound, which is positive and
    below [maxR], which is below half the side of the border; for every
    accent but 4 the glyph radius is positive and below the keep-out
    radius.  So the radius of every wave sample, which [radialAt] clamps,
    lies from the keep-out radius to the curve bound unless it is [NaN]. *)
Theorem layout_rings_nested (E : Engine) (n ia : Z) :
  6 <= n <= 4096 ->
  0 <= ia <= 9 ->
  let L := layout (JSNum.of_Z n) ia in
  (0 <=? keepout L)%float = true
  /\ (keepout L <=? curveMaxPx L * 0.4)%float = true
  /\ (0 <? curveMaxPx L)%float = true
  /\ (curveMaxPx L <? maxR L)%float = true
  /\ (maxR L <? borderSize L / 2)%float = true
  /\ (ia <> 4 -> (0 <? centerR L)%float = true /\ (centerR L <? keepout L)%float = true)
  /\ (forall t f1 amp gamma ampScale,
        let r := radialAt E t f1 amp (curveMaxPx L) (keepout L) thickness gamma ampScale in
        is_nan r = true
        \/ ((keepout L <=? r)%float = true /\ (r <=? curveMaxPx L)%float = true)).
Proof.
  intros Hn Hia L.
  pose proof sizes_6_to_4096_nested as H. rewrite forallb_forall in H.
  specialize (H n (In_from 6 4091 n ltac:(lia))).
  unfold layout_nested in H.
  pose proof (upto_forallb 10 _ H ia ltac:(lia)) as HL. cbv zeta in HL. fold L in HL.
  repeat (apply andb_true_iff in HL; destruct HL as [HL ?]).
  split; [assumption|]. split; [assumption|]. split; [assumption|].
  split; [assumption|]. split; [assumption|]. split.
  - intros Hne4.
    match goal with
    | Hc : ((ia =? 4) || _) = true |- _ =>
        apply orb_true_iff in Hc; destruct Hc as [Hc|Hc];
          [apply Z.eqb_eq in Hc; contradiction|
           apply andb_true_iff in Hc; exact Hc]
    end.
  - intros t f1 amp gamma ampScale. now apply radialAt_band.
Qed.

Lemma layout_rings_nested_witness :
  6 <= 120 <= 4096 /\ 0 <= 0 <= 9
  /\ keepout (layout 120 0) = 14.399999999999999%float
  /\ curveMaxPx (layout 120 0) = 39.6%float
  /\ (0 <? centerR (layout 120 0))%float = true
  /\ (centerR (layout 120 0) <? keepout (layout 120 0))%float = true.
Proof.
  split; [lia|]. split; [lia|]. split; [reflexivity|]. split; [reflexivity|].
  pose proof (layout_rings_nested still_engine 120 0 ltac:(lia) ltac:(lia)) as H.
  cbv zeta in H. destruct H as [_ [_ [_ [_ [_ [H _]]]]]].
  apply H. lia.
Defined.
(** ** The markers and the canvas *)

Lemma sizes_1_to_512_within : forallb pieces_within (from 1 512) = true.
Proof. vm_compute. reflexivity. Qed.

Lemma marker_rect_at L i : marker_rect L i = rect_at L (permIdx i).
Proof. reflexivity. Qed.

Lemma rect_at_pieces s ia p :
  rect_at (layout s ia) p
  = let L := layout s 0 in
    let q := p mod blocksPerSide in
    let side := p / blocksPerSide in
    if side =? 0 then (marker_along L q, marker_outside L, blockWidth L, blockLength L)
    else if side =? 1 then (blockStart L, marker_along L q, blockLength L, blockWidth L)
    else if side =? 2 then (marker_along L q, blockStart L, blockWidth L, blockLength L)
    else (marker_outside L, marker_along L q, blockLength L, blockWidth L).
Proof. reflexivity. Qed.

Lemma border_pieces s ia :
  borderOffset (layout s ia) = borderOffset (layout s 0)
  /\ borderSize (layout s ia) = borderSize (layout s 0).
Proof. split; reflexivity. Qed.

(** X13. The markers sit in the margin.  At every integer size [n] from 1
    to 512, for every accent and every slot, the marker rectangle as the
    output prints it (each number rounded to two decimals) has a positive
    width and height, lies within the square from (0, 0) to (n, n), and
    touches the border square from outside: a marker of the top or left
    side ends where the border begins, one of the right or bottom side
    begins where the border ends. *)
Theorem markers_within_canvas (n ia i : Z) :
  1 <= n <= 512 ->
  let L := layout (JSNum.of_Z n) ia in
  printed_within n (marker_rect L i) = true
  /\ printed_flush L (permIdx i / blocksPerSide) (marker_rect L i) = true.
Proof.
  intros Hn L.
  pose proof sizes_1_to_512_within as H. rewrite forallb_forall in H.
  specialize (H n (In_from 1 512 n ltac:(lia))).
  unfold pieces_within in H. cbv zeta in H.
  unfold printed_flush, L.
  destruct (border_pieces (JSNum.of_Z n) ia) as [-> ->].
  rewrite marker_rect_at, rect_at_pieces. cbv zeta.
  set (L0 := layout (JSNum.of_Z n) 0) in *.
  assert (Hq : 0 <= permIdx i mod blocksPerSide < 32)
    by (apply Z.mod_pos_bound; reflexivity).
  set (q := permIdx i mod blocksPerSide) in *.
  destruct (printed_hundredths (marker_outside L0)) as [o|] eqn:Ho; [|discriminate H].
  destruct (printed_hundredths (blockStart L0)) as [s|] eqn:Hs; [|discriminate H].
  destruct (printed_hundredths (blockWidth L0)) as [w|] eqn:Hw; [|discriminate H].
  destruct (printed_hundredths (blockLength L0)) as [l|] eqn:Hl; [|discriminate H].
  destruct (printed_hundredths (borderOffset L0)) as [bo|] eqn:Hbo; [|discriminate H].
  destruct (printed_hundredths (borderSize L0)) as [bs|] eqn:Hbs; [|discriminate H].
  repeat (apply andb_true_iff in H; destruct H as [H ?]).
  match goal with
  | Ha : forallb _ (upto 32) = true |- _ =>
      pose proof (upto_forallb 32 _ Ha q Hq) as Halong
  end.
  cbv beta in Halong.
  destruct (printed_hundredths (marker_along L0 q)) as [a|] eqn:Ha; [|discriminate Halong].
  apply andb_true_iff in Halong. destruct Halong as [Ha0 Ha1].
  destruct (permIdx i / blocksPerSide =? 0);
    [|destruct (permIdx i / blocksPerSide =? 1);
      [|destruct (permIdx i / blocksPerSide =? 2)]];
    unfold printed_within; rewrite ?Ho, ?Hs, ?Hw, ?Hl, ?Ha;
    (split; [repeat (apply andb_true_iff; split)|]); assumption.
Qed.

Lemma markers_within_canvas_witness :
  1 <= 120 <= 512
  /\ marker_rect (layout 120 0) 1
     = (35.790000000000006, 110.40000000000001, 4.3199999999999994,
        8.4000000000000004)%float
  /\ printed_within 120 (marker_rect (layout 120 0) 1) = true
  /\ printed_flush (layout 120 0) 2 (marker_rect (layout 120 0) 1) = true.
Proof.
  split; [lia|]. split; [reflexivity|].
  apply (markers_within_canvas 120 0 1). lia.
Defined.
(** ** The output as a whole *)

Local Open Scope string_scope.

Lemma append_nil_r s : s ++ "" = s.
Proof.
  induction s as [|c s IH]; [reflexivity|]. simpl. now rewrite IH.
Qed.

Lemma join_empty_cons x l : JSString.join "" (x :: l) = x ++ JSString.join "" l.
Proof.
  unfold JSString.join. destruct l as [|y l]; [|reflexivity].
  cbn [String.concat]. now rewrite append_nil_r.
Qed.

Lemma join_empty_app l1 l2 :
  JSString.join "" (l1 ++ l2) = JSString.join "" l1 ++ JSString.join "" l2.
Proof.
  induction l1 as [|x l1 IH]; [reflexivity|].
  cbn [app]. now rewrite !join_empty_cons, IH, app_assoc_s.
Qed.

Lemma head_parts_text E s :
  JSString.join "" (head_parts E s) = svg_open (str_size E s).
Proof.
  unfold head_parts. rewrite !join_empty_cons. cbn [JSString.join String.concat].
  unfold svg_open. rewrite append_nil_r, !app_assoc_s. reflexivity.
Qed.

Lemma integer_size_texts E :
  forallb (fun n => String.eqb (str E (JSNum.of_Z n)) (JSNum.digits n)) (upto 1025) = true.
Proof. vm_compute. reflexivity. Qed.

(** X14. The output is one [svg] element.  For every valid hash and all
    options, a call that returns gives the [svg] tag with the text of the
    size as width and height, then the white background of that size, then
    the rest of the parts, then [</svg>].  The text of the size is [120]
    when the options leave the size out; it is the Number as a template
    literal prints it when the size is a Number, an integer from 0 to 1024
    as that integer on every engine; and it is [undefined] when the size is
    present as [undefined].  Only in that last case can the call fail to
    return: it throws a [TypeError] when [showGrid] is truthy. *)
Theorem svg_envelope (E : Engine) (h : string) (o : Options) :
  Regex.test_hex64 h = true ->
  let S := spread DEFAULTS o in
  let w := str_size E (size S) in
  (exists body,
     generateIdentipattern E h o
     = (if grid_throws S then inl TypeError
        else inr (svg_open w ++ body ++ "</svg>"))
     /\ JSString.starts_with "<svg" (svg_open w ++ body ++ "</svg>") = true
     /\ JSString.ends_with "</svg>" (svg_open w ++ body ++ "</svg>") = true)
  /\ (opt_size o = None -> w = "120" /\ grid_throws S = false)
  /\ (forall s, opt_size o = Some (Value s) -> w = str E s /\ grid_throws S = false)
  /\ (opt_size o = Some Undefined ->
      w = "undefined" /\ grid_throws S = ToBoolean (showGrid S))
  /\ (forall n, 0 <= n <= 1024 -> str E (JSNum.of_Z n) = JSNum.digits n).
Proof.
  intros Hv S w. split; [|split; [|split; [|split]]].
  - rewrite generate_valid by exact Hv. fold S. unfold parts_of. fold w.
    set (bytes := parseBytes h). set (P := derive bytes).
    set (L := layout (ToNumber (size S)) (innerAccent P)).
    set (T := tuneWaves E (JSNum.of_Z (freq1 P)) (amplitude P) (curveMaxPx L) thickness).
    exists (JSString.join ""
              (grid_parts E (ToNumber (size S)) (ToBoolean (showGrid S))
                 ++ [border_part E L] ++ wave_parts E P L T
                 ++ block_parts E bytes L ++ center_parts E P L)%list).
    split; [|split].
    + destruct (grid_throws S); [reflexivity|].
      rewrite join_empty_app, head_parts_text. fold w. f_equal. f_equal.
      rewrite !List.app_assoc, join_empty_app.
      cbn [JSString.join String.concat]. reflexivity.
    + reflexivity.
    + rewrite <- app_assoc_s. apply ends_with_self.
  - intros Ho. unfold w, S, grid_throws, spread. cbn [size]. rewrite Ho.
    split; reflexivity.
  - intros s Ho. unfold w, S, grid_throws, spread. cbn [size]. rewrite Ho.
    split; reflexivity.
  - intros Ho. unfold w, S, grid_throws, spread. cbn [size]. rewrite Ho.
    split; reflexivity.
  - intros n Hn. apply String.eqb_eq.
    apply (upto_forallb 1025 _ (integer_size_texts E)). lia.
Qed.

Lemma svg_envelope_witness :
  Regex.test_hex64 all_0 = true
  /\ (forall E, str E (JSNum.of_Z 64) = "64")
  /\ (forall E, str_size E (size (spread DEFAULTS no_options)) = "120")
  /\ (forall E,
        str_size E (size (spread DEFAULTS undefined_size_with_grid)) = "undefined"
        /\ grid_throws (spread DEFAULTS undefined_size_with_grid) = true).
Proof.
  split; [reflexivity|].
  split; [|split]; intros E.
  - pose proof (svg_envelope E all_0 no_options eq_refl) as [_ [_ [_ [_ H]]]].
    apply (H 64). lia.
  - pose proof (svg_envelope E all_0 no_options eq_refl) as [_ [H _]].
    apply H. reflexivity.
  - pose proof (svg_envelope E all_0 undefined_size_with_grid eq_refl)
      as [_ [_ [_ [H _]]]].
    apply H. reflexivity.
Defined.

(** *** The diagnostic grid *)

Lemma center_not_grid_line E P L p :
  In p (center_parts E P L) -> is_grid_line p = false.
Proof.
  unfold center_parts.
  destruct (0 <? centerR L)%float; [|intros []].
  destruct (innerAccent P =? 0)%Z; [intros [<-|[]]; reflexivity|].
  destruct (innerAccent P =? 1)%Z; [intros [<-|[]]; reflexivity|].
  destruct (innerAccent P =? 2)%Z; [intros [<-|[]]; reflexivity|].
  destruct (innerAccent P =? 3)%Z.
  { unfold pushConcentric. rewrite in_map_iff. intros [i [<- _]]. reflexivity. }
  destruct ((5 <=? innerAccent P) && (innerAccent P <=? 9))%Z; [|intros []].
  intros [<-|[]]; reflexivity.
Qed.

(** X15. The grid is an overlay.  For every valid hash and size, the output
    with [showGrid] is the output without it with the grid group put in
    right after the white background, and nothing else changed; the group
    is its opening tag, 20 [line] tags and its closing tag; without
    [showGrid] the output has no part of the grid. *)
Theorem grid_is_overlay (E : Engine) (h : string) (s : float) :
  Regex.test_hex64 h = true ->
  (exists rest,
     generateIdentipattern E h (with_options s false)
     = inr (svg_open (str E s) ++ rest)
     /\ generateIdentipattern E h (with_options s true)
        = inr (svg_open (str E s) ++ grid_text E s ++ rest))
  /\ (exists lines,
        grid_parts E s true = grid_open :: List.app lines ["</g>"]
        /\ List.length lines = 20%nat
        /\ forallb is_grid_line lines = true)
  /\ grid_parts E s false = []
  /\ filter is_grid_line (parts_of E h (spread DEFAULTS (with_options s false))) = [].
Proof.
  intros Hv. split; [|split; [|split]].
  - rewrite !generate_returns by first [exact Hv|reflexivity].
    unfold parts_of, with_options, spread.
    cbn [size showGrid opt_size opt_showGrid ToNumber ToBoolean].
    set (bytes := parseBytes h). set (P := derive bytes).
    set (L := layout s (innerAccent P)).
    set (T := tuneWaves E (JSNum.of_Z (freq1 P)) (amplitude P) (curveMaxPx L) thickness).
    exists (JSString.join ""
              ([border_part E L] ++ wave_parts E P L T
                 ++ block_parts E bytes L ++ center_parts E P L ++ ["</svg>"])%list).
    split.
    + rewrite join_empty_app, head_parts_text. reflexivity.
    + rewrite join_empty_app, head_parts_text, join_empty_app. reflexivity.
  - exists (flat_map (grid_lines E s) (upto 10)).
    split; [reflexivity|]. split; reflexivity.
  - reflexivity.
  - unfold parts_of, with_options, spread.
    cbn [size showGrid opt_size opt_showGrid ToNumber ToBoolean].
    apply filter_none. intros p Hp. cbn [grid_parts] in Hp.
    rewrite !in_app_iff in Hp.
    destruct Hp as [Hp|[Hp|[Hp|[Hp|[Hp|[Hp|Hp]]]]]].
    + destruct Hp as [<-|[<-|[]]]; reflexivity.
    + destruct Hp.
    + destruct Hp as [<-|[]]. reflexivity.
    + unfold wave_parts in Hp. apply in_map_iff in Hp.
      destruct Hp as [w [<- _]]. reflexivity.
    + unfold block_parts in Hp. apply in_flat_map in Hp. destruct Hp as [i [_ Hp]].
      destruct (marker_bit _ i); [|destruct Hp]. destruct Hp as [<-|[]].
      unfold marker_part. destruct (marker_rect _ i) as [[[x y] w] hh]. reflexivity.
    + revert Hp. apply center_not_grid_line.
    + destruct Hp as [<-|[]]. reflexivity.
Qed.

Lemma grid_is_overlay_witness :
  Regex.test_hex64 all_0 = true
  /\ (forall E,
        List.length (parts_of E all_0 (spread DEFAULTS (with_options 120 true)))
        = (22 + List.length (parts_of E all_0 (spread DEFAULTS (with_options 120 false))))%nat)
  /\ (forall E,
        filter is_grid_line (parts_of E all_0 (spread DEFAULTS (with_options 120 false)))
        = []).
Proof.
  split; [reflexivity|]. split.
  - intros E. unfold parts_of. rewrite !length_app. reflexivity.
  - intros E.
    exact (proj2 (proj2 (proj2 (grid_is_overlay E all_0 120 eq_refl)))).
Defined.

Local Close Scope string_scope.
(** *** The wave lines and the count of the parts *)

Local Open Scope string_scope.

Lemma wave_part_is_wave E P L T nWaves freq2 w :
  is_wave_path (wave_part E P L T nWaves freq2 w) = true.
Proof.
  unfold is_wave_path, wave_part. rewrite r2_thickness.
  apply andb_true_iff. split; [reflexivity|]. peel. reflexivity.
Qed.

Lemma closed_path_not_wave E pts hollow : is_wave_path (closed_path E pts hollow) = false.
Proof.
  unfold is_wave_path. apply andb_false_iff. right.
  destruct (closed_path_tail E pts hollow) as [body ->].
  rewrite ends_with_app by (destruct hollow; cbn; lia).
  destruct hollow; reflexivity.
Qed.

Lemma center_not_wave E P L p : In p (center_parts E P L) -> is_wave_path p = false.
Proof.
  unfold center_parts.
  destruct (0 <? centerR L)%float; [|intros []].
  destruct (innerAccent P =? 0)%Z; [intros [<-|[]]; apply closed_path_not_wave|].
  destruct (innerAccent P =? 1)%Z; [intros [<-|[]]; apply closed_path_not_wave|].
  destruct (innerAccent P =? 2)%Z; [intros [<-|[]]; reflexivity|].
  destruct (innerAccent P =? 3)%Z.
  { unfold pushConcentric. rewrite in_map_iff. intros [i [<- _]]. reflexivity. }
  destruct ((5 <=? innerAccent P) && (innerAccent P <=? 9))%Z; [|intros []].
  intros [<-|[]]; apply closed_path_not_wave.
Qed.

Lemma grid_not_wave E s g p : In p (grid_parts E s g) -> is_wave_path p = false.
Proof.
  unfold grid_parts. destruct g; [|intros []].
  rewrite !in_app_iff, in_flat_map. intros [H|[[i [_ H]]|H]].
  - destruct H as [<-|[]]. reflexivity.
  - destruct H as [<-|[<-|[]]]; reflexivity.
  - destruct H as [<-|[]]. reflexivity.
Qed.

Lemma block_not_wave E bytes L p : In p (block_parts E bytes L) -> is_wave_path p = false.
Proof.
  unfold block_parts. rewrite in_flat_map. intros [i [_ Hp]].
  destruct (marker_bit bytes i); [|destruct Hp].
  destruct Hp as [<-|[]].
  unfold marker_part. destruct (marker_rect L i) as [[[x y] w] hh]. reflexivity.
Qed.

Lemma waves_of_parts E h S :
  let P := derive (parseBytes h) in
  let L := layout (ToNumber (size S)) (innerAccent P) in
  filter is_wave_path (parts_of E h S)
  = wave_parts E P L
      (tuneWaves E (JSNum.of_Z (freq1 P)) (amplitude P) (curveMaxPx L) thickness).
Proof.
  intros P L. unfold parts_of. fold P. fold L. rewrite !filter_app.
  replace (filter is_wave_path (head_parts E (size S))) with (@nil string) by reflexivity.
  rewrite (filter_none _ (grid_parts _ _ _)) by apply grid_not_wave.
  rewrite (filter_none _ (block_parts _ _ _)) by apply block_not_wave.
  rewrite (filter_none _ (center_parts _ _ _)) by apply center_not_wave.
  rewrite (filter_all _ (wave_parts _ _ _ _)).
  2:{ intros p Hp. unfold wave_parts in Hp. apply in_map_iff in Hp.
      destruct Hp as [w [<- _]]. apply wave_part_is_wave. }
  cbn [filter].
  replace (is_wave_path (border_part E L)) with false by reflexivity.
  replace (is_wave_path "</svg>") with false by reflexivity.
  cbn [app]. now rewrite app_nil_r.
Qed.

Local Close Scope string_scope.

Lemma upto_length n : List.length (upto n) = n.
Proof. unfold upto. now rewrite length_map, length_seq. Qed.

Lemma wave_parts_length E P L T :
  List.length (wave_parts E P L T) = Z.to_nat (nWaves_of (pseudo P)).
Proof. unfold wave_parts. now rewrite length_map, upto_length. Qed.

Lemma grid_parts_length E s g :
  List.length (grid_parts E s g) = if g then 22%nat else 0%nat.
Proof. destruct g; reflexivity. Qed.

Lemma center_parts_length E P L : (List.length (center_parts E P L) <= 3)%nat.
Proof.
  unfold center_parts.
  destruct (0 <? centerR L)%float; [|cbn; lia].
  destruct (innerAccent P =? 0)%Z; [cbn; lia|].
  destruct (innerAccent P =? 1)%Z; [cbn; lia|].
  destruct (innerAccent P =? 2)%Z; [cbn; lia|].
  destruct (innerAccent P =? 3)%Z; [cbn; lia|].
  destruct ((5 <=? innerAccent P) && (innerAccent P <=? 9))%Z; cbn; lia.
Qed.

(** X16. The inventory of the output.  For every valid hash and all
    options the parts are, in this order: the [svg] tag and the background,
    the 22 parts of the grid if it is asked for, the border, the wave
    lines, the markers, the glyph and [</svg>].  The wave lines are as many
    as [nWaves], from 3 to 5; so the output has
    [4 + (22 if showGrid) + nWaves + popcount + glyphs] parts, where the
    glyph takes 0, 1 or 3 of them. *)
Theorem output_inventory (E : Engine) (h : string) (o : Options) :
  Regex.test_hex64 h = true ->
  let S := spread DEFAULTS o in
  let P := derive (parseBytes h) in
  let parts := parts_of E h S in
  let waves := filter is_wave_path parts in
  let markers := filter is_marker parts in
  let glyphs := filter is_glyph parts in
  List.length waves = Z.to_nat (nWaves_of (pseudo P))
  /\ (3 <= List.length waves <= 5)%nat
  /\ (List.length glyphs <= 3)%nat
  /\ (exists head grid border,
        List.length head = 2%nat
        /\ List.length grid = (if ToBoolean (showGrid S) then 22%nat else 0%nat)
        /\ parts = head ++ grid ++ [border] ++ waves ++ markers ++ glyphs
                     ++ ["</svg>"%string])
  /\ List.length parts
     = ((if ToBoolean (showGrid S) then 26 else 4) + List.length waves
        + popcount128 (parseBytes h) + List.length glyphs)%nat.
Proof.
  intros Hv S P parts waves markers glyphs.
  destruct (parseBytes_valid h Hv) as [Hl Hb].
  assert (Hw : List.length waves = Z.to_nat (nWaves_of (pseudo P))).
  { unfold waves, parts. rewrite waves_of_parts. apply wave_parts_length. }
  assert (Hn : 3 <= nWaves_of (pseudo P) <= 5).
  { unfold nWaves_of.
    pose proof (Z.mod_pos_bound (Z.shiftr (pseudo P) 6) 3 ltac:(lia)). lia. }
  assert (Hparts :
    parts = head_parts E (size S)
              ++ grid_parts E (ToNumber (size S)) (ToBoolean (showGrid S))
              ++ [border_part E (layout (ToNumber (size S)) (innerAccent P))]
              ++ waves ++ markers ++ glyphs ++ ["</svg>"%string]).
  { unfold waves, markers, glyphs, parts.
    rewrite waves_of_parts, markers_of_parts, glyphs_of_parts. reflexivity. }
  assert (Hm : List.length markers = popcount128 (parseBytes h)).
  { unfold markers, parts. rewrite markers_of_parts, block_parts_length.
    now apply marker_bits_popcount. }
  split; [exact Hw|]. split; [lia|]. split.
  { unfold glyphs, parts. rewrite glyphs_of_parts. apply center_parts_length. }
  split.
  { exists (head_parts E (size S)),
      (grid_parts E (ToNumber (size S)) (ToBoolean (showGrid S))),
      (border_part E (layout (ToNumber (size S)) (innerAccent P))).
    split; [reflexivity|]. split; [apply grid_parts_length|exact Hparts]. }
  rewrite Hparts at 1. rewrite !length_app, grid_parts_length, Hm.
  cbn [List.length head_parts]. destruct (ToBoolean (showGrid S)); lia.
Qed.

Lemma output_inventory_witness :
  Regex.test_hex64 all_f = true
  /\ (forall E,
        List.length (parts_of E all_f (spread DEFAULTS no_options))
        = (4 + 3 + 128 + 1)%nat).
Proof.
  split; [reflexivity|]. intros E.
  pose proof (output_inventory E all_f no_options eq_refl) as H. cbv zeta in H.
  destruct H as [Hw [_ [_ [_ Hlen]]]].
  rewrite Hlen, Hw. rewrite glyphs_of_parts. reflexivity.
Defined.




(** ** The shapes of the glyph *)





(** ** [r2]: two decimals *)

Local Open Scope string_scope.





Lemma hundredths_nearest m e :
  0 < m ->
  let n := JSNum.hundredths m e in
  0 <= n
  /\ (e < 0 -> 2 * Z.abs (n * 2 ^ (- e) - 100 * m) <= 2 ^ (- e))
  /\ (0 <= e -> n = 100 * m * 2 ^ e).
Proof.
  intros Hm n. unfold n, JSNum.hundredths. destruct e as [|p|p].
  - rewrite Z.pow_0_r. split; [lia|]. split; [lia|]. intros _. lia.
  - assert (0 < 2 ^ Z.pos p) by (apply Z.pow_pos_nonneg; lia).
    split; [nia|]. split; [lia|]. intros _. ring.
  - change (- Z.neg p) with (Z.pos p).
    assert (Hp : 0 < 2 ^ Z.pos p) by (apply Z.pow_pos_nonneg; lia).
    set (P := 2 ^ Z.pos p) in *.
    pose proof (Z.div_mod (2 * (m * 100) + P) (2 * P) ltac:(lia)) as Hdm.
    pose proof (Z.mod_pos_bound (2 * (m * 100) + P) (2 * P) ltac:(lia)) as Hb.
    set (q := (2 * (m * 100) + P) / (2 * P)) in *.
    set (r := (2 * (m * 100) + P) mod (2 * P)) in *.
    split; [apply Z.div_pos; lia|].
    split; [|intros Hneg; pose proof (Pos2Z.neg_is_neg p); lia]. intros _.
    clearbody q r P. clear n. lia.
Qed.




Local Close Scope string_scope.
(** ** The frame: border and grid *)

(** The text of a Number that prints a positive count of hundredths. *)
Lemma r2_of_hundredths E x h :
  printed_hundredths x = Some h -> 0 < h -> r2 E x = JSNum.fixed2 h.
Proof.
  unfold printed_hundredths, r2, JSNum.toFixed2.
  destruct (Prim2SF x) as [s|s| |s m e]; try discriminate.
  - intros H Hh. injection H as <-. lia.
  - destruct (1e21 <=? abs x)%float; [discriminate|].
    intros H Hh. injection H as <-.
    destruct (hundredths_nearest (Z.pos m) e ltac:(lia)) as [Hn _].
    destruct s; [lia|]. rewrite Z.mul_1_l. reflexivity.
Qed.

Lemma sizes_1_to_512_frame : forallb frame_in_hundredths (from 1 512) = true.
Proof. vm_compute. reflexivity. Qed.

Lemma printed_is h x :
  match printed_hundredths x with Some v => v =? h | None => false end = true ->
  printed_hundredths x = Some h.
Proof.
  destruct (printed_hundredths x) as [v|]; [|discriminate].
  intros H. apply Z.eqb_eq in H. now subst v.
Qed.

(** X25. The frame.  At every integer size [n] from 1 to 512, on every
    engine: the border is printed as the square with its corner at
    (0.08 n, 0.08 n) and the side 0.84 n, exactly to the hundredth, so it
    is centred with a margin of 8 percent, and its stroke width is 0.63;
    and grid line pair [i] (from 0 to 9) is printed at [(i + 1) n / 10]
    and runs from 0 to [n], so the tenth pair lies on the right and the
    bottom edge of the canvas. *)
Theorem frame_geometry (E : Engine) (n ia : Z) :
  1 <= n <= 512 ->
  border_part E (layout (JSNum.of_Z n) ia) = border_text n
  /\ (forall i, 0 <= i < 10 ->
        grid_lines E (JSNum.of_Z n) i = grid_lines_text n (i + 1))
  /\ 2 * (8 * n) + 84 * n = 100 * n.
Proof.
  intros Hn.
  pose proof sizes_1_to_512_frame as H. rewrite forallb_forall in H.
  specialize (H n (In_from 1 512 n ltac:(lia))).
  unfold frame_in_hundredths in H. cbv zeta in H.
  apply andb_true_iff in H. destruct H as [H Hg].
  apply andb_true_iff in H. destruct H as [H Hs].
  apply andb_true_iff in H. destruct H as [Ho Hb].
  apply printed_is in Ho, Hb, Hs.
  split; [|split; [|lia]].
  - unfold border_part, border_text.
    change (borderOffset (layout (JSNum.of_Z n) ia))
      with (borderOffset (layout (JSNum.of_Z n) 0)).
    change (borderSize (layout (JSNum.of_Z n) ia))
      with (borderSize (layout (JSNum.of_Z n) 0)).
    rewrite r2_borderThickness.
    rewrite (r2_of_hundredths E _ _ Ho), (r2_of_hundredths E _ _ Hb) by lia.
    reflexivity.
  - intros i Hi. pose proof (upto_forallb 10 _ Hg i Hi) as Hp. cbv beta in Hp.
    apply printed_is in Hp.
    unfold grid_lines, grid_lines_text. cbv zeta.
    rewrite (r2_of_hundredths E _ _ Hp), (r2_of_hundredths E _ _ Hs) by nia.
    reflexivity.
Qed.

Lemma frame_geometry_witness :
  1 <= 120 <= 512
  /\ JSNum.fixed2 (8 * 120) = "9.60"%string
  /\ JSNum.fixed2 (84 * 120) = "100.80"%string
  /\ (forall E, border_part E (layout 120 9) = border_text 120)
  /\ (forall E, grid_lines E 120 9 = grid_lines_text 120 10).
Proof.
  split; [lia|]. split; [reflexivity|]. split; [reflexivity|].
  split; intros E;
    pose proof (frame_geometry E 120 9 ltac:(lia)) as [H1 [H2 _]].
  - exact H1.
  - apply (H2 9). lia.
Defined.
(** ** No two markers at one place *)

Lemma sizes_1_to_512_apart : forallb places_apart (from 1 512) = true.
Proof. vm_compute. reflexivity. Qed.

Lemma printed_alongs_nth n q :
  0 <= q < 32 ->
  nth (Z.to_nat q) (printed_alongs n) None
  = printed_hundredths (marker_along (layout (JSNum.of_Z n) 0) q).
Proof.
  intros Hq. unfold printed_alongs, upto. rewrite map_map.
  set (f := fun k => printed_hundredths (marker_along (layout (JSNum.of_Z n) 0) (Z.of_nat k))).
  rewrite (nth_indep _ None (f 32%nat)) by (rewrite length_map, length_seq; lia).
  rewrite (map_nth f (seq 0 32) 32%nat (Z.to_nat q)).
  rewrite seq_nth by lia. unfold f. f_equal. f_equal. lia.
Qed.

Lemma increasing_tail x l : increasing (x :: l) = true -> increasing l = true.
Proof.
  destruct x as [a|]; [|discriminate]. destruct l as [|[b|] r]; try discriminate.
  - reflexivity.
  - cbn [increasing]. intros H. apply andb_true_iff in H. apply H.
Qed.

Lemma increasing_head l :
  forall a, increasing (Some a :: l) = true ->
  forall j, (j < List.length l)%nat ->
  exists b, nth j l None = Some b /\ a < b.
Proof.
  induction l as [|x r IH]; intros a H j Hj; [cbn in Hj; lia|].
  destruct x as [b0|]; [|discriminate H].
  change (increasing (Some a :: Some b0 :: r))
    with ((a <? b0) && increasing (Some b0 :: r)) in H.
  apply andb_true_iff in H. destruct H as [Hab Hr]. apply Z.ltb_lt in Hab.
  destruct j as [|j].
  - exists b0. split; [reflexivity|exact Hab].
  - destruct (IH b0 Hr j ltac:(cbn in Hj; lia)) as [b [Hb Hlt]].
    exists b. split; [exact Hb|lia].
Qed.

Lemma increasing_nth l :
  increasing l = true ->
  forall i j, (i < j < List.length l)%nat ->
  exists a b, nth i l None = Some a /\ nth j l None = Some b /\ a < b.
Proof.
  induction l as [|x r IH]; intros H i j Hij; [cbn in Hij; lia|].
  destruct i as [|i].
  - destruct x as [a|]; [|discriminate H].
    destruct j as [|j]; [lia|].
    destruct (increasing_head r a H j ltac:(cbn in Hij; lia)) as [b [Hb Hlt]].
    exists a, b. repeat split; assumption.
  - destruct j as [|j]; [lia|].
    apply (IH (increasing_tail x r H) i j). cbn in Hij. lia.
Qed.

Lemma strictly_between_neq o a s :
  strictly_between o a s = true -> a <> o /\ a <> s /\ o <> s.
Proof.
  destruct o as [o|], a as [a|], s as [s|]; try discriminate. cbn. intros H.
  apply andb_true_iff in H. destruct H as [H1 H2].
  apply Z.ltb_lt in H1, H2. repeat split; intros Heq; injection Heq as Heq; lia.
Qed.

Lemma side_and_position p :
  0 <= p < 128 ->
  0 <= p / blocksPerSide < 4 /\ 0 <= p mod blocksPerSide < 32
  /\ p = blocksPerSide * (p / blocksPerSide) + p mod blocksPerSide.
Proof.
  unfold blocksPerSide. intros Hp. Z.div_mod_to_equations. lia.
Qed.

(** X26. No two markers are printed at one place.  At every integer size
    from 1 to 512 and for every accent, the printed coordinate along a
    side increases strictly with the position and lies strictly between
    the two coordinates across the side; so the rectangles of two
    different border positions differ as the output prints them (in
    hundredths), and so do the rectangles of two different slots. *)
Theorem markers_printed_apart (n ia : Z) :
  1 <= n <= 512 ->
  let L := layout (JSNum.of_Z n) ia in
  (forall p p', 0 <= p < 128 -> 0 <= p' < 128 -> p <> p' ->
     printed_rect (rect_at L p) <> printed_rect (rect_at L p'))
  /\ (forall i i', 0 <= i < 128 -> 0 <= i' < 128 -> i <> i' ->
        printed_rect (marker_rect L i) <> printed_rect (marker_rect L i')).
Proof.
  intros Hn L.
  assert (Hpos : forall p p', 0 <= p < 128 -> 0 <= p' < 128 -> p <> p' ->
                   printed_rect (rect_at L p) <> printed_rect (rect_at L p')).
  { intros p p' Hp Hp' Hne.
    pose proof sizes_1_to_512_apart as H. rewrite forallb_forall in H.
    specialize (H n (In_from 1 512 n ltac:(lia))).
    unfold places_apart in H. cbv zeta in H.
    apply andb_true_iff in H. destruct H as [Hb Hinc].
    destruct (side_and_position p Hp) as [Hs [Hq Hsum]].
    destruct (side_and_position p' Hp') as [Hs' [Hq' Hsum']].
    assert (Hbetween : forall q, 0 <= q < 32 ->
              strictly_between
                (printed_hundredths (marker_outside (layout (JSNum.of_Z n) 0)))
                (printed_hundredths (marker_along (layout (JSNum.of_Z n) 0) q))
                (printed_hundredths (blockStart (layout (JSNum.of_Z n) 0))) = true).
    { intros q Hq0. rewrite forallb_forall in Hb.
      rewrite <- (printed_alongs_nth n q Hq0). apply Hb.
      apply nth_In. unfold printed_alongs. rewrite length_map, upto_length. lia. }
    assert (Hdiff : forall q q', 0 <= q < 32 -> 0 <= q' < 32 -> q <> q' ->
              printed_hundredths (marker_along (layout (JSNum.of_Z n) 0) q)
              <> printed_hundredths (marker_along (layout (JSNum.of_Z n) 0) q')).
    { assert (Hlt : forall q q', 0 <= q < 32 -> 0 <= q' < 32 -> q < q' ->
                printed_hundredths (marker_along (layout (JSNum.of_Z n) 0) q)
                <> printed_hundredths (marker_along (layout (JSNum.of_Z n) 0) q')).
      { intros q q' Hq0 Hq0' Hqq.
        destruct (increasing_nth _ Hinc (Z.to_nat q) (Z.to_nat q')) as [a [b [Ha [Hb' Hab]]]].
        { unfold printed_alongs. rewrite length_map, upto_length. lia. }
        rewrite printed_alongs_nth in Ha, Hb' by assumption.
        rewrite Ha, Hb'. intros Heq. injection Heq as Heq. lia. }
      intros q q' Hq0 Hq0' Hqq.
      destruct (Z_lt_le_dec q q') as [Hlt'|Hge].
      - now apply Hlt.
      - intros Heq. apply (Hlt q' q Hq0' Hq0); [lia|now symmetry]. }
    unfold L. rewrite !rect_at_pieces. cbv zeta.
    set (L0 := layout (JSNum.of_Z n) 0) in *.
    set (q := p mod blocksPerSide) in *. set (q' := p' mod blocksPerSide) in *.
    set (sd := p / blocksPerSide) in *. set (sd' := p' / blocksPerSide) in *.
    destruct (strictly_between_neq _ _ _ (Hbetween q Hq)) as [Ho [Hst Hos]].
    destruct (strictly_between_neq _ _ _ (Hbetween q' Hq')) as [Ho' [Hst' _]].
    assert (Hcase : sd = 0 \/ sd = 1 \/ sd = 2 \/ sd = 3) by lia.
    assert (Hcase' : sd' = 0 \/ sd' = 1 \/ sd' = 2 \/ sd' = 3) by lia.
    assert (Hsame : sd = sd' -> q <> q') by (intros Heq Hqq; apply Hne; lia).
    destruct Hcase as [Hc|[Hc|[Hc|Hc]]], Hcase' as [Hc'|[Hc'|[Hc'|Hc']]];
      rewrite Hc, Hc'; cbn [Z.eqb Pos.eqb]; unfold printed_rect;
      intros Heq;
      apply pair_equal_spec in Heq; destruct Heq as [Heq E4];
      apply pair_equal_spec in Heq; destruct Heq as [Heq E3];
      apply pair_equal_spec in Heq; destruct Heq as [E1 E2];
      first [ congruence
            | apply (Hdiff q q' Hq Hq'); [apply Hsame; congruence|congruence] ]. }
  split; [exact Hpos|].
  intros i i' Hi Hi' Hne. rewrite !marker_rect_at.
  apply Hpos.
  - rewrite permIdx_mod. apply Z.mod_pos_bound. lia.
  - rewrite permIdx_mod. apply Z.mod_pos_bound. lia.
  - intros Heq. apply Hne.
    rewrite <- (permIdx_inverse i), <- (permIdx_inverse i') by lia. now rewrite Heq.
Qed.

Lemma markers_printed_apart_witness :
  1 <= 120 <= 512
  /\ printed_rect (marker_rect (layout 120 0) 0) = (Some 744, Some 120, Some 432, Some 840)
  /\ printed_rect (marker_rect (layout 120 0) 7)
     <> printed_rect (marker_rect (layout 120 0) 0).
Proof.
  split; [lia|]. split; [reflexivity|].
  apply (proj2 (markers_printed_apart 120 0 ltac:(lia)) 7 0); lia.
Defined.
(** ** The facades *)

(** X18. [toSvg] is [generateIdentipattern] with both options given: it
    fails exactly when the hash is not valid, with the same error; it draws
    the grid only when its options are given with a true [showGrid]; and
    called with the size 120 and no options it returns what
    [generateIdentipattern] returns without options. *)
Theorem toSvg_is_generate (E : Engine) (hash : string) (size : float)
    (opts : option SvgOptions) :
  toSvg E hash size opts = generateIdentipattern E hash (with_options size (svg_grid opts))
  /\ (Regex.test_hex64 hash = false ->
      toSvg E hash size opts = inl (Error "hash must be 64 hex characters"))
  /\ (Regex.test_hex64 hash = true -> exists svg, toSvg E hash size opts = inr svg)
  /\ toSvg E hash size None = toSvg E hash size (Some {| svg_showGrid := None |})
  /\ toSvg E hash size None = toSvg E hash size (Some {| svg_showGrid := Some false |})
  /\ toSvg E hash 120 None = generateIdentipattern E hash no_options.
Proof.
  split; [reflexivity|]. split; [|split; [|split; [|split]]]; try reflexivity.
  - intros H. unfold toSvg. now apply generate_invalid.
  - intros H. unfold toSvg. eexists. now apply generate_returns.
Qed.

Lemma toSvg_is_generate_witness :
  Regex.test_hex64 "xyz" = false
  /\ (forall E, toSvg E "xyz" 120 None = inl (Error "hash must be 64 hex characters"))
  /\ Regex.test_hex64 all_0 = true
  /\ (forall E, exists svg, toSvg E all_0 120 None = inr svg).
Proof.
  split; [reflexivity|]. split; [|split; [reflexivity|]].
  - intros E.
    exact (proj1 (proj2 (toSvg_is_generate E "xyz" 120 None)) eq_refl).
  - intros E.
    exact (proj1 (proj2 (proj2 (toSvg_is_generate E all_0 120 None))) eq_refl).
Defined.

Lemma falsy_false x : falsy x = false -> is_nan x = false /\ (x =? 0)%float = false.
Proof.
  unfold falsy. intros H. apply orb_false_iff in H. exact H.
Qed.

Lemma size_or_default_truthy sz : falsy (size_or_default sz) = false.
Proof.
  unfold size_or_default. destruct (falsy sz) eqn:H; [reflexivity|exact H].
Qed.

(** X19. The order of the checks of [update].  A target that matches no
    element makes it return without an error and without a write, whatever
    the hash.  With an element, the hash is the argument if one is given
    (an empty string too) and else the attribute
    [data-identipattern-hash], and a hash that is not valid makes it throw
    its error before anything is written.  Otherwise it assigns to
    [outerHTML] of that element the text [toSvg] returns, and [toSvg]
    cannot fail there. *)
Theorem update_outcomes (E : Engine) (N : string -> float) (document : Document)
    (target : Target) (hash : option string) (opts : option DomOptions) :
  let found :=
    match target with
    | Selector css => querySelector document css
    | Node el => Match el
    end in
  (found = NoMatch -> update E N document target hash opts = Returned)
  /\ (forall e, found = BadSelector e -> update E N document target hash opts = Thrown e)
  /\ (forall el, found = Match el ->
        hash_of el hash
        = match hash, getAttribute el "data-identipattern-hash" with
          | Some h, _ => h
          | None, Some a => a
          | None, None => EmptyString
          end
        /\ (Regex.test_hex64 (hash_of el hash) = false ->
            update E N document target hash opts
            = Thrown (Error "hash must be 64 hex characters"))
        /\ (Regex.test_hex64 (hash_of el hash) = true ->
            exists sz svg,
              update E N document target hash opts = Assigned el svg
              /\ toSvg E (hash_of el hash) sz (Some {| svg_showGrid := Some (dom_grid opts) |})
                 = inr svg
              /\ generateIdentipattern E (hash_of el hash) (with_options sz (dom_grid opts))
                 = inr svg)).
Proof.
  intros found. unfold update. fold found. split; [|split].
  - intros ->. reflexivity.
  - intros e ->. reflexivity.
  - intros el ->. split; [destruct hash; reflexivity|]. split.
    + intros ->. reflexivity.
    + intros Hv. rewrite Hv. cbn [negb].
      set (sz := size_or_default (size_number N (size_attribute el))).
      pose proof (generate_returns E (hash_of el hash)
                    (with_options sz (dom_grid opts)) Hv eq_refl) as Hs.
      change (generateIdentipattern E (hash_of el hash) (with_options sz (dom_grid opts)))
        with (toSvg E (hash_of el hash) sz (Some {| svg_showGrid := Some (dom_grid opts) |}))
        in Hs at 1.
      rewrite Hs. exists sz. eexists. split; [reflexivity|]. split; [exact Hs|].
      now apply generate_returns.
Qed.

Lemma update_outcomes_witness :
  (forall E N,
     update E N empty_document (Selector "svg") (Some "not a hash"%string) None = Returned)
  /\ (forall E N,
        update E N empty_document (Node bare_element) None None
        = Thrown (Error "hash must be 64 hex characters"))
  /\ (forall E N,
        update E N empty_document (Node tagged_element) (Some EmptyString) None
        = Thrown (Error "hash must be 64 hex characters"))
  /\ (forall E N,
        exists svg,
          update E N empty_document (Node tagged_element) None None
          = Assigned tagged_element svg).
Proof.
  split; [|split; [|split]]; intros E N.
  - exact (proj1 (update_outcomes E N empty_document (Selector "svg")
                    (Some "not a hash"%string) None) eq_refl).
  - pose proof (update_outcomes E N empty_document (Node bare_element) None None) as H.
    cbv zeta in H. destruct H as [_ [_ H]].
    destruct (H bare_element eq_refl) as [_ [H1 _]]. exact (H1 eq_refl).
  - pose proof (update_outcomes E N empty_document (Node tagged_element)
                  (Some EmptyString) None) as H.
    cbv zeta in H. destruct H as [_ [_ H]].
    destruct (H tagged_element eq_refl) as [_ [H1 _]]. exact (H1 eq_refl).
  - pose proof (update_outcomes E N empty_document (Node tagged_element) None None) as H.
    cbv zeta in H. destruct H as [_ [_ H]].
    destruct (H tagged_element eq_refl) as [_ [_ H2]].
    destruct (H2 eq_refl) as [sz [svg [Hu _]]]. exists svg. exact Hu.
Defined.

(** X20. The size [update] draws at.  It is never [NaN] and never zero: the
    width attribute is read if it is set and not empty, else the height
    attribute; if neither is, or the text is no number or is zero, the size
    is 120.  So an element without the two attributes gets what
    [generateIdentipattern] draws at its default size. *)
Theorem update_size (E : Engine) (N : string -> float) (el : Element) :
  let sz := size_or_default (size_number N (size_attribute el)) in
  is_nan sz = false /\ (sz =? 0)%float = false
  /\ (truthy (getAttribute el "width") = true ->
      size_attribute el = getAttribute el "width")
  /\ (truthy (getAttribute el "width") = false ->
      size_attribute el = getAttribute el "height")
  /\ (truthy (size_attribute el) = false -> sz = 120%float)
  /\ (forall s, size_attribute el = Some s -> falsy (N s) = true -> sz = 120%float)
  /\ (forall s, size_attribute el = Some s -> truthy (Some s) = true ->
        falsy (N s) = false -> sz = N s)
  /\ (truthy (size_attribute el) = false ->
      forall document hash opts,
        Regex.test_hex64 (hash_of el hash) = true ->
        exists svg,
          update E N document (Node el) hash opts = Assigned el svg
          /\ generateIdentipattern E (hash_of el hash)
               {| opt_size := None; opt_showGrid := Some (Value (dom_grid opts)) |}
             = inr svg).
Proof.
  intros sz.
  destruct (falsy_false sz (size_or_default_truthy _)) as [Hn Hz].
  split; [exact Hn|]. split; [exact Hz|].
  assert (H120 : truthy (size_attribute el) = false -> sz = 120%float).
  { intros Ht. unfold sz, size_number. rewrite Ht. reflexivity. }
  split; [|split; [|split; [|split; [|split]]]].
  - intros Hw. unfold size_attribute. now rewrite Hw.
  - intros Hw. unfold size_attribute. now rewrite Hw.
  - exact H120.
  - intros s Hs Hf. unfold sz, size_number. rewrite Hs.
    destruct (truthy (Some s)); [|reflexivity].
    unfold size_or_default. now rewrite Hf.
  - intros s Hs Ht Hf. unfold sz, size_number. rewrite Hs, Ht.
    unfold size_or_default. now rewrite Hf.
  - intros Ht document hash opts Hv.
    unfold update. rewrite Hv. cbn [negb]. fold sz. rewrite (H120 Ht).
    unfold toSvg. rewrite !generate_returns by first [exact Hv|reflexivity].
    eexists. split; reflexivity.
Qed.

Lemma update_size_witness :
  truthy (getAttribute tagged_element "width") = false
  /\ size_attribute tagged_element = Some "64"%string
  /\ size_or_default (size_number sample_number (size_attribute tagged_element)) = 64%float
  /\ truthy (size_attribute bare_element) = false
  /\ (forall N, size_or_default (size_number N (size_attribute bare_element)) = 120%float).
Proof.
  split; [reflexivity|]. split; [reflexivity|].
  pose proof (update_size still_engine sample_number tagged_element) as H.
  cbv zeta in H. destruct H as [_ [_ [_ [_ [_ [_ [H _]]]]]]].
  split; [exact (H "64"%string eq_refl eq_refl eq_refl)|].
  split; [reflexivity|]. intros N.
  pose proof (update_size still_engine N bare_element) as H'.
  cbv zeta in H'. destruct H' as [_ [_ [_ [_ [H' _]]]]].
  exact (H' eq_refl).
Defined.
(** ** The bytes of the hash that are read *)

Lemma get_toLowerCase s :
  forall k, String.get k (JSString.toLowerCase s)
            = option_map JSString.lower_char (String.get k s).
Proof.
  induction s as [|c s IH]; intros k; [reflexivity|].
  destruct k as [|k]; [reflexivity|]. cbn [JSString.toLowerCase String.get]. apply IH.
Qed.

(** Entry [k] of the pairs of [s] is made of the characters [2k] and
    [2k + 1]. *)
Lemma parseBytes_pairs_nth_agree :
  forall k s1 s2,
    String.length s1 = String.length s2 ->
    String.get (2 * k) s1 = String.get (2 * k) s2 ->
    String.get (2 * k + 1) s1 = String.get (2 * k + 1) s2 ->
    nth k (parseBytes_pairs s1) 0 = nth k (parseBytes_pairs s2) 0.
Proof.
  induction k as [|k IH]; intros s1 s2 Hl H0 H1.
  - destruct s1 as [|a1 [|b1 r1]], s2 as [|a2 [|b2 r2]];
      try discriminate Hl; try reflexivity.
    cbn in H0, H1. injection H0 as ->. injection H1 as ->. reflexivity.
  - destruct s1 as [|a1 [|b1 r1]], s2 as [|a2 [|b2 r2]];
      try discriminate Hl; try reflexivity.
    cbn [parseBytes_pairs nth]. apply IH.
    + cbn in Hl. lia.
    + replace (2 * S k)%nat with (S (S (2 * k))) in H0 by lia. exact H0.
    + replace (2 * S k + 1)%nat with (S (S (2 * k + 1))) in H1 by lia. exact H1.
Qed.

Lemma parseBytes_nth_agree h1 h2 k :
  String.length h1 = String.length h2 ->
  String.get (2 * k) h1 = String.get (2 * k) h2 ->
  String.get (2 * k + 1) h1 = String.get (2 * k + 1) h2 ->
  nth k (parseBytes h1) 0 = nth k (parseBytes h2) 0.
Proof.
  intros Hl H0 H1. unfold parseBytes. apply parseBytes_pairs_nth_agree.
  - now rewrite !toLowerCase_length.
  - now rewrite !get_toLowerCase, H0.
  - now rewrite !get_toLowerCase, H1.
Qed.

Lemma marker_bit_agree bytes1 bytes2 i :
  List.length bytes1 = List.length bytes2 ->
  nth (Z.to_nat (Z.shiftr i 3)) bytes1 0 = nth (Z.to_nat (Z.shiftr i 3)) bytes2 0 ->
  marker_bit bytes1 i = marker_bit bytes2 i.
Proof.
  intros Hl Hn. unfold marker_bit. now rewrite Hl, Hn.
Qed.

Lemma derive_agree bytes1 bytes2 :
  List.length bytes1 = List.length bytes2 ->
  (forall k, (k < 24 \/ 29 <= k)%nat -> nth k bytes1 0 = nth k bytes2 0) ->
  derive bytes1 = derive bytes2.
Proof.
  intros Hl Hn.
  assert (Hw : forall start length,
             (start + length <= 24 \/ 29 <= start) -> 0 <= start ->
             hashSegment bytes1 start length = hashSegment bytes2 start length).
  { intros start length Hr Hs. apply hashSegment_agree; [exact Hl|].
    intros i H0 Hi. apply Hn. lia. }
  unfold derive.
  rewrite (Hw 0 8), (Hw 8 8), (Hw 16 8), (Hw 30 2), (Hw 29 1) by lia.
  reflexivity.
Qed.

Lemma block_parts_agree E bytes1 bytes2 L :
  List.length bytes1 = List.length bytes2 ->
  (forall k, (k < 16)%nat -> nth k bytes1 0 = nth k bytes2 0) ->
  block_parts E bytes1 L = block_parts E bytes2 L.
Proof.
  intros Hl Hn. unfold block_parts. apply flat_map_ext_on.
  intros i Hi. apply In_upto in Hi.
  rewrite (marker_bit_agree bytes1 bytes2 i Hl); [reflexivity|].
  apply Hn.
  assert (Hq : 0 <= Z.shiftr i 3 < 16).
  { rewrite Z.shiftr_div_pow2 by lia. change (2 ^ 3) with 8.
    split; [apply Z.div_pos; lia|apply Z.div_lt_upper_bound; lia]. }
  lia.
Qed.

(** X21. Five bytes of the hash are never read.  The parameters are
    computed from the bytes 0..23 and 29..31 and the markers from the bytes
    0..15, so two valid hashes that differ only in the bytes 24..28 (the
    characters 48..57) give the same output, for all options, while a
    valid hash decodes to 32 bytes. *)
Theorem output_ignores_bytes_24_to_28 (E : Engine) (h1 h2 : string) (o : Options) :
  Regex.test_hex64 h1 = true ->
  Regex.test_hex64 h2 = true ->
  (forall k, read_position k = true -> String.get k h1 = String.get k h2) ->
  derive (parseBytes h1) = derive (parseBytes h2)
  /\ generateIdentipattern E h1 o = generateIdentipattern E h2 o.
Proof.
  intros H1 H2 Hk.
  destruct (parseBytes_valid h1 H1) as [Hl1 _].
  destruct (parseBytes_valid h2 H2) as [Hl2 _].
  apply test_hex64_spec in H1 as Hs1. apply test_hex64_spec in H2 as Hs2.
  destruct Hs1 as [Hn1 _], Hs2 as [Hn2 _].
  assert (Hbytes : forall k, (k < 24 \/ 29 <= k)%nat ->
                     nth k (parseBytes h1) 0 = nth k (parseBytes h2) 0).
  { intros k Hr. apply parseBytes_nth_agree; [congruence| |];
      apply Hk; unfold read_position; apply orb_true_iff;
      destruct Hr as [Hr|Hr]; [left|right|left|right];
      try (apply Nat.ltb_lt; lia); apply Nat.leb_le; lia. }
  assert (Hd : derive (parseBytes h1) = derive (parseBytes h2)).
  { apply derive_agree; [congruence|exact Hbytes]. }
  split; [exact Hd|].
  rewrite !generate_valid by assumption.
  destruct (grid_throws (spread DEFAULTS o)); [reflexivity|]. f_equal. f_equal.
  unfold parts_of. rewrite Hd.
  rewrite (block_parts_agree E (parseBytes h1) (parseBytes h2)); [reflexivity|congruence|].
  intros k Hk16. apply Hbytes. lia.
Qed.

Lemma differ_in_bytes_24_to_28 :
  forall k, read_position k = true -> String.get k hash_a = String.get k hash_b.
Proof.
  intros k Hk.
  do 48 (destruct k as [|k]; [reflexivity|]).
  do 10 (destruct k as [|k]; [discriminate Hk|]).
  do 6 (destruct k as [|k]; [reflexivity|]).
  reflexivity.
Qed.

Lemma output_ignores_bytes_24_to_28_witness :
  Regex.test_hex64 hash_a = true
  /\ Regex.test_hex64 hash_b = true
  /\ hash_a <> hash_b
  /\ parseBytes hash_a <> parseBytes hash_b
  /\ (forall E o, generateIdentipattern E hash_a o = generateIdentipattern E hash_b o).
Proof.
  split; [reflexivity|]. split; [reflexivity|].
  split; [discriminate|]. split; [discriminate|].
  intros E o.
  exact (proj2 (output_ignores_bytes_24_to_28 E hash_a hash_b o eq_refl eq_refl
                  differ_in_bytes_24_to_28)).
Defined.

Lemma hashSegment_agree_on bytes1 bytes2 (lo len : nat) :
  List.length bytes1 = List.length bytes2 ->
  agree_on bytes1 bytes2 lo (lo + len) ->
  hashSegment bytes1 (Z.of_nat lo) (Z.of_nat len)
  = hashSegment bytes2 (Z.of_nat lo) (Z.of_nat len).
Proof.
  intros Hl Ha. apply hashSegment_agree; [exact Hl|].
  intros i H0 Hi. apply Ha. lia.
Qed.

(** Rewrite with the hash of a window on which two arrays agree. *)
Ltac same_window lo len Hl H :=
  let E := fresh "E" in
  pose proof (hashSegment_agree_on _ _ lo len Hl H) as E;
  cbn [Z.of_nat Pos.of_succ_nat Pos.succ] in E; rewrite E; clear E.

(** X27. Which bytes each parameter is read from.  For two arrays of the
    same length: the amplitude is the same if they agree on the bytes
    16..23; [freq1] if they agree on the bytes 0..7 and 16..23; [pseudo],
    and with it the wave count and the angular frequency, if they agree on
    the bytes 8..15; [innerAccent] if they agree on the bytes 30 and 31;
    and [centerHollow] if they agree on the byte 29. *)
Theorem parameter_windows (bytes1 bytes2 : list Z) :
  List.length bytes1 = List.length bytes2 ->
  let P1 := derive bytes1 in
  let P2 := derive bytes2 in
  (agree_on bytes1 bytes2 16 24 -> amplitude P1 = amplitude P2)
  /\ (agree_on bytes1 bytes2 0 8 -> agree_on bytes1 bytes2 16 24 -> freq1 P1 = freq1 P2)
  /\ (agree_on bytes1 bytes2 8 16 ->
      pseudo P1 = pseudo P2
      /\ nWaves_of (pseudo P1) = nWaves_of (pseudo P2)
      /\ freq2_of (pseudo P1) = freq2_of (pseudo P2))
  /\ (agree_on bytes1 bytes2 30 32 -> innerAccent P1 = innerAccent P2)
  /\ (agree_on bytes1 bytes2 29 30 -> centerHollow P1 = centerHollow P2).
Proof.
  intros Hl P1 P2.
  assert (Ha : agree_on bytes1 bytes2 16 24 -> amplitude P1 = amplitude P2).
  { intros H. unfold P1, P2. rewrite !amplitude_derive.
    same_window 16%nat 8%nat Hl H. reflexivity. }
  split; [exact Ha|]. split; [|split; [|split]].
  - intros H0 H16. unfold P1, P2. rewrite !freq1_derive.
    fold P1 P2. rewrite (Ha H16).
    same_window 0%nat 8%nat Hl H0. reflexivity.
  - intros H.
    assert (Hp : pseudo P1 = pseudo P2).
    { unfold P1, P2, derive. cbn [pseudo].
      same_window 8%nat 8%nat Hl H. reflexivity. }
    split; [exact Hp|]. now rewrite Hp.
  - intros H. unfold P1, P2, derive. cbn [innerAccent].
    same_window 30%nat 2%nat Hl H. reflexivity.
  - intros H. unfold P1, P2. rewrite !centerHollow_derive.
    same_window 29%nat 1%nat Hl H. reflexivity.
Qed.

Lemma parameter_windows_witness :
  List.length zero_bytes = List.length zeros_then_ones
  /\ agree_on zero_bytes zeros_then_ones 16 24
  /\ amplitude (derive zero_bytes) = amplitude (derive zeros_then_ones)
  /\ centerHollow (derive zero_bytes) <> centerHollow (derive zeros_then_ones).
Proof.
  assert (Hag : agree_on zero_bytes zeros_then_ones 16 24).
  { intros k Hk. do 16 (destruct k as [|k]; [lia|]).
    do 8 (destruct k as [|k]; [reflexivity|]). lia. }
  split; [reflexivity|]. split; [exact Hag|]. split.
  - exact (proj1 (parameter_windows zero_bytes zeros_then_ones eq_refl) Hag).
  - intros H. vm_compute in H. discriminate H.
Defined.
(** ** The markers and the first 16 bytes *)

Lemma byte_eq_of_bits a b :
  is_byte a -> is_byte b ->
  (forall j, 0 <= j < 8 -> Z.testbit a j = Z.testbit b j) -> a = b.
Proof.
  unfold is_byte. intros Ha Hb Hj.
  rewrite <- (Z.mod_small a (2 ^ 8)), <- (Z.mod_small b (2 ^ 8)) by lia.
  apply Z.bits_inj'. intros j H0.
  destruct (Z_lt_le_dec j 8) as [Hlt|Hge].
  - rewrite !Z.mod_pow2_bits_low by lia. apply Hj. lia.
  - rewrite !Z.mod_pow2_bits_high by lia. reflexivity.
Qed.

Lemma nth_firstn_16 (l : list Z) q :
  (q < 16)%nat -> nth q (firstn 16 l) 0 = nth q l 0.
Proof.
  revert l. generalize 16%nat as n. intros n. revert q.
  induction n as [|n IH]; intros q l Hq; [lia|].
  destruct l as [|x l]; [now destruct q|].
  destruct q as [|q]; [reflexivity|]. cbn [firstn nth]. apply IH. lia.
Qed.

Lemma firstn_16_nth (l1 l2 : list Z) q :
  firstn 16 l1 = firstn 16 l2 -> (q < 16)%nat -> nth q l1 0 = nth q l2 0.
Proof.
  intros Hf Hq.
  pose proof (nth_firstn_16 l1 q Hq) as E1.
  pose proof (nth_firstn_16 l2 q Hq) as E2.
  rewrite Hf in E1. congruence.
Qed.

Lemma slot_parts i :
  0 <= i < 128 ->
  0 <= Z.shiftr i 3 < 16 /\ 0 <= Z.land i 7 < 8
  /\ i = 8 * Z.shiftr i 3 + Z.land i 7.
Proof.
  intros Hi. rewrite Z.shiftr_div_pow2 by lia. change (2 ^ 3) with 8.
  change 7 with (Z.ones 3). rewrite Z.land_ones by lia. change (2 ^ 3) with 8.
  Z.div_mod_to_equations. lia.
Qed.

(** X22. The markers spell the first 16 bytes and nothing else: two valid
    hashes occupy the same border positions exactly when their first 16
    bytes are equal, and then their marker rectangles are the same at
    every size, a Number or [undefined], and with any grid flag. *)
Theorem markers_encode_first_16_bytes (h1 h2 : string) :
  Regex.test_hex64 h1 = true ->
  Regex.test_hex64 h2 = true ->
  (occupied (parseBytes h1) = occupied (parseBytes h2)
   <-> firstn 16 (parseBytes h1) = firstn 16 (parseBytes h2))
  /\ (firstn 16 (parseBytes h1) = firstn 16 (parseBytes h2) ->
      forall E s g1 g2,
        filter is_marker (parts_of E h1 {| size := s; showGrid := g1 |})
        = filter is_marker (parts_of E h2 {| size := s; showGrid := g2 |})).
Proof.
  intros H1 H2.
  destruct (parseBytes_valid h1 H1) as [Hl1 Hb1].
  destruct (parseBytes_valid h2 H2) as [Hl2 Hb2].
  remember (parseBytes h1) as b1 eqn:Eb1. remember (parseBytes h2) as b2 eqn:Eb2.
  assert (Hbits : firstn 16 b1 = firstn 16 b2 ->
                  forall i, 0 <= i < 128 -> marker_bit b1 i = marker_bit b2 i).
  { intros Hf i Hi. apply marker_bit_agree; [congruence|].
    destruct (slot_parts i Hi) as [Hq _].
    apply firstn_16_nth; [exact Hf|lia]. }
  assert (Hocc : firstn 16 b1 = firstn 16 b2 -> occupied b1 = occupied b2).
  { intros Hf. unfold occupied. f_equal. apply filter_ext_in.
    intros i Hin. apply In_upto in Hin. apply Hbits; [exact Hf|lia]. }
  split; [split; [|exact Hocc]|].
  - intros Ho.
    rewrite (firstn_as_map 0 16 b1), (firstn_as_map 0 16 b2) by lia.
    apply map_ext_in. intros q Hq. apply in_seq in Hq.
    apply byte_eq_of_bits; try (apply nth_is_byte; [assumption|lia]).
    intros j Hj.
    set (i := 8 * Z.of_nat q + j).
    assert (Hi : 0 <= i < 128) by (unfold i; lia).
    destruct (slot_parts i Hi) as [Hq3 [Hr7 Hsum]].
    assert (Hqi : Z.shiftr i 3 = Z.of_nat q) by (unfold i in *; lia).
    assert (Hji : Z.land i 7 = j) by (unfold i in *; lia).
    pose proof (marker_bit_testbit b1 i Hl1 Hb1 Hi) as T1.
    pose proof (marker_bit_testbit b2 i Hl2 Hb2 Hi) as T2.
    rewrite Hqi, Hji, Nat2Z.id in T1, T2. rewrite <- T1, <- T2.
    assert (Hp : 0 <= permIdx i < 128).
    { rewrite permIdx_mod. apply Z.mod_pos_bound. lia. }
    pose proof (occupied_spec b1 (permIdx i) Hp) as S1.
    pose proof (occupied_spec b2 (permIdx i) Hp) as S2.
    unfold slot_of in S1, S2. rewrite permIdx_inverse in S1, S2 by exact Hi.
    rewrite Ho in S1.
    destruct (marker_bit b1 i), (marker_bit b2 i); try reflexivity.
    + symmetry. apply (proj1 S2), (proj2 S1). reflexivity.
    + apply (proj1 S1), (proj2 S2). reflexivity.
  - intros Hf E s g1 g2. rewrite !markers_of_parts. cbn [size].
    rewrite <- Eb1, <- Eb2, !block_parts_occupied, (Hocc Hf).
    apply map_ext. intros p. unfold part_at.
    rewrite (rect_at_pieces (ToNumber s) (innerAccent (derive b1)) p).
    rewrite (rect_at_pieces (ToNumber s) (innerAccent (derive b2)) p). reflexivity.
Qed.

Lemma markers_encode_first_16_bytes_witness :
  Regex.test_hex64 hash_a = true
  /\ Regex.test_hex64 all_0 = true
  /\ occupied (parseBytes hash_a) = occupied (parseBytes hash_b)
  /\ occupied (parseBytes hash_a) <> occupied (parseBytes all_0).
Proof.
  split; [reflexivity|]. split; [reflexivity|].
  split.
  - apply (proj1 (markers_encode_first_16_bytes hash_a hash_b eq_refl eq_refl)).
    reflexivity.
  - intros H.
    apply (proj1 (markers_encode_first_16_bytes hash_a all_0 eq_refl eq_refl)) in H.
    discriminate H.
Defined.
